(** * BATTLE-TANKS: a shallow embedding of [main.py]

    The simulation core of the game (grid model, tank and projectile
    kinematics, collision resolution, the AI state machine, the A*
    pathfinder and the match clock) is translated function by function.

    Conventions of the embedding:
    - Python [int] is [Z]; Python [float] is modelled by exact rationals
      [Q] (no rounding), so [math.sqrt(d) < r] is the comparison of the
      squares, and the costs of the pathfinder are counted in tenths;
    - [math.cos], [math.sin] and [math.atan2] are not computed: they are
      the fields of the class [Math] and the theorems hold for all of
      them;
    - the module-level globals [SCREEN_WIDTH] and [SCREEN_HEIGHT], which
      the resize handler rewrites, are the record [Screen];
    - what a function reads from outside (pressed keys, events, the
      clock, the draws of [random], the generated map) is an argument;
    - an exception is a value of [exn] carried by [res]; a loop that the
      source bounds by its data only ([while]) takes a fuel;
    - the bullets are objects in a store and the tanks hold references
      to them; a tank is named by its position in [Game.tanks];
    - [pygame.Rect] and [colliderect] follow pygame: integer
      coordinates, floats truncated, empty rectangles collide with
      nothing;
    - rendering, sounds, textures and fonts are left out. *)

From Stdlib Require Import ZArith QArith Qround Qabs Lia.
From stdpp Require Import gmap list.

Local Open Scope Z_scope.

(** ** Numbers *)

Definition Qltb (a b : Q) : bool := negb (Qle_bool b a).

(** [int(q)] and the conversion of a float argument of [pygame.Rect]:
    truncation towards zero. *)
Definition py_int (q : Q) : Z := Z.quot (Qnum q) (Zpos (Qden q)).

(** [q // d] on floats followed by [int]. *)
Definition py_floordiv (q : Q) (d : Z) : Z := Qfloor (q / inject_Z d).

(** [q % d] on floats. *)
Definition py_fmod (q : Q) (d : Z) : Q :=
  (q - inject_Z (d * py_floordiv q d))%Q.

Definition Qsq (q : Q) : Q := (q * q)%Q.

(** ** Exceptions *)

Inductive exn : Type :=
  AttributeError | IndexError | KeyError | TypeError | ValueError.

Inductive res (A : Type) : Type :=
| Ok (a : A)
| Raise (e : exn).
Arguments Ok {A} a.
Arguments Raise {A} e.

Definition and_then {A B : Type} (m : res A) (k : A -> res B) : res B :=
  match m with
  | Ok a => k a
  | Raise e => Raise e
  end.

Notation "'let!' x := m 'in' k" := (and_then m (fun x => k))
  (at level 10, x binder, m at level 200, k at level 200).

(** ** The environment *)

(** [cos_deg a] is [math.cos(math.radians(a))], [sin_deg a] is
    [math.sin(math.radians(a))] and [atan2_deg y x] is
    [math.degrees(math.atan2(y, x))]. *)
Class Math : Type := {
  cos_deg : Z -> Q;
  sin_deg : Z -> Q;
  atan2_deg : Q -> Q -> Q
}.

Record Screen : Type := {
  SCREEN_WIDTH : Z;
  SCREEN_HEIGHT : Z
}.

Definition default_screen : Screen :=
  {| SCREEN_WIDTH := 1920; SCREEN_HEIGHT := 1020 |}.

Definition TANK_SIZE : Z := 30.
Definition TANK_SPEED : Z := 5.
Definition ROTATION_SPEED : Z := 2.
Definition BULLET_SPEED : Z := 10.
Definition BULLET_SIZE : Z := 6.
Definition TILE_WIDTH : Z := 70.
Definition TILE_HEIGHT : Z := 45.
Definition BORDER_THICKNESS : Z := 0.
Definition MATCH_SECONDS : Z := 90.

(** ** pygame.Rect *)

Record Rect : Type := {
  left : Z;
  top : Z;
  width : Z;
  height : Z
}.

Definition right (r : Rect) : Z := left r + width r.
Definition bottom (r : Rect) : Z := top r + height r.

(** [pygame.Rect(x, y, w, h)] with float arguments. *)
Definition Rect_of (x y w h : Q) : Rect :=
  {| left := py_int x; top := py_int y; width := py_int w; height := py_int h |}.

(** [a.colliderect(b)]: rectangles of zero size collide with nothing. *)
Definition colliderect (a b : Rect) : bool :=
  if (width a =? 0) || (height a =? 0) || (width b =? 0) || (height b =? 0)
  then false
  else (Z.min (left a) (right a) <? Z.max (left b) (right b))
    && (Z.min (top a) (bottom a) <? Z.max (top b) (bottom b))
    && (Z.max (left a) (right a) >? Z.min (left b) (right b))
    && (Z.max (top a) (bottom a) >? Z.min (top b) (bottom b)).

(** ** Tile *)

Module Tile.
Record t : Type := {
  grid_x : Z;
  grid_y : Z;
  collidable : bool
}.

Definition rect (tl : t) : Rect :=
  {| left := grid_x tl * TILE_WIDTH; top := grid_y tl * TILE_HEIGHT;
     width := TILE_WIDTH; height := TILE_HEIGHT |}.

Definition collides (tl : t) : bool := collidable tl.
End Tile.

(** The first tile of the list that collides and whose rectangle meets
    [r]: the tile at which the loops over [tiles] stop. *)
Fixpoint first_collision (r : Rect) (tiles : list Tile.t) : option Tile.t :=
  match tiles with
  | [] => None
  | tile :: rest =>
      if negb (Tile.collides tile) then first_collision r rest
      else if colliderect r (Tile.rect tile) then Some tile
      else first_collision r rest
  end.

(** ** Bullet *)

Module Bullet.
(** [speed], [size] and [max_bounces] are written once in [__init__]
    and never again: they are constants here. [owner] is the position
    of the firing tank in [Game.tanks]. *)
Record t : Type := {
  x : Q;
  y : Q;
  angle : Z;
  owner : nat;
  bounces : Z;
  active : bool
}.

Definition speed : Z := BULLET_SPEED.
Definition size : Z := BULLET_SIZE.
Definition max_bounces : Z := 4.

Definition init (x0 y0 : Q) (a : Z) (o : nat) : t :=
  {| x := x0; y := y0; angle := a; owner := o; bounces := 0; active := true |}.

Definition half : Q := (inject_Z size / 2)%Q.

Definition hits_x (scr : Screen) (bx : Q) : bool :=
  Qltb (bx - half) (inject_Z BORDER_THICKNESS)
  || Qltb (inject_Z (SCREEN_WIDTH scr - BORDER_THICKNESS)) (bx + half).

Definition hits_y (scr : Screen) (by_ : Q) : bool :=
  Qltb (by_ - half) (inject_Z BORDER_THICKNESS)
  || Qltb (inject_Z (SCREEN_HEIGHT scr - BORDER_THICKNESS)) (by_ + half).

Definition outside (scr : Screen) (bx by_ : Q) : bool :=
  Qltb bx 0 || Qltb (inject_Z (SCREEN_WIDTH scr)) bx
  || Qltb by_ 0 || Qltb (inject_Z (SCREEN_HEIGHT scr)) by_.

Definition get_rect (bx by_ : Q) : Rect :=
  Rect_of (bx - half) (by_ - half) (inject_Z size) (inject_Z size).

Definition update `{Math} (scr : Screen) (tiles : list Tile.t) (b : t) : t :=
  if negb (active b) then b
  else
    let x1 := (x b + cos_deg (angle b) * inject_Z speed)%Q in
    let y1 := (y b - sin_deg (angle b) * inject_Z speed)%Q in
    let bullet_rect := get_rect x1 y1 in
    if hits_x scr x1 || hits_y scr y1 then
      let n := bounces b + 1 in
      if n >? max_bounces then
        {| x := x1; y := y1; angle := angle b; owner := owner b;
           bounces := n; active := false |}
      else
        {| x := x1; y := y1;
           angle := if hits_x scr x1 then 180 - angle b else - angle b;
           owner := owner b; bounces := n; active := true |}
    else
      match first_collision bullet_rect tiles with
      | Some tile =>
          let n := bounces b + 1 in
          if n >? max_bounces then
            {| x := x1; y := y1; angle := angle b; owner := owner b;
               bounces := n; active := false |}
          else
            let overlap_left := right bullet_rect - left (Tile.rect tile) in
            let overlap_right := right (Tile.rect tile) - left bullet_rect in
            let overlap_top := bottom bullet_rect - top (Tile.rect tile) in
            let overlap_bottom := bottom (Tile.rect tile) - top bullet_rect in
            let min_overlap :=
              Z.min (Z.min overlap_left overlap_right)
                    (Z.min overlap_top overlap_bottom) in
            let a :=
              if (min_overlap =? overlap_top) || (min_overlap =? overlap_bottom)
              then - angle b else 180 - angle b in
            let x2 := (x1 + cos_deg a * inject_Z speed * 2)%Q in
            let y2 := (y1 - sin_deg a * inject_Z speed * 2)%Q in
            {| x := x2; y := y2; angle := a; owner := owner b;
               bounces := n; active := negb (outside scr x2 y2) |}
      | None =>
          {| x := x1; y := y1; angle := angle b; owner := owner b;
             bounces := bounces b; active := negb (outside scr x1 y1) |}
      end.

(** A sequence of ticks; the obstacle list of each tick is given. *)
Fixpoint run `{Math} (scr : Screen) (ticks : list (list Tile.t)) (b : t) : t :=
  match ticks with
  | [] => b
  | tiles :: rest => run scr rest (update scr tiles b)
  end.
End Bullet.

(** ** Python lists *)

(** [l[i]] for a Python list: a negative index counts from the end, an
    index out of range raises [IndexError]. *)
Definition py_index {A : Type} (l : list A) (i : Z) : res A :=
  let j := if i <? 0 then i + Z.of_nat (length l) else i in
  if (j <? 0) || (Z.of_nat (length l) <=? j) then Raise IndexError
  else match l !! Z.to_nat j with
       | Some a => Ok a
       | None => Raise IndexError
       end.

(** [l[i] = v]. *)
Definition py_setitem {A : Type} (l : list A) (i : Z) (v : A) : res (list A) :=
  let j := if i <? 0 then i + Z.of_nat (length l) else i in
  if (j <? 0) || (Z.of_nat (length l) <=? j) then Raise IndexError
  else Ok (<[Z.to_nat j := v]> l).

(** [range(n)] *)
Definition range (n : Z) : list Z := map Z.of_nat (seq 0 (Z.to_nat n)).

(** [for a in l: body] over a state that may raise. *)
Fixpoint for_each {A S : Type} (l : list A) (body : A -> S -> res S) (s : S) : res S :=
  match l with
  | [] => Ok s
  | a :: rest => let! s' := body a s in for_each rest body s'
  end.

(** [l.remove(a)] for an element that is in the list. *)
Fixpoint remove_first (r : nat) (l : list nat) : list nat :=
  match l with
  | [] => []
  | a :: rest => if Nat.eqb a r then rest else a :: remove_first r rest
  end.

(** ** The grid and the pathfinder's containers *)

Abbreviation cell := (Z * Z)%type.

(** [grid_map[col][row]] *)
Abbreviation Grid := (list (list bool)).

(** The entries of [frontier] are the tuples [(priority, (col, row))].
    Costs and priorities are kept in tenths: the step costs [1] and [1.4]
    are [10] and [14]. *)
Abbreviation entry := (Z * (Z * Z))%type.

(** Tuple comparison [a <= b]. *)
Definition entry_leb (a b : entry) : bool :=
  let '(pa, (xa, ya)) := a in
  let '(pb, (xb, yb)) := b in
  (pa <? pb) || ((pa =? pb) && ((xa <? xb) || ((xa =? xb) && (ya <=? yb)))).

(** [heapq.heappop] returns the least tuple of the heap; as the tuples
    are totally ordered, the result does not depend on the heap's layout:
    the heap is a plain list and [pop_min e f] takes the least element
    out of [e :: f]. *)
Fixpoint pop_min (e : entry) (f : list entry) : entry * list entry :=
  match f with
  | [] => (e, [])
  | e' :: f' =>
      if entry_leb e e'
      then let '(m, r) := pop_min e f' in (m, e' :: r)
      else let '(m, r) := pop_min e' f' in (m, e :: r)
  end.

Definition heappush (f : list entry) (e : entry) : list entry := e :: f.

Definition heappop (f : list entry) : res (entry * list entry) :=
  match f with
  | [] => Raise IndexError
  | e :: f' => Ok (pop_min e f')
  end.

Record Search : Type := {
  frontier : list entry;
  came_from : gmap cell (option cell);
  cost_so_far : gmap cell Z
}.

Definition directions : list (Z * Z) :=
  [(0, 1); (1, 0); (0, -1); (-1, 0); (1, 1); (-1, -1); (1, -1); (-1, 1)].

(** [grid_map] is [None] until [start_game] builds the grid; [len] and
    the subscript of [None] raise [TypeError]. *)
Definition the_grid (grid_map : option Grid) : res Grid :=
  match grid_map with
  | Some g => Ok g
  | None => Raise TypeError
  end.

(** [0 <= p[0] < len(grid_map) and 0 <= p[1] < len(grid_map[0])]: each
    comparison is only evaluated when the ones before it hold. *)
Definition in_grid (grid_map : option Grid) (p : cell) : res bool :=
  if 0 <=? p.1 then
    let! g := the_grid grid_map in
    if p.1 <? Z.of_nat (length g) then
      if 0 <=? p.2 then
        let! row0 := py_index (A := list bool) g 0 in
        Ok (p.2 <? Z.of_nat (length row0))
      else Ok false
    else Ok false
  else Ok false.

(** The body of the loop over the eight directions. *)
Definition relax (grid_map : option Grid) (goal current : cell) (d : Z * Z) (s : Search)
  : res Search :=
  let next_pos := (current.1 + d.1, current.2 + d.2) in
  let! inside := in_grid grid_map next_pos in
  if negb inside then Ok s
  else
    let! g := the_grid grid_map in
    let! col := py_index (A := list bool) g next_pos.1 in
    let! occupied := py_index (A := bool) col next_pos.2 in
    if occupied : bool then Ok s
    else
      match cost_so_far s !! current with
      | None => Raise KeyError
      | Some c =>
          let new_cost := c + (if Z.abs d.1 + Z.abs d.2 =? 2 then 14 else 10) in
          let better :=
            match cost_so_far s !! next_pos with
            | None => true
            | Some old => new_cost <? old
            end in
          if better then
            let priority :=
              new_cost + 10 * (Z.abs (next_pos.1 - goal.1) + Z.abs (next_pos.2 - goal.2)) in
            Ok {| frontier := heappush (frontier s) (priority, next_pos);
                  came_from := <[next_pos := Some current]> (came_from s);
                  cost_so_far := <[next_pos := new_cost]> (cost_so_far s) |}
          else Ok s
      end.

(** [while frontier and len(came_from) < 200]; [None] is "out of fuel". *)
Fixpoint astar_loop (fuel : nat) (grid_map : option Grid) (goal : cell) (s : Search)
  : option (res Search) :=
  match fuel with
  | O => None
  | S fuel' =>
      match frontier s with
      | [] => Some (Ok s)
      | e :: f' =>
          if negb (size (came_from s) <? 200)%nat then Some (Ok s)
          else
            let '(m, rest) := pop_min e f' in
            let current := m.2 in
            let s1 := {| frontier := rest; came_from := came_from s;
                         cost_so_far := cost_so_far s |} in
            if decide (current = goal) then Some (Ok s1)
            else
              match for_each directions (relax grid_map goal current) s1 with
              | Raise e => Some (Raise e)
              | Ok s2 => astar_loop fuel' grid_map goal s2
              end
      end
  end.

Definition waypoint (c : cell) : Z * Z :=
  (c.1 * TILE_WIDTH + TILE_WIDTH / 2, c.2 * TILE_HEIGHT + TILE_HEIGHT / 2).

(** [while current != start: path.append(..); current = came_from[current]];
    the path is returned in the order of the appends. *)
Fixpoint walk_back (fuel : nat) (cf : gmap cell (option cell)) (start current : cell)
  : option (res (list (Z * Z))) :=
  if decide (current = start) then Some (Ok [])
  else
    match fuel with
    | O => None
    | S fuel' =>
        match cf !! current with
        | None => Some (Raise KeyError)
        | Some None => Some (Raise TypeError)
        | Some (Some p) =>
            match walk_back fuel' cf start p with
            | Some (Ok path) => Some (Ok (waypoint current :: path))
            | other => other
            end
        end
    end.

Definition initial_search (start : cell) : Search :=
  {| frontier := heappush [] (0, start);
     came_from := {[ start := None ]};
     cost_so_far := {[ start := 0 ]} |}.

(** [astar_pathfind] between two cells, with the fuel of both loops. *)
Definition astar_cells (fuel : nat) (grid_map : option Grid) (start goal : cell)
  : option (res (list (Z * Z))) :=
  if decide (start = goal) then Some (Ok [])
  else
    match astar_loop fuel grid_map goal (initial_search start) with
    | None => None
    | Some (Raise e) => Some (Raise e)
    | Some (Ok s) =>
        match came_from s !! goal with
        | None => Some (Ok [])
        | Some _ =>
            match walk_back fuel (came_from s) start goal with
            | Some (Ok path) => Some (Ok (take 10 (reverse path)))
            | other => other
            end
        end
    end.

(** ** Keys and random draws *)

Inductive Key : Type :=
| K_w | K_s | K_a | K_d | K_SPACE
| K_UP | K_DOWN | K_LEFT | K_RIGHT | K_RETURN
| K_1 | K_2 | K_r | K_ESCAPE | K_other.

#[global] Instance Key_eq_dec : EqDecision Key.
Proof. solve_decision. Defined.

(** The draws of [random] that one call of [update_ai] may consume:
    [recalc] is [random.random() < 0.1], [repick] is
    [random.random() < 0.01] and [pick] holds the two [randint] results. *)
Record Draws : Type := {
  recalc : bool;
  repick : bool;
  pick : Z * Z
}.

(** ** The object store of the bullets

    A tank holds references to its bullets and the collision pass
    iterates over a copy of such a list while the list itself is
    cleared: bullets live in a store and are named by their position in
    it. A reference that names no bullet does not occur in a state of
    the game; the loops skip it. *)
Abbreviation Heap := (list Bullet.t).

Definition alloc (h : Heap) (b : Bullet.t) : nat * Heap := (length h, h ++ [b]).

(** ** Tank *)

Module Tank.
Inductive Color : Type := RED | BLUE.
Inductive AIState : Type := patrol | pursue | attack.

Record Controls : Type := {
  k_up : Key; k_down : Key; k_left : Key; k_right : Key; k_shoot : Key
}.

(** [controls] is [None] for the empty dictionary of the computer's
    tank; [move_sound] says whether a sound object is present. *)
Record t : Type := {
  x : Q;
  y : Q;
  angle : Z;
  color : Color;
  controls : option Controls;
  bullets : list nat;
  alive : bool;
  is_ai : bool;
  move_sound : bool;
  _move_sound_cooldown : Z;
  kills : Z;
  suicides : Z;
  deaths : Z;
  spawn_point : Q * Q;
  shoot_cooldown : Q;
  ai_state : AIState;
  ai_path : list (Z * Z);
  patrol_point : option (Z * Z);
  ai_shoot_timer : Q
}.

Definition size : Z := TANK_SIZE.
Definition speed : Z := TANK_SPEED.
Definition max_cooldown : Z := 30.

Definition init (x0 y0 : Q) (c : Color) (ctl : option Controls) (ai snd : bool)
    (spawn : Q * Q) : t :=
  {| x := x0; y := y0; angle := 0; color := c; controls := ctl; bullets := [];
     alive := true; is_ai := ai; move_sound := snd; _move_sound_cooldown := 0;
     kills := 0; suicides := 0; deaths := 0; spawn_point := spawn;
     shoot_cooldown := 1 # 2; ai_state := patrol; ai_path := [];
     patrol_point := None; ai_shoot_timer := 1 # 2 |}.

Definition set_pos (s : t) (nx ny : Q) (cd : Z) : t :=
  {| x := nx; y := ny; angle := angle s; color := color s; controls := controls s;
     bullets := bullets s; alive := alive s; is_ai := is_ai s;
     move_sound := move_sound s; _move_sound_cooldown := cd;
     kills := kills s; suicides := suicides s; deaths := deaths s;
     spawn_point := spawn_point s; shoot_cooldown := shoot_cooldown s;
     ai_state := ai_state s; ai_path := ai_path s;
     patrol_point := patrol_point s; ai_shoot_timer := ai_shoot_timer s |}.

Definition set_angle (s : t) (a : Z) : t :=
  {| x := x s; y := y s; angle := a; color := color s; controls := controls s;
     bullets := bullets s; alive := alive s; is_ai := is_ai s;
     move_sound := move_sound s; _move_sound_cooldown := _move_sound_cooldown s;
     kills := kills s; suicides := suicides s; deaths := deaths s;
     spawn_point := spawn_point s; shoot_cooldown := shoot_cooldown s;
     ai_state := ai_state s; ai_path := ai_path s;
     patrol_point := patrol_point s; ai_shoot_timer := ai_shoot_timer s |}.

Definition set_bullets (s : t) (bs : list nat) (cd : Q) : t :=
  {| x := x s; y := y s; angle := angle s; color := color s; controls := controls s;
     bullets := bs; alive := alive s; is_ai := is_ai s;
     move_sound := move_sound s; _move_sound_cooldown := _move_sound_cooldown s;
     kills := kills s; suicides := suicides s; deaths := deaths s;
     spawn_point := spawn_point s; shoot_cooldown := cd;
     ai_state := ai_state s; ai_path := ai_path s;
     patrol_point := patrol_point s; ai_shoot_timer := ai_shoot_timer s |}.

Definition set_score (s : t) (k su d : Z) : t :=
  {| x := x s; y := y s; angle := angle s; color := color s; controls := controls s;
     bullets := bullets s; alive := alive s; is_ai := is_ai s;
     move_sound := move_sound s; _move_sound_cooldown := _move_sound_cooldown s;
     kills := k; suicides := su; deaths := d;
     spawn_point := spawn_point s; shoot_cooldown := shoot_cooldown s;
     ai_state := ai_state s; ai_path := ai_path s;
     patrol_point := patrol_point s; ai_shoot_timer := ai_shoot_timer s |}.

Definition set_ai (s : t) (st : AIState) (path : list (Z * Z))
    (pp : option (Z * Z)) (timer : Q) : t :=
  {| x := x s; y := y s; angle := angle s; color := color s; controls := controls s;
     bullets := bullets s; alive := alive s; is_ai := is_ai s;
     move_sound := move_sound s; _move_sound_cooldown := _move_sound_cooldown s;
     kills := kills s; suicides := suicides s; deaths := deaths s;
     spawn_point := spawn_point s; shoot_cooldown := shoot_cooldown s;
     ai_state := st; ai_path := path; patrol_point := pp; ai_shoot_timer := timer |}.

Definition set_is_ai (s : t) (ai : bool) : t :=
  {| x := x s; y := y s; angle := angle s; color := color s; controls := controls s;
     bullets := bullets s; alive := alive s; is_ai := ai;
     move_sound := move_sound s; _move_sound_cooldown := _move_sound_cooldown s;
     kills := kills s; suicides := suicides s; deaths := deaths s;
     spawn_point := spawn_point s; shoot_cooldown := shoot_cooldown s;
     ai_state := ai_state s; ai_path := ai_path s;
     patrol_point := patrol_point s; ai_shoot_timer := ai_shoot_timer s |}.

Definition half : Q := (inject_Z size / 2)%Q.

Definition rect_at (px py : Q) : Rect :=
  Rect_of (px - half) (py - half) (inject_Z size) (inject_Z size).

Definition get_rect (s : t) : Rect := rect_at (x s) (y s).

(** The margin that [move] keeps to every edge of the screen. *)
Definition border_thickness : Z :=
  Z.max BORDER_THICKNESS (Z.max TILE_WIDTH TILE_HEIGHT).

Definition hits_border (scr : Screen) (nx ny : Q) : bool :=
  (Qltb (nx - half) (inject_Z border_thickness)
   || Qltb (inject_Z (SCREEN_WIDTH scr - border_thickness)) (nx + half))
  || (Qltb (ny - half) (inject_Z border_thickness)
      || Qltb (inject_Z (SCREEN_HEIGHT scr - border_thickness)) (ny + half)).

(** The value of [can_move] at the end of the checks of [move]. *)
Definition can_move (scr : Screen) (tiles : list Tile.t) (nx ny : Q) : bool :=
  if hits_border scr nx ny then false
  else match first_collision (rect_at nx ny) tiles with
       | Some _ => false
       | None => true
       end.

Definition move (scr : Screen) (dx dy : Q) (tiles : list Tile.t) (s : t) : t :=
  let new_x := (x s + dx)%Q in
  let new_y := (y s + dy)%Q in
  if can_move scr tiles new_x new_y then
    set_pos s new_x new_y
      (if move_sound s then
         if _move_sound_cooldown s <=? 0 then 8 else _move_sound_cooldown s - 1
       else _move_sound_cooldown s)
  else s.

Definition rotate (direction : Z) (s : t) : t :=
  set_angle s ((angle s + direction * ROTATION_SPEED) mod 360).

(** [me] is the position of the tank in [Game.tanks]: the [self] that
    the new bullet records as its owner. *)
Definition shoot `{Math} (me : nat) (s : t) (h : Heap) : t * Heap :=
  if Qle_bool (shoot_cooldown s) 0 && (length (bullets s) <? 3)%nat then
    let barrel_length := inject_Z size in
    let bullet_x := (x s + cos_deg (angle s) * barrel_length)%Q in
    let bullet_y := (y s - sin_deg (angle s) * barrel_length)%Q in
    let '(r, h') := alloc h (Bullet.init bullet_x bullet_y (angle s) me) in
    (set_bullets s (bullets s ++ [r]) (inject_Z max_cooldown), h')
  else (s, h).

Definition respawn (s : t) : t :=
  {| x := (spawn_point s).1; y := (spawn_point s).2; angle := angle s;
     color := color s; controls := controls s;
     bullets := []; alive := true; is_ai := is_ai s;
     move_sound := move_sound s; _move_sound_cooldown := 0;
     kills := kills s; suicides := suicides s; deaths := deaths s;
     spawn_point := spawn_point s; shoot_cooldown := shoot_cooldown s;
     ai_state := ai_state s; ai_path := ai_path s;
     patrol_point := patrol_point s; ai_shoot_timer := ai_shoot_timer s |}.

Definition has_line_of_sight (s target : t) (tiles : list Tile.t) : bool :=
  let steps := 20 in
  let dx := ((x target - x s) / inject_Z steps)%Q in
  let dy := ((y target - y s) / inject_Z steps)%Q in
  forallb (fun i =>
    let check_x := (x s + dx * inject_Z i)%Q in
    let check_y := (y s + dy * inject_Z i)%Q in
    let check_rect := Rect_of (check_x - 5) (check_y - 5) 10 10 in
    match first_collision check_rect tiles with
    | Some _ => false
    | None => true
    end) (range steps).

(** [math.sqrt((ax - bx)**2 + (ay - by)**2) < r] *)
Definition dist_lt (ax ay bx by_ : Q) (r : Z) : bool :=
  Qltb (Qsq (ax - bx) + Qsq (ay - by_)) (inject_Z (r * r)).

(** [(a - angle + 180) % 360 - 180] *)
Definition angle_diff_to (a : Q) (s : t) : Q :=
  (py_fmod (a - inject_Z (angle s) + 180) 360 - 180)%Q.

Definition move_towards `{Math} (scr : Screen) (target_pos : Z * Z)
    (tiles : list Tile.t) (s : t) : t :=
  let angle_to_target :=
    atan2_deg (y s - inject_Z target_pos.2) (inject_Z target_pos.1 - x s) in
  let angle_diff := angle_diff_to angle_to_target s in
  if Qltb 5 (Qabs angle_diff) then
    rotate (if Qltb 0 angle_diff then 1 else -1) s
  else
    let dx := (cos_deg (angle s) * inject_Z speed)%Q in
    let dy := (- sin_deg (angle s) * inject_Z speed)%Q in
    move scr dx dy tiles s.

(** The fuel of the two loops of [astar_pathfind]: on a rectangular
    grid it is not used up (see [astar_fuel_above] and
    [pathfinder_never_raises]), so that the last case of
    [astar_pathfind] is never taken there. *)
Definition astar_fuel (grid_map : option Grid) : nat :=
  match grid_map with
  | None => 2
  | Some g =>
      let n := (length g * length (hd [] g))%nat in
      (2 + 2 * n * (14 * (n + 1) + 1))%nat
  end.

Definition astar_pathfind (s target : t) (grid_map : option Grid)
  : res (list (Z * Z)) :=
  let start := (py_floordiv (x s) TILE_WIDTH, py_floordiv (y s) TILE_HEIGHT) in
  let goal := (py_floordiv (x target) TILE_WIDTH, py_floordiv (y target) TILE_HEIGHT) in
  match astar_cells (astar_fuel grid_map) grid_map start goal with
  | Some r => r
  | None => Ok []
  end.

(** The state that the first lines of [update_ai] select. *)
Definition select_state (s target : t) (tiles : list Tile.t) : AIState :=
  if dist_lt (x s) (y s) (x target) (y target) 200
     && has_line_of_sight s target tiles
  then attack
  else if dist_lt (x s) (y s) (x target) (y target) 400 then pursue
  else patrol.

Definition update_ai `{Math} (scr : Screen) (me : nat) (tiles : list Tile.t)
    (target_tank : option t) (grid_map : option Grid) (rnd : Draws)
    (s : t) (h : Heap) : res (t * Heap) :=
  let s :=
    match target_tank with
    | Some tg =>
        if negb (alive tg)
        then set_ai s patrol (ai_path s) (patrol_point s) (ai_shoot_timer s)
        else s
    | None => set_ai s patrol (ai_path s) (patrol_point s) (ai_shoot_timer s)
    end in
  match target_tank with
  | None => Raise AttributeError
  | Some tg =>
      let s := set_ai s (select_state s tg tiles) (ai_path s) (patrol_point s)
                 (ai_shoot_timer s) in
      match ai_state s with
      | attack =>
          let angle_to_target := atan2_deg (y s - y tg) (x tg - x s) in
          let angle_diff := angle_diff_to angle_to_target s in
          let s :=
            if Qltb 5 (Qabs angle_diff)
            then rotate (if Qltb 0 angle_diff then 1 else -1) s
            else s in
          if Qltb (Qabs angle_diff) 15 then
            let timer := (ai_shoot_timer s + 1)%Q in
            if Qltb 30 timer then
              let '(s, h) := shoot me s h in
              Ok (set_ai s (ai_state s) (ai_path s) (patrol_point s) 0, h)
            else Ok (set_ai s (ai_state s) (ai_path s) (patrol_point s) timer, h)
          else Ok (s, h)
      | pursue =>
          let! path := (if recalc rnd then astar_pathfind s tg grid_map
                        else Ok (ai_path s)) in
          let s := set_ai s (ai_state s) path (patrol_point s) (ai_shoot_timer s) in
          match path with
          | [] => Ok (s, h)
          | target_pos :: rest =>
              let s := move_towards scr target_pos tiles s in
              if dist_lt (x s) (y s) (inject_Z target_pos.1) (inject_Z target_pos.2) 30
              then Ok (set_ai s (ai_state s) rest (patrol_point s) (ai_shoot_timer s), h)
              else Ok (s, h)
          end
      | patrol =>
          let! pp := match patrol_point s with
                | Some p => if repick rnd then
                              if (SCREEN_WIDTH scr - 100 <? 100)
                                 || (SCREEN_HEIGHT scr - 100 <? 100)
                              then Raise ValueError else Ok (pick rnd)
                            else Ok p
                | None => if (SCREEN_WIDTH scr - 100 <? 100)
                             || (SCREEN_HEIGHT scr - 100 <? 100)
                          then Raise ValueError else Ok (pick rnd)
                end in
          let s := set_ai s (ai_state s) (ai_path s) (Some pp) (ai_shoot_timer s) in
          Ok (move_towards scr pp tiles s, h)
      end
  end.

(** [for bullet in self.bullets[:]]: the loop runs over the references
    of the copy [refs] and removes the inactive bullets from the list
    [bs] of the tank. *)
Fixpoint update_bullets `{Math} (scr : Screen) (tiles : list Tile.t)
    (refs : list nat) (bs : list nat) (h : Heap) : list nat * Heap :=
  match refs with
  | [] => (bs, h)
  | r :: rest =>
      match h !! r with
      | None => update_bullets scr tiles rest bs h
      | Some bullet =>
          let bullet' := Bullet.update scr tiles bullet in
          let h' := <[r := bullet']> h in
          update_bullets scr tiles rest
            (if Bullet.active bullet' then bs else remove_first r bs) h'
      end
  end.

(** [keys[self.controls[name]]] *)
Definition pressed (keys : Key -> bool) (s : t) (name : Controls -> Key) : res bool :=
  match controls s with
  | None => Raise KeyError
  | Some c => Ok (keys (name c))
  end.

Definition update `{Math} (scr : Screen) (me : nat) (keys : Key -> bool)
    (tiles : list Tile.t) (target_tank : option t) (grid_map : option Grid)
    (rnd : Draws) (s : t) (h : Heap) : res (t * Heap) :=
  if negb (alive s) then Ok (s, h)
  else
    let s :=
      if Qltb 0 (shoot_cooldown s)
      then set_bullets s (bullets s) (shoot_cooldown s - 1)
      else s in
    let! '(s, h) :=
      (if is_ai s then update_ai scr me tiles target_tank grid_map rnd s h
       else
         let! up := pressed keys s k_up in
         let '(dx, dy) :=
           if up then ((cos_deg (angle s) * inject_Z speed)%Q,
                       (- sin_deg (angle s) * inject_Z speed)%Q)
           else (0%Q, 0%Q) in
         let! down := pressed keys s k_down in
         let '(dx, dy) :=
           if down then ((- cos_deg (angle s) * inject_Z speed)%Q,
                         (sin_deg (angle s) * inject_Z speed)%Q)
           else (dx, dy) in
         let s :=
           if negb (Qeq_bool dx 0) || negb (Qeq_bool dy 0)
           then move scr dx dy tiles s else s in
         let! lft := pressed keys s k_left in
         let s := if lft then rotate 1 s else s in
         let! rgt := pressed keys s k_right in
         let s := if rgt then rotate (-1) s else s in
         Ok (s, h)) in
    let '(bs, h) := update_bullets scr tiles (bullets s) (bullets s) h in
    Ok (set_bullets s bs (shoot_cooldown s), h).
End Tank.

(** ** Game *)

Module Game.
Inductive Phase : Type := menu | playing | game_over.
Inductive Mode : Type := pvp | pvc.

(** [bullets] is the store of the bullet objects; [sfx_move] says
    whether the movement sound was loaded; [match_end] is [None] until
    the first call of [start_game]. *)
Record t : Type := {
  screen : Screen;
  running : bool;
  state : Phase;
  mode : option Mode;
  tiles : list Tile.t;
  tanks : list Tank.t;
  bullets : Heap;
  grid_map : option Grid;
  sfx_move : bool;
  match_start : option Z;
  match_end : option Z
}.

Definition set_state (g : t) (st : Phase) : t :=
  {| screen := screen g; running := running g; state := st; mode := mode g;
     tiles := tiles g; tanks := tanks g; bullets := bullets g;
     grid_map := grid_map g; sfx_move := sfx_move g;
     match_start := match_start g; match_end := match_end g |}.

Definition set_running (g : t) (r : bool) : t :=
  {| screen := screen g; running := r; state := state g; mode := mode g;
     tiles := tiles g; tanks := tanks g; bullets := bullets g;
     grid_map := grid_map g; sfx_move := sfx_move g;
     match_start := match_start g; match_end := match_end g |}.

Definition set_world (g : t) (ts : list Tank.t) (h : Heap) : t :=
  {| screen := screen g; running := running g; state := state g; mode := mode g;
     tiles := tiles g; tanks := ts; bullets := h;
     grid_map := grid_map g; sfx_move := sfx_move g;
     match_start := match_start g; match_end := match_end g |}.

Definition set_screen (g : t) (scr : Screen) (gm : option Grid) : t :=
  {| screen := scr; running := running g; state := state g; mode := mode g;
     tiles := tiles g; tanks := tanks g; bullets := bullets g;
     grid_map := gm; sfx_move := sfx_move g;
     match_start := match_start g; match_end := match_end g |}.

Definition grid_w (scr : Screen) : Z := Z.max 1 (SCREEN_WIDTH scr / TILE_WIDTH).
Definition grid_h (scr : Screen) : Z := Z.max 1 (SCREEN_HEIGHT scr / TILE_HEIGHT).

Definition border_cols : Z :=
  Z.max 1 (Qceiling (inject_Z BORDER_THICKNESS / inject_Z TILE_WIDTH)).
Definition border_rows : Z :=
  Z.max 1 (Qceiling (inject_Z BORDER_THICKNESS / inject_Z TILE_HEIGHT)).

(** [grid[cx][cy] = True] *)
Definition mark (cx cy : Z) (grid : Grid) : res Grid :=
  let! col := py_index grid cx in
  let! col' := py_setitem col cy true in
  py_setitem grid cx col'.

Definition mark_if (cond : bool) (cx cy : Z) (grid : Grid) : res Grid :=
  if cond then mark cx cy grid else Ok grid.

Definition create_grid_map (scr : Screen) (tiles : list Tile.t) : res Grid :=
  let grid_w := grid_w scr in
  let grid_h := grid_h scr in
  let grid : Grid :=
    map (fun _ => map (fun _ => false) (range grid_h)) (range grid_w) in
  let! grid :=
    for_each (range grid_w) (fun cx =>
      for_each (range border_rows) (fun by_ grid =>
        let! grid := mark_if ((0 <=? by_) && (by_ <? grid_h)) cx by_ grid in
        mark_if ((0 <=? grid_h - 1 - by_) && (grid_h - 1 - by_ <? grid_h))
          cx (grid_h - 1 - by_) grid)) grid in
  let! grid :=
    for_each (range grid_h) (fun cy =>
      for_each (range border_cols) (fun bx grid =>
        let! grid := mark_if ((0 <=? bx) && (bx <? grid_w)) bx cy grid in
        mark_if ((0 <=? grid_w - 1 - bx) && (grid_w - 1 - bx <? grid_w))
          (grid_w - 1 - bx) cy grid)) grid in
  for_each tiles (fun tile grid =>
    let cx := Tile.grid_x tile in
    let cy := Tile.grid_y tile in
    mark_if ((0 <=? cx) && (cx <? grid_w) && (0 <=? cy) && (cy <? grid_h)
             && Tile.collides tile) cx cy grid) grid.

Definition player1_controls : Tank.Controls :=
  {| Tank.k_up := K_w; Tank.k_down := K_s; Tank.k_left := K_a;
     Tank.k_right := K_d; Tank.k_shoot := K_SPACE |}.

Definition player2_controls : Tank.Controls :=
  {| Tank.k_up := K_UP; Tank.k_down := K_DOWN; Tank.k_left := K_LEFT;
     Tank.k_right := K_RIGHT; Tank.k_shoot := K_RETURN |}.

(** [generated] is the tile list that [MapGenerator.generate_map]
    returns and [ticks] the reading of [pygame.time.get_ticks]. *)
Definition start_game (md : option Mode) (generated : list Tile.t) (ticks : Z)
    (g : t) : res t :=
  let! grid := create_grid_map (screen g) generated in
  let gw := grid_w (screen g) in
  let gh := grid_h (screen g) in
  let spawn1 := (inject_Z (2 * TILE_WIDTH + TILE_WIDTH / 2),
                 inject_Z (2 * TILE_HEIGHT + TILE_HEIGHT / 2)) in
  let spawn2 := (inject_Z ((gw - 3) * TILE_WIDTH + TILE_WIDTH / 2),
                 inject_Z ((gh - 3) * TILE_HEIGHT + TILE_HEIGHT / 2)) in
  let is_pvp := match md with Some pvp => true | _ => false end in
  let t1 := Tank.init spawn1.1 spawn1.2 Tank.RED (Some player1_controls)
              false (sfx_move g) spawn1 in
  let t2 := Tank.init spawn2.1 spawn2.2 Tank.BLUE
              (if is_pvp then Some player2_controls else None)
              (negb is_pvp) (sfx_move g) spawn2 in
  Ok {| screen := screen g; running := running g; state := playing; mode := md;
        tiles := generated; tanks := [t1; t2]; bullets := [];
        grid_map := Some grid; sfx_move := sfx_move g;
        match_start := Some ticks;
        match_end := Some (ticks + MATCH_SECONDS * 1000) |}.

(** *** Collisions *)

Definition add_kill (s : Tank.t) : Tank.t :=
  Tank.set_score s (Tank.kills s + 1) (Tank.suicides s) (Tank.deaths s).
Definition add_death (s : Tank.t) : Tank.t :=
  Tank.set_score s (Tank.kills s) (Tank.suicides s) (Tank.deaths s + 1).
Definition add_suicide (s : Tank.t) : Tank.t :=
  Tank.set_score s (Tank.kills s) (Tank.suicides s + 1) (Tank.deaths s).

Definition deactivate (b : Bullet.t) : Bullet.t :=
  {| Bullet.x := Bullet.x b; Bullet.y := Bullet.y b; Bullet.angle := Bullet.angle b;
     Bullet.owner := Bullet.owner b; Bullet.bounces := Bullet.bounces b;
     Bullet.active := false |}.

(** The branch of [check_collisions] taken on a hit of the tank at
    position [i] by the bullet [r]. *)
Definition hit (i r : nat) (bullet : Bullet.t) (w : list Tank.t * Heap)
  : list Tank.t * Heap :=
  let '(ts, h) := w in
  let h := <[r := deactivate bullet]> h in
  let ts :=
    if Nat.eqb (Bullet.owner bullet) i then
      alter add_death i (alter add_suicide i ts)
    else
      alter add_death i (alter add_kill (Bullet.owner bullet) ts) in
  (alter Tank.respawn i ts, h).

(** The body of the loop over the copy of [other_tank.bullets]. *)
Definition check_bullet (i r : nat) (w : list Tank.t * Heap) : list Tank.t * Heap :=
  match w.2 !! r, w.1 !! i with
  | Some bullet, Some tank =>
      let bullet_rect := Bullet.get_rect (Bullet.x bullet) (Bullet.y bullet) in
      if Bullet.active bullet && colliderect (Tank.get_rect tank) bullet_rect
      then hit i r bullet w
      else w
  | _, _ => w
  end.

(** The body of the loop over [other_tank]. *)
Definition check_pair (i j : nat) (w : list Tank.t * Heap) : list Tank.t * Heap :=
  match w.1 !! j with
  | Some other_tank =>
      if negb (Tank.alive other_tank) then w
      else foldl (fun w r => check_bullet i r w) w (Tank.bullets other_tank)
  | None => w
  end.

(** The body of the loop over [tank]. *)
Definition check_tank (i : nat) (w : list Tank.t * Heap) : list Tank.t * Heap :=
  match w.1 !! i with
  | Some tank =>
      if negb (Tank.alive tank) then w
      else foldl (fun w j => check_pair i j w) w (seq 0 (length w.1))
  | None => w
  end.

Definition check_collisions (w : list Tank.t * Heap) : list Tank.t * Heap :=
  foldl (fun w i => check_tank i w) w (seq 0 (length w.1)).

(** *** The top scorer *)

Record Selection : Type := {
  top : option nat;
  top_kills : Z;
  tie : bool
}.

(** The body of [for t in self.tanks] in [draw_game_over]; [i] is the
    position of [t] in the list. *)
Definition select (acc : Selection) (i : nat) (s : Tank.t) : Selection :=
  if Tank.kills s >? top_kills acc then
    {| top := Some i; top_kills := Tank.kills s; tie := false |}
  else if Tank.kills s =? top_kills acc then
    {| top := top acc; top_kills := top_kills acc; tie := true |}
  else acc.

Fixpoint select_from (i : nat) (ts : list Tank.t) (acc : Selection) : Selection :=
  match ts with
  | [] => acc
  | s :: rest => select_from (S i) rest (select acc i s)
  end.

Definition top_scorer (ts : list Tank.t) : Selection :=
  select_from 0 ts {| top := None; top_kills := -1; tie := false |}.

(** The tank that [draw_game_over] announces as the winner, [None] for
    "No clear winner". *)
Definition winner (ts : list Tank.t) : option nat :=
  let sel := top_scorer ts in
  match top sel with
  | None => None
  | Some i => if (top_kills sel <=? 0) || tie sel then None else Some i
  end.

(** *** The main loop *)

(** The events that [run] looks at. [on_button] is the menu button,
    if any, whose rectangle contains the position of the click. *)
Inductive Event : Type :=
| QUIT
| KEYDOWN (key : Key)
| MOUSEBUTTONDOWN (button : Z) (on_button : option Mode)
| VIDEORESIZE (w h : Z)
| OTHER.

(** An event together with what a call of [start_game] made by its
    handler reads from the map generator and from the clock. *)
Record Occurrence : Type := {
  event : Event;
  generated : list Tile.t;
  ticks : Z
}.

(** What one iteration of the loop reads from outside: the events, the
    pressed keys, the random draws of each tank and the clock at the
    end of the playing block. *)
Record Inputs : Type := {
  events : list Occurrence;
  keys : Key -> bool;
  draws : nat -> Draws;
  now : Z
}.

Definition handle (o : Occurrence) (g : t) : res t :=
  match event o with
  | QUIT => Ok (set_running g false)
  | KEYDOWN key =>
      match state g with
      | menu =>
          if decide (key = K_1) then start_game (Some pvp) (generated o) (ticks o) g
          else if decide (key = K_2) then start_game (Some pvc) (generated o) (ticks o) g
          else Ok g
      | game_over =>
          if decide (key = K_r) then start_game (mode g) (generated o) (ticks o) g
          else if decide (key = K_ESCAPE) then Ok (set_state g menu)
          else Ok g
      | playing =>
          if decide (key = K_ESCAPE) then Ok (set_state g menu) else Ok g
      end
  | MOUSEBUTTONDOWN button on_button =>
      match state g with
      | menu =>
          if button =? 1 then
            match on_button with
            | Some md => start_game (Some md) (generated o) (ticks o) g
            | None => Ok g
            end
          else Ok g
      | _ => Ok g
      end
  | VIDEORESIZE w h =>
      let scr := {| SCREEN_WIDTH := Z.max 100 w; SCREEN_HEIGHT := Z.max 100 h |} in
      match state g with
      | playing =>
          match create_grid_map scr (tiles g) with
          | Ok grid => Ok (set_screen g scr (Some grid))
          | Raise _ => Ok (set_screen g scr (grid_map g))
          end
      | _ => Ok (set_screen g scr (grid_map g))
      end
  | OTHER => Ok g
  end.

(** [[t for t in self.tanks if t != tank and t.alive]], first element. *)
Fixpoint find_target (i j : nat) (ts : list Tank.t) : option Tank.t :=
  match ts with
  | [] => None
  | s :: rest =>
      if negb (Nat.eqb j i) && Tank.alive s then Some s
      else find_target i (S j) rest
  end.

Definition update_tank `{Math} (inp : Inputs) (i : nat) (g : t) : res t :=
  match tanks g !! i with
  | None => Ok g
  | Some tank =>
      let! '(tank', h) :=
        (if Tank.is_ai tank then
           Tank.update (screen g) i (keys inp) (tiles g)
             (find_target i 0 (tanks g)) (grid_map g) (draws inp i) tank (bullets g)
         else
           Tank.update (screen g) i (keys inp) (tiles g) None None
             (draws inp i) tank (bullets g)) in
      Ok (set_world g (<[i := tank']> (tanks g)) h)
  end.

Definition shoot_tank `{Math} (inp : Inputs) (i : nat) (g : t) : res t :=
  match tanks g !! i with
  | None => Ok g
  | Some tank =>
      match Tank.controls tank with
      | Some c =>
          if negb (Tank.is_ai tank) && keys inp (Tank.k_shoot c) then
            let '(tank', h) := Tank.shoot i tank (bullets g) in
            Ok (set_world g (<[i := tank']> (tanks g)) h)
          else Ok g
      | None => Ok g
      end
  end.

(** The block under [if self.state == "playing"]. *)
Definition play `{Math} (inp : Inputs) (g : t) : res t :=
  let! g := for_each (seq 0 (length (tanks g))) (update_tank inp) g in
  let! g := for_each (seq 0 (length (tanks g))) (shoot_tank inp) g in
  let '(ts, h) := check_collisions (tanks g, bullets g) in
  let g := set_world g ts h in
  if now inp >=? default 0 (match_end g) then Ok (set_state g game_over)
  else Ok g.

(** One iteration of [while self.running]. *)
Definition step `{Math} (inp : Inputs) (g : t) : res t :=
  let! g := for_each (events inp) handle g in
  match state g with
  | playing => play inp g
  | _ => Ok g
  end.

(** The iterations of the loop for the given inputs, as long as
    [running] holds. *)
Fixpoint run `{Math} (inps : list Inputs) (g : t) : res t :=
  match inps with
  | [] => Ok g
  | inp :: rest =>
      if running g then let! g := step inp g in run rest g
      else Ok g
  end.

(** [Game()] before the first event. *)
Definition init (snd : bool) : t :=
  {| screen := default_screen; running := true; state := menu; mode := None;
     tiles := []; tanks := []; bullets := []; grid_map := None; sfx_move := snd;
     match_start := None; match_end := None |}.
End Game.

(** ** MapGenerator *)

Module MapGenerator.
(** What [generate_map] draws: [num_tiles] is the result of the first
    [randint] and [cell_draw k] the results of the two [randint] calls
    of the loop iteration that begins with [tries = k]. The choices of
    the map type and of the textures do not reach the cells of the
    tiles. *)
Record Draws : Type := {
  num_tiles : Z;
  cell_draw : nat -> Z * Z
}.

(** The loop [while placed < num_tiles and tries < num_tiles * 6];
    [budget] is [num_tiles * 6 - tries]. *)
Fixpoint place (rnd : Draws) (grid_w grid_h : Z) (budget tries : nat) (placed : Z)
    (tiles : list Tile.t) : list Tile.t :=
  match budget with
  | O => tiles
  | S budget' =>
      if placed <? num_tiles rnd then
        let '(gx, gy) := cell_draw rnd tries in
        if bool_decide ((gx, gy) = (2, 2))
           || bool_decide ((gx, gy) = (grid_w - 3, grid_h - 3))
        then place rnd grid_w grid_h budget' (S tries) placed tiles
        else if existsb (fun t => (Tile.grid_x t =? gx) && (Tile.grid_y t =? gy)) tiles
        then place rnd grid_w grid_h budget' (S tries) placed tiles
        else place rnd grid_w grid_h budget' (S tries) (placed + 1)
               (tiles ++ [{| Tile.grid_x := gx; Tile.grid_y := gy;
                             Tile.collidable := true |}])
      else tiles
  end.

(** The tile list that [generate_map] returns. *)
Definition generate_map (scr : Screen) (rnd : Draws) : list Tile.t :=
  let grid_w := Z.max 1 (SCREEN_WIDTH scr / TILE_WIDTH) in
  let grid_h := Z.max 1 (SCREEN_HEIGHT scr / TILE_HEIGHT) in
  place rnd grid_w grid_h (Z.to_nat (num_tiles rnd * 6)) 0 0 [].
End MapGenerator.

(** ** Vocabulary of the statements *)

(** The values of the trigonometric functions at the headings that the
    worked examples use, the multiples of 180 degrees, where the floats
    are exact up to the last bit of the sine of 180 ([1.2e-16], which the
    additions to a coordinate of the examples round away). *)
Definition example_math : Math :=
  {| cos_deg := fun a => if a mod 360 =? 0 then 1%Q else if a mod 360 =? 180 then (-1)%Q else 0%Q;
     sin_deg := fun _ => 0%Q;
     atan2_deg := fun _ _ => 0%Q |}.

(** The position of a bullet after the move that opens a tick. *)
Definition moved_x `{Math} (b : Bullet.t) : Q :=
  (Bullet.x b + cos_deg (Bullet.angle b) * inject_Z Bullet.speed)%Q.
Definition moved_y `{Math} (b : Bullet.t) : Q :=
  (Bullet.y b - sin_deg (Bullet.angle b) * inject_Z Bullet.speed)%Q.

(** The bounding box of a bullet centred at abscissa [bx] passes the left
    or the right edge of the screen; likewise for the ordinate. *)
Definition crosses_x (scr : Screen) (bx : Q) : Prop :=
  (bx - 3 < 0)%Q \/ (inject_Z (SCREEN_WIDTH scr) < bx + 3)%Q.
Definition crosses_y (scr : Screen) (by_ : Q) : Prop :=
  (by_ - 3 < 0)%Q \/ (inject_Z (SCREEN_HEIGHT scr) < by_ + 3)%Q.

(** The footprint of a tank centred at [(px, py)] keeps the margin of
    [move] to the four edges of the screen. *)
Definition inside_margin (scr : Screen) (px py : Q) : Prop :=
  (70 <= px - 15)%Q /\ (px + 15 <= inject_Z (SCREEN_WIDTH scr - 70))%Q /\
  (70 <= py - 15)%Q /\ (py + 15 <= inject_Z (SCREEN_HEIGHT scr - 70))%Q.

(** No collidable tile of the list meets the rectangle. *)
Definition clear_of (r : Rect) (tiles : list Tile.t) : Prop :=
  forall tile, In tile tiles -> Tile.collides tile = true ->
    colliderect r (Tile.rect tile) = false.

(** The bounce budget: an active bullet has bounced at most
    [max_bounces] times and no bullet more than [max_bounces + 1] times. *)
Definition within_budget (b : Bullet.t) : Prop :=
  Bullet.bounces b <= Bullet.max_bounces + 1 /\
  (Bullet.active b = true -> Bullet.bounces b <= Bullet.max_bounces).

(** The tank at position [i] has more kills than every other tank of the
    list, and at least one. *)
Definition strict_top (ts : list Tank.t) (i : nat) : Prop :=
  exists s, ts !! i = Some s /\ 0 < Tank.kills s /\
    forall j s', j <> i -> ts !! j = Some s' -> Tank.kills s' < Tank.kills s.

(** What the selection loop knows after the tanks of [pre]. *)
Definition selected (pre : list Tank.t) (acc : Game.Selection) : Prop :=
  (forall j s, pre !! j = Some s -> Tank.kills s <= Game.top_kills acc) /\
  -1 <= Game.top_kills acc /\
  match Game.top acc with
  | None => Game.top_kills acc = -1
  | Some i =>
      exists s, pre !! i = Some s /\ Tank.kills s = Game.top_kills acc /\
        -1 < Game.top_kills acc /\
        (Game.tie acc = true <->
         exists j s', j <> i /\ pre !! j = Some s' /\ Tank.kills s' = Game.top_kills acc)
  end.

(** A tank with the given number of kills, for the examples. *)
Definition tank_with_kills (c : Tank.Color) (k : Z) : Tank.t :=
  Tank.set_score (Tank.init 0 0 c None false false (0%Q, 0%Q)) k 0 0.

(** [grid[cx][cy]] *)
Definition grid_cell (grid : Grid) (cx cy : Z) : res bool :=
  let! col := py_index grid cx in py_index col cy.

(** The grid has [w] columns of [h] cells. *)
Definition shaped (w h : Z) (grid : Grid) : Prop :=
  Z.of_nat (length grid) = w /\
  forall col, In col grid -> Z.of_nat (length col) = h.

(** The grid has the shape [w] by [h] and its marked cells are those of [S]. *)
Definition represents (w h : Z) (grid : Grid) (S : Z -> Z -> Prop) : Prop :=
  shaped w h grid /\
  forall cx cy, 0 <= cx < w -> 0 <= cy < h ->
    exists b, grid_cell grid cx cy = Ok b /\ (b = true <-> S cx cy).

(** The cell is in one of the [border_cols] outermost columns or of the
    [border_rows] outermost rows of the grid. *)
Definition on_border (scr : Screen) (cx cy : Z) : Prop :=
  cx < Game.border_cols \/ Game.grid_w scr - Game.border_cols <= cx \/
  cy < Game.border_rows \/ Game.grid_h scr - Game.border_rows <= cy.

(** A tile of the list lies at the cell; a collidable one does. *)
Definition tile_at (tiles : list Tile.t) (cx cy : Z) : Prop :=
  exists tile, In tile tiles /\ Tile.grid_x tile = cx /\ Tile.grid_y tile = cy.
Definition collidable_tile_at (tiles : list Tile.t) (cx cy : Z) : Prop :=
  exists tile, In tile tiles /\ Tile.collides tile = true /\
    Tile.grid_x tile = cx /\ Tile.grid_y tile = cy.

(** Two tanks for the examples: the red one stands at [(300, 300)] away
    from its spawn point [(175, 112)] and holds the bullet [1]; the blue
    one stands at [(1000, 500)] and holds the bullet [0]. Both bullets
    lie on the red tank. *)
Definition red_tank : Tank.t :=
  Tank.set_bullets
    (Tank.set_pos (Tank.init 175 112 Tank.RED None false false (175%Q, 112%Q)) 300 300 0)
    [1%nat] 0.
Definition blue_tank : Tank.t :=
  Tank.set_bullets (Tank.init 1000 500 Tank.BLUE None false false (1000%Q, 500%Q))
    [0%nat] 0.
Definition blue_bullet : Bullet.t := Bullet.init 300 300 0 1.
Definition red_bullet : Bullet.t := Bullet.init 310 300 0 0.

(** *** The collision pass *)







(** The bullet is as it was, or as it was but inactive. *)
Definition maybe_off (b b' : Bullet.t) : Prop := b' = b \/ b' = Game.deactivate b.









(** A tank standing at [(px, py)] that is alive or not, for the
    examples of the state selection. *)
Definition tank_at (px py : Q) (living : bool) : Tank.t :=
  {| Tank.x := px; Tank.y := py; Tank.angle := 0; Tank.color := Tank.BLUE;
     Tank.controls := None; Tank.bullets := []; Tank.alive := living;
     Tank.is_ai := true; Tank.move_sound := false; Tank._move_sound_cooldown := 0;
     Tank.kills := 0; Tank.suicides := 0; Tank.deaths := 0;
     Tank.spawn_point := (px, py); Tank.shoot_cooldown := 1 # 2;
     Tank.ai_state := Tank.patrol; Tank.ai_path := []; Tank.patrol_point := None;
     Tank.ai_shoot_timer := 1 # 2 |}.

Definition no_draws : Draws := {| recalc := false; repick := false; pick := (100, 100) |}.

(** The square of the distance between two tanks. *)
Definition dist2 (s target : Tank.t) : Q :=
  (Qsq (Tank.x s - Tank.x target) + Qsq (Tank.y s - Tank.y target))%Q.

(** The handler of the event starts a game in some state of the game. *)
Definition starts_game (e : Game.Event) : bool :=
  match e with
  | Game.KEYDOWN K_r | Game.KEYDOWN K_1 | Game.KEYDOWN K_2 => true
  | Game.MOUSEBUTTONDOWN _ (Some _) => true
  | _ => false
  end.

(** An iteration without key presses, at clock reading [t]. *)
Definition idle (t : Z) : Game.Inputs :=
  {| Game.events := []; Game.keys := fun _ => false;
     Game.draws := fun _ => no_draws; Game.now := t |}.

(** A player-versus-player match on an empty map started at clock
    reading 1000. *)
Definition example_match : res Game.t :=
  Game.start_game (Some Game.pvp) [] 1000 (Game.init false).

(** *** The invariant of the search *)

(** The cells of a grid of [w] columns of [h] cells. *)
Definition cells (w h : Z) : list (Z * Z) :=
  flat_map (fun cx => map (fun cy => (cx, cy)) (range h)) (range w).

(** The cell is inside the grid and not marked. *)
Definition free_cell (w h : Z) (g : Grid) (c : Z * Z) : Prop :=
  0 <= c.1 < w /\ 0 <= c.2 < h /\ grid_cell g c.1 c.2 = Ok false.

(** The number of cells of [l] that have a cost. *)
Fixpoint found (cost : gmap (Z * Z) Z) (l : list (Z * Z)) : Z :=
  match l with
  | [] => 0
  | c :: l' => (match cost !! c with Some _ => 1 | None => 0 end) + found cost l'
  end.

(** The cost of a cell, [big] when it has none, and the sum over [l]. *)
Definition pot (big : Z) (cost : gmap (Z * Z) Z) (c : Z * Z) : Z :=
  match cost !! c with Some v => v | None => big end.

Fixpoint potsum (big : Z) (cost : gmap (Z * Z) Z) (l : list (Z * Z)) : Z :=
  match l with
  | [] => 0
  | c :: l' => pot big cost c + potsum big cost l'
  end.

(** The measure that every iteration of the search loop decreases. *)
Definition potential (w h : Z) (s : Search) : Z :=
  Z.of_nat (length (frontier s))
  + 2 * potsum (14 * (w * h) + 1) (cost_so_far s) (cells w h).

Record search_inv (w h : Z) (g : Grid) (start : Z * Z) (s : Search) : Prop := {
  inv_frontier : forall p c, In (p, c) (frontier s) -> is_Some (cost_so_far s !! c);
  inv_cost : forall c v, cost_so_far s !! c = Some v ->
               0 <= v <= 14 * found (cost_so_far s) (cells w h);
  inv_start : cost_so_far s !! start = Some 0 /\ came_from s !! start = Some None;
  inv_parent : forall c, c <> start ->
    (came_from s !! c = None /\ cost_so_far s !! c = None) \/
    (exists p vp vc, came_from s !! c = Some (Some p) /\
       cost_so_far s !! p = Some vp /\ cost_so_far s !! c = Some vc /\ vp < vc /\
       free_cell w h g c)
}.

(** The search loop has stopped in [s]: the frontier is empty, the cap
    on the size of [came_from] is reached, or the goal was taken from
    the frontier. *)
Definition stopped (goal : Z * Z) (s : Search) : Prop :=
  frontier s = [] \/ (200 <= size (came_from s))%nat \/ is_Some (came_from s !! goal).

(** The cells in which two tanks stand. *)
Definition cell_of (s : Tank.t) : Z * Z :=
  (py_floordiv (Tank.x s) TILE_WIDTH, py_floordiv (Tank.y s) TILE_HEIGHT).

(** A grid of four columns of five cells with a marked border and the
    marked cell [(2, 2)]. *)
Definition small_grid : Grid :=
  [[true; true; true; true; true];
   [true; false; false; false; true];
   [true; false; true; false; true];
   [true; true; true; true; true]].

(** No event of the iterations starts a game; the iterations handle no
    event at all. *)
Definition no_restart (inps : list Game.Inputs) : Prop :=
  forall inp o, In inp inps -> In o (Game.events inp) -> starts_game (Game.event o) = false.
Definition eventless (inps : list Game.Inputs) : Prop :=
  forall inp, In inp inps -> Game.events inp = [].

(** *** Further vocabulary *)

(** The cell of a tile. *)
Definition tile_cell (tile : Tile.t) : Z * Z := (Tile.grid_x tile, Tile.grid_y tile).

(** The bounding box of a bullet after the move that opens a tick. *)
Definition moved_rect `{Math} (b : Bullet.t) : Rect :=
  Bullet.get_rect (moved_x b) (moved_y b).

(** The fields of a tank that say who it is and what it has scored. *)
Definition same_role (s s' : Tank.t) : Prop :=
  Tank.alive s' = Tank.alive s /\ Tank.is_ai s' = Tank.is_ai s /\
  Tank.controls s' = Tank.controls s /\ Tank.spawn_point s' = Tank.spawn_point s /\
  Tank.color s' = Tank.color s /\ Tank.kills s' = Tank.kills s /\
  Tank.suicides s' = Tank.suicides s /\ Tank.deaths s' = Tank.deaths s.

(** What a step of a tank may do to its bullet list and to the store:
    nothing, or one new bullet of the tank [me] at the end of both. *)
Definition at_most_one_shot (me : nat) (bs : list nat) (h : Heap)
    (bs' : list nat) (h' : Heap) : Prop :=
  (bs' = bs /\ h' = h) \/
  (exists b, bs' = bs ++ [length h] /\ h' = h ++ [b] /\
     Bullet.owner b = me /\ Bullet.active b = true /\ (length bs < 3)%nat).

(** A tank steered by the keys of the first player that holds the
    bullet [0], and a store with that bullet. *)
Definition keyed_tank : Tank.t :=
  Tank.set_bullets
    (Tank.init 300 300 Tank.RED (Some Game.player1_controls) false false (300%Q, 300%Q))
    [0%nat] 0.
Definition one_bullet : Heap := [Bullet.init 500 500 0 0].
Definition no_keys : Key -> bool := fun _ => false.

(** What hits can make of a tank: counters do not go down, the tank is
    where it was or on its spawn point, its bullet list is as it was or
    empty, a living tank lives, and everything else is as before. *)
Definition after_hits (s s' : Tank.t) : Prop :=
  Tank.kills s <= Tank.kills s' /\ Tank.suicides s <= Tank.suicides s' /\
  Tank.deaths s <= Tank.deaths s' /\
  Tank.spawn_point s' = Tank.spawn_point s /\ Tank.angle s' = Tank.angle s /\
  Tank.is_ai s' = Tank.is_ai s /\ Tank.controls s' = Tank.controls s /\
  Tank.color s' = Tank.color s /\ Tank.shoot_cooldown s' = Tank.shoot_cooldown s /\
  Tank.ai_state s' = Tank.ai_state s /\ Tank.ai_path s' = Tank.ai_path s /\
  Tank.patrol_point s' = Tank.patrol_point s /\
  (Tank.alive s = true -> Tank.alive s' = true) /\
  ((Tank.x s' = Tank.x s /\ Tank.y s' = Tank.y s) \/
   (Tank.x s' = (Tank.spawn_point s).1 /\ Tank.y s' = (Tank.spawn_point s).2)) /\
  (Tank.bullets s' = Tank.bullets s \/ Tank.bullets s' = []).

(** Deaths that are booked neither as a kill nor as a suicide. *)
Definition balance (s : Tank.t) : Z := Tank.deaths s - Tank.kills s - Tank.suicides s.
Definition ledger (ts : list Tank.t) : Z := fold_right (fun s acc => balance s + acc) 0 ts.

(** The owner of every bullet of the store is a tank of the list. *)
Definition owners_among (n : nat) (h : Heap) : Prop :=
  forall r b, h !! r = Some b -> (Bullet.owner b < n)%nat.

(** The two spawn cells of a screen. *)
Definition spawn_cells (scr : Screen) : list (Z * Z) :=
  [(2, 2); (Game.grid_w scr - 3, Game.grid_h scr - 3)].

(** Some draws of the map generator, for the examples. *)
Definition example_map_draws : MapGenerator.Draws :=
  {| MapGenerator.num_tiles := 3;
     MapGenerator.cell_draw := fun k => (2 + Z.of_nat k mod 3, 2 + Z.of_nat k / 3) |}.

(** *** The state of a session *)

(** Both sides of the screen leave room for a patrol point. *)
Definition roomy (scr : Screen) : Prop :=
  200 <= SCREEN_WIDTH scr /\ 200 <= SCREEN_HEIGHT scr.

(** The tank lives, has its keys unless the computer steers it, and
    holds at most three bullets. *)
Definition fit (s : Tank.t) : Prop :=
  Tank.alive s = true /\ (Tank.is_ai s = false -> is_Some (Tank.controls s)) /\
  (length (Tank.bullets s) <= 3)%nat.

(** What the loop keeps of the game: the tanks are fit, every bullet
    belongs to one of them, every death is booked as a kill or as a
    suicide, and a match has two tanks or more and a grid of the size
    of the screen. *)
Definition sound (g : Game.t) : Prop :=
  Forall fit (Game.tanks g) /\
  owners_among (length (Game.tanks g)) (Game.bullets g) /\
  ledger (Game.tanks g) = 0 /\
  (Game.state g = Game.playing ->
   (2 <= length (Game.tanks g))%nat /\
   exists grid, Game.grid_map g = Some grid /\
     shaped (Game.grid_w (Game.screen g)) (Game.grid_h (Game.screen g)) grid).

(** No resize event of the iteration makes a side of the window shorter
    than 200. *)
Definition calm (inp : Game.Inputs) : Prop :=
  forall o w h, In o (Game.events inp) -> Game.event o = Game.VIDEORESIZE w h ->
    200 <= w /\ 200 <= h.

(** A session for the examples: key 2 starts a match against the
    computer on a generated map, every key is held down in the first
    iteration, and a second iteration follows. *)
Definition example_session : list Game.Inputs :=
  [ {| Game.events :=
         [ {| Game.event := Game.KEYDOWN K_2;
              Game.generated := MapGenerator.generate_map default_screen example_map_draws;
              Game.ticks := 0 |} ];
       Game.keys := fun _ => true;
       Game.draws := fun _ => no_draws;
       Game.now := 16 |};
    idle 33 ].

(** An iteration whose only event closes the window. *)
Definition closing : Game.Inputs :=
  {| Game.events := [ {| Game.event := Game.QUIT; Game.generated := []; Game.ticks := 0 |} ];
     Game.keys := fun _ => false;
     Game.draws := fun _ => no_draws;
     Game.now := 0 |}.

(** The screen after a resize event. *)
Definition resized (w h : Z) : Screen :=
  {| SCREEN_WIDTH := Z.max 100 w; SCREEN_HEIGHT := Z.max 100 h |}.

(** *** Paths *)

(** The cell [c] is one of the eight neighbours of the cell [p]. *)
Definition adjacent (p c : Z * Z) : Prop :=
  c <> p /\ Z.abs (c.1 - p.1) <= 1 /\ Z.abs (c.2 - p.2) <= 1.

(** Every cell of the list is free and a neighbour of the one before
    it, the first one a neighbour of [prev]. *)
Fixpoint walk (free : Z * Z -> Prop) (prev : Z * Z) (cs : list (Z * Z)) : Prop :=
  match cs with
  | [] => True
  | c :: rest => adjacent prev c /\ free c /\ walk free c rest
  end.

(** Every cell that has a parent is a neighbour of it. *)
Definition parents_adjacent (cf : gmap (Z * Z) (option (Z * Z))) : Prop :=
  forall c p, cf !! c = Some (Some p) -> adjacent p c.

(** * Properties *)

(** ** Comparisons *)

Lemma Qltb_lt (a b : Q) : Qltb a b = true <-> (a < b)%Q.
Proof.
  unfold Qltb. rewrite negb_true_iff, <- not_true_iff_false, Qle_bool_iff.
  split; [apply Qnot_le_lt | apply Qlt_not_le].
Qed.

Lemma Qltb_ge (a b : Q) : Qltb a b = false <-> (b <= a)%Q.
Proof.
  unfold Qltb. rewrite negb_false_iff. apply Qle_bool_iff.
Qed.

(** ** Projectiles *)

Lemma hits_x_spec (scr : Screen) (bx : Q) :
  Bullet.hits_x scr bx = true <-> crosses_x scr bx.
Proof.
  unfold Bullet.hits_x, crosses_x. rewrite orb_true_iff, !Qltb_lt.
  unfold Bullet.half, Bullet.size, BULLET_SIZE, BORDER_THICKNESS.
  rewrite Z.sub_0_r.
  assert (E : (inject_Z 6 / 2 == 3)%Q) by reflexivity.
  rewrite E. reflexivity.
Qed.

Lemma hits_y_spec (scr : Screen) (by_ : Q) :
  Bullet.hits_y scr by_ = true <-> crosses_y scr by_.
Proof.
  unfold Bullet.hits_y, crosses_y. rewrite orb_true_iff, !Qltb_lt.
  unfold Bullet.half, Bullet.size, BULLET_SIZE, BORDER_THICKNESS.
  rewrite Z.sub_0_r.
  assert (E : (inject_Z 6 / 2 == 3)%Q) by reflexivity.
  rewrite E. reflexivity.
Qed.

Lemma inactive_fixed `{Math} (scr : Screen) (tiles : list Tile.t) (b : Bullet.t) :
  Bullet.active b = false -> Bullet.update scr tiles b = b.
Proof.
  intros Hb. unfold Bullet.update. rewrite Hb. reflexivity.
Qed.

(** C10. The per-tick update of a projectile whose [active] flag is
    [False] returns at once: position, angle, bounce count and flag are
    unchanged, and so is the owner. *)
Theorem update_inactive_noop `{Math} (scr : Screen) (tiles : list Tile.t) (b : Bullet.t) :
  Bullet.active b = false ->
  let b' := Bullet.update scr tiles b in
  Bullet.x b' = Bullet.x b /\ Bullet.y b' = Bullet.y b /\
  Bullet.angle b' = Bullet.angle b /\ Bullet.bounces b' = Bullet.bounces b /\
  Bullet.active b' = false /\ b' = b.
Proof.
  intros Hb b'. subst b'. rewrite (inactive_fixed scr tiles b Hb). auto 10.
Qed.

Lemma update_inactive_noop_witness :
  let b := {| Bullet.x := 100; Bullet.y := 200; Bullet.angle := 30; Bullet.owner := 0%nat;
              Bullet.bounces := 5; Bullet.active := false |} in
  Bullet.active b = false /\
  Bullet.update (H := example_math) default_screen [] b = b.
Proof.
  split; [reflexivity |].
  apply (update_inactive_noop (H := example_math) default_screen []
           {| Bullet.x := 100; Bullet.y := 200; Bullet.angle := 30; Bullet.owner := 0%nat;
              Bullet.bounces := 5; Bullet.active := false |} eq_refl).
Defined.

(** C7. In a tick in which the moved bounding box passes a screen edge
    and the incremented bounce count does not exceed the maximum, the
    bullet stays at the moved position and its heading is reflected:
    [180 - angle] when the left or right edge is passed (also when an
    upper or lower edge is passed in the same tick), [- angle] when only
    the upper or lower edge is passed. *)
Theorem border_reflection `{Math} (scr : Screen) (tiles : list Tile.t) (b : Bullet.t) :
  Bullet.active b = true ->
  Bullet.bounces b + 1 <= Bullet.max_bounces ->
  crosses_x scr (moved_x b) \/ crosses_y scr (moved_y b) ->
  let b' := Bullet.update scr tiles b in
  (crosses_x scr (moved_x b) -> Bullet.angle b' = 180 - Bullet.angle b) /\
  (~ crosses_x scr (moved_x b) -> Bullet.angle b' = - Bullet.angle b) /\
  Bullet.x b' = moved_x b /\ Bullet.y b' = moved_y b /\
  Bullet.bounces b' = Bullet.bounces b + 1 /\ Bullet.active b' = true.
Proof.
  intros Hact Hmax Hcross b'. subst b'. unfold Bullet.update.
  rewrite Hact. cbn [negb].
  fold (moved_x b). fold (moved_y b).
  assert (Hor : Bullet.hits_x scr (moved_x b) || Bullet.hits_y scr (moved_y b) = true).
  { apply orb_true_iff. rewrite hits_x_spec, hits_y_spec. exact Hcross. }
  rewrite Hor.
  assert (Hgt : (Bullet.bounces b + 1 >? Bullet.max_bounces) = false).
  { rewrite Z.gtb_ltb. apply Z.ltb_ge. exact Hmax. }
  rewrite Hgt. cbn [Bullet.angle Bullet.x Bullet.y Bullet.bounces Bullet.active].
  repeat split.
  - intros Hx. apply hits_x_spec in Hx. rewrite Hx. reflexivity.
  - intros Hx. destruct (Bullet.hits_x scr (moved_x b)) eqn:E; [|reflexivity].
    apply hits_x_spec in E. contradiction.
Qed.

Lemma border_reflection_witness :
  let b := Bullet.init 1915 1018 0 0 in
  let b' := Bullet.update (H := example_math) default_screen [] b in
  crosses_y default_screen (moved_y (H := example_math) b) /\
  Bullet.angle b' = 180 /\ Bullet.bounces b' = 1 /\ Bullet.active b' = true.
Proof.
  intros b b'.
  assert (Ha : Bullet.active b = true) by reflexivity.
  assert (Hm : Bullet.bounces b + 1 <= Bullet.max_bounces) by (vm_compute; discriminate).
  assert (Hc : crosses_x default_screen (moved_x (H := example_math) b)
               \/ crosses_y default_screen (moved_y (H := example_math) b)).
  { left. right. vm_compute. reflexivity. }
  destruct (border_reflection (H := example_math) default_screen [] b Ha Hm Hc)
    as (H1 & _ & _ & _ & H5 & H6).
  split; [right; vm_compute; reflexivity |].
  split; [| split; assumption].
  apply H1. right. vm_compute. reflexivity.
Defined.

Lemma update_budget `{Math} (scr : Screen) (tiles : list Tile.t) (b : Bullet.t) :
  within_budget b ->
  within_budget (Bullet.update scr tiles b) /\
  Bullet.bounces b <= Bullet.bounces (Bullet.update scr tiles b).
Proof.
  intros [Hle Hact]. unfold within_budget, Bullet.update.
  destruct (Bullet.active b) eqn:Ea; cbn [negb].
  2:{ rewrite Ea. split; [split; [assumption | discriminate] | lia]. }
  specialize (Hact eq_refl).
  destruct (Bullet.hits_x scr _ || Bullet.hits_y scr _).
  - destruct (Bullet.bounces b + 1 >? Bullet.max_bounces) eqn:Eg; cbn;
      rewrite Z.gtb_ltb in Eg;
      [apply Z.ltb_lt in Eg | apply Z.ltb_ge in Eg];
      (split; [split; [lia | intros; try discriminate; lia] | lia]).
  - destruct (first_collision _ tiles).
    + destruct (Bullet.bounces b + 1 >? Bullet.max_bounces) eqn:Eg; cbn;
        rewrite Z.gtb_ltb in Eg;
        [apply Z.ltb_lt in Eg | apply Z.ltb_ge in Eg];
        (split; [split; [lia | intros; try discriminate; lia] | lia]).
    + cbn. split; [split; [lia | intros; lia] | lia].
Qed.

Lemma run_budget `{Math} (scr : Screen) (ticks : list (list Tile.t)) (b : Bullet.t) :
  within_budget b ->
  within_budget (Bullet.run scr ticks b) /\
  Bullet.bounces b <= Bullet.bounces (Bullet.run scr ticks b).
Proof.
  revert b. induction ticks as [|tiles rest IH]; intros b Hb; cbn.
  - split; [assumption | lia].
  - destruct (update_budget scr tiles b Hb) as [Hb1 Hle1].
    destruct (IH _ Hb1) as [Hb2 Hle2]. split; [assumption | lia].
Qed.

Lemma run_inactive `{Math} (scr : Screen) (ticks : list (list Tile.t)) (b : Bullet.t) :
  Bullet.active b = false -> Bullet.run scr ticks b = b.
Proof.
  revert b. induction ticks as [|tiles rest IH]; intros b Hb; cbn; [reflexivity|].
  rewrite (inactive_fixed scr tiles b Hb). apply IH, Hb.
Qed.

Lemma init_budget (x0 y0 : Q) (a : Z) (o : nat) : within_budget (Bullet.init x0 y0 a o).
Proof. split; cbn; unfold Bullet.max_bounces; lia. Qed.

(** C2, as the code has it. For a bullet as [shoot] creates it and any
    two runs of ticks one after the other: the bounce count does not
    decrease; it is at most the maximum while the bullet is active and at
    most the maximum plus one at all; and once it is above the maximum
    the bullet is inactive after every further tick, with the same
    count. *)
Theorem bounce_budget `{Math} (scr : Screen) (x0 y0 : Q) (a : Z) (o : nat)
    (ticks more : list (list Tile.t)) :
  let b := Bullet.run scr ticks (Bullet.init x0 y0 a o) in
  let b' := Bullet.run scr more b in
  Bullet.bounces b <= Bullet.bounces b' /\
  Bullet.bounces b <= Bullet.max_bounces + 1 /\
  (Bullet.active b = true -> Bullet.bounces b <= Bullet.max_bounces) /\
  (Bullet.max_bounces < Bullet.bounces b -> Bullet.active b' = false /\ b' = b).
Proof.
  intros b b'.
  destruct (run_budget scr ticks _ (init_budget x0 y0 a o)) as [[Hle Hact] _].
  destruct (run_budget scr more _ (conj Hle Hact)) as [_ Hmono].
  split; [exact Hmono |]. split; [exact Hle |]. split; [exact Hact |].
  intros Hgt.
  assert (Hoff : Bullet.active b = false).
  { destruct (Bullet.active b) eqn:E; [| reflexivity].
    specialize (Hact E). subst b. lia. }
  unfold b'. rewrite (run_inactive scr more b Hoff). split; [exact Hoff | reflexivity].
Qed.

(** C2, counterexample. A bullet shot to the right at [(1915, 500)] on
    the default screen with no obstacle bounces between the right and
    the left edge; the tick of its fifth edge contact, the 773rd, leaves
    a bounce count of 5, above the maximum of 4. *)
Lemma bounce_count_exceeds_maximum :
  let b := Bullet.run (H := example_math) default_screen (replicate 773 [])
             (Bullet.init 1915 500 0 0) in
  Bullet.bounces b = 5 /\ Bullet.max_bounces = 4 /\ Bullet.active b = false.
Proof. vm_compute. repeat split. Qed.

(** ** Tank movement *)

Lemma first_collision_none (r : Rect) (tiles : list Tile.t) :
  first_collision r tiles = None <-> clear_of r tiles.
Proof.
  unfold clear_of. induction tiles as [|tile rest IH]; cbn.
  - split; [intros _ tile [] | reflexivity].
  - destruct (Tile.collides tile) eqn:Ec; cbn.
    + destruct (colliderect r (Tile.rect tile)) eqn:Er.
      * split; [discriminate |].
        intros Hall. specialize (Hall tile (or_introl eq_refl) Ec). congruence.
      * rewrite IH. split.
        -- intros Hall t [<- | Hin] Ht; [assumption | apply Hall; assumption].
        -- intros Hall t Hin Ht. apply Hall; [right|]; assumption.
    + rewrite IH. split.
      * intros Hall t [<- | Hin] Ht; [congruence | apply Hall; assumption].
      * intros Hall t Hin Ht. apply Hall; [right|]; assumption.
Qed.

Lemma first_collision_some (r : Rect) (tiles : list Tile.t) (tile : Tile.t) :
  first_collision r tiles = Some tile ->
  In tile tiles /\ Tile.collides tile = true /\ colliderect r (Tile.rect tile) = true.
Proof.
  induction tiles as [|t rest IH]; cbn; [discriminate|].
  destruct (Tile.collides t) eqn:Ec; cbn.
  - destruct (colliderect r (Tile.rect t)) eqn:Er.
    + intros [= <-]. auto.
    + intros Hf. destruct (IH Hf) as (? & ? & ?). auto.
  - intros Hf. destruct (IH Hf) as (? & ? & ?). auto.
Qed.

Lemma hits_border_spec (scr : Screen) (px py : Q) :
  Tank.hits_border scr px py = false <-> inside_margin scr px py.
Proof.
  unfold Tank.hits_border, inside_margin.
  rewrite !orb_false_iff, !Qltb_ge.
  unfold Tank.half, Tank.size, TANK_SIZE, Tank.border_thickness,
    BORDER_THICKNESS, TILE_WIDTH, TILE_HEIGHT.
  change (Z.max 0 (Z.max 70 45)) with 70.
  assert (E : (inject_Z 30 / 2 == 15)%Q) by reflexivity.
  rewrite E. change (inject_Z 70) with 70%Q. tauto.
Qed.

Lemma can_move_spec (scr : Screen) (tiles : list Tile.t) (px py : Q) :
  Tank.can_move scr tiles px py = true <->
  inside_margin scr px py /\ clear_of (Tank.rect_at px py) tiles.
Proof.
  unfold Tank.can_move. rewrite <- hits_border_spec, <- first_collision_none.
  destruct (Tank.hits_border scr px py); [split; [discriminate | intros [? _]; discriminate]|].
  destruct (first_collision _ tiles); split; try discriminate; auto.
  intros [_ ?]; discriminate.
Qed.

(** C5. A move request [(dx, dy)] is either applied in full (the tank
    stands at the candidate position and, but for the cooldown of the
    movement sound, nothing else changes) or leaves the tank exactly as
    it was. It is applied exactly when the candidate footprint keeps the
    border margin to all four edges and meets no collidable tile, so
    after an applied move the footprint of the tank does so. *)
Theorem move_atomic (scr : Screen) (dx dy : Q) (tiles : list Tile.t) (s : Tank.t) :
  let s' := Tank.move scr dx dy tiles s in
  let free :=
    inside_margin scr (Tank.x s + dx) (Tank.y s + dy) /\
    clear_of (Tank.rect_at (Tank.x s + dx) (Tank.y s + dy)) tiles in
  (free ->
     (exists cd, s' = Tank.set_pos s (Tank.x s + dx) (Tank.y s + dy) cd) /\
     Tank.x s' = (Tank.x s + dx)%Q /\ Tank.y s' = (Tank.y s + dy)%Q /\
     inside_margin scr (Tank.x s') (Tank.y s') /\
     clear_of (Tank.get_rect s') tiles) /\
  (~ free -> s' = s).
Proof.
  intros s' free. subst s'. unfold Tank.move.
  destruct (Tank.can_move scr tiles (Tank.x s + dx) (Tank.y s + dy)) eqn:Ec.
  - apply can_move_spec in Ec. split; [| intros Hn; contradiction].
    intros [Hm Hc]. split; [eexists; reflexivity |].
    unfold Tank.get_rect. cbn. auto.
  - split; [| reflexivity].
    intros Hf. apply can_move_spec in Hf. congruence.
Qed.

Lemma move_atomic_witness :
  let s := Tank.init 175 112 Tank.RED None false false (175%Q, 112%Q) in
  let s' := Tank.move default_screen 5 0 [] s in
  Tank.x s' = (175 + 5)%Q /\ Tank.y s' = (112 + 0)%Q /\
  clear_of (Tank.get_rect s') [].
Proof.
  intros s s'.
  destruct (move_atomic default_screen 5 0 [] s) as [Happ _].
  destruct Happ as (_ & Hx & Hy & _ & Hc).
  - split; [| intros tile []].
    unfold inside_margin. cbn. repeat split; discriminate.
  - auto.
Defined.

(** ** The winner *)

Lemma select_selected (pre : list Tank.t) (acc : Game.Selection) (s : Tank.t) :
  selected pre acc -> selected (pre ++ [s]) (Game.select acc (length pre) s).
Proof.
  intros (Hmax & Hlow & Htop). unfold Game.select.
  assert (Hnew : (pre ++ [s]) !! length pre = Some s).
  { rewrite lookup_app_r by lia. rewrite Nat.sub_diag. reflexivity. }
  assert (Hold : forall j s', (pre ++ [s]) !! j = Some s' ->
            pre !! j = Some s' \/ (j = length pre /\ s' = s)).
  { intros j s' Hj. apply lookup_snoc_Some in Hj.
    destruct Hj as [[_ Hj] | [-> ->]]; auto. }
  destruct (Tank.kills s >? Game.top_kills acc) eqn:Egt.
  - rewrite Z.gtb_ltb in Egt. apply Z.ltb_lt in Egt.
    split; [| split]; cbn.
    + intros j s' Hj. destruct (Hold j s' Hj) as [Hj' | [_ ->]]; [| lia].
      specialize (Hmax j s' Hj'). lia.
    + lia.
    + exists s. split; [exact Hnew |]. split; [reflexivity |]. split; [lia |].
      split; [discriminate |].
      intros (j & s' & Hne & Hj & Hk).
      destruct (Hold j s' Hj) as [Hj' | [-> _]]; [| contradiction].
      specialize (Hmax j s' Hj'). lia.
  - rewrite Z.gtb_ltb in Egt. apply Z.ltb_ge in Egt.
    destruct (Tank.kills s =? Game.top_kills acc) eqn:Eeq.
    + apply Z.eqb_eq in Eeq. split; [| split]; cbn.
      * intros j s' Hj. destruct (Hold j s' Hj) as [Hj' | [_ ->]]; [| lia].
        exact (Hmax j s' Hj').
      * exact Hlow.
      * destruct (Game.top acc) as [i|]; [| exact Htop].
        destruct Htop as (si & Hi & Hki & Hpos & Htie).
        exists si. split; [apply lookup_app_l_Some; exact Hi |].
        split; [exact Hki |]. split; [exact Hpos |].
        split; [| reflexivity].
        intros _. exists (length pre), s.
        split; [| split; [exact Hnew | exact Eeq]].
        apply lookup_lt_Some in Hi. lia.
    + apply Z.eqb_neq in Eeq. split; [| split].
      * intros j s' Hj. destruct (Hold j s' Hj) as [Hj' | [_ ->]]; [| lia].
        exact (Hmax j s' Hj').
      * exact Hlow.
      * destruct (Game.top acc) as [i|]; [| exact Htop].
        destruct Htop as (si & Hi & Hki & Hpos & Htie).
        exists si. split; [apply lookup_app_l_Some; exact Hi |].
        split; [exact Hki |]. split; [exact Hpos |].
        rewrite Htie. split.
        -- intros (j & s' & Hne & Hj & Hk). exists j, s'.
           split; [exact Hne |]. split; [apply lookup_app_l_Some; exact Hj | exact Hk].
        -- intros (j & s' & Hne & Hj & Hk).
           destruct (Hold j s' Hj) as [Hj' | [_ ->]]; [| lia].
           exists j, s'. auto.
Qed.

Lemma select_from_selected (rest pre : list Tank.t) (acc : Game.Selection) :
  selected pre acc ->
  selected (pre ++ rest) (Game.select_from (length pre) rest acc).
Proof.
  revert pre acc. induction rest as [|s rest IH]; intros pre acc Hsel; cbn.
  - rewrite app_nil_r. exact Hsel.
  - replace (pre ++ s :: rest) with ((pre ++ [s]) ++ rest)
      by (rewrite <- app_assoc; reflexivity).
    replace (S (length pre)) with (length (pre ++ [s]))
      by (rewrite length_app; cbn; lia).
    apply IH, select_selected, Hsel.
Qed.

Lemma top_scorer_selected (ts : list Tank.t) : selected ts (Game.top_scorer ts).
Proof.
  unfold Game.top_scorer.
  apply (select_from_selected ts [] {| Game.top := None; Game.top_kills := -1;
                                       Game.tie := false |}).
  split; [| split]; cbn; [intros j s Hj; discriminate | lia | reflexivity].
Qed.

(** C6. The winner that the game-over screen announces is the tank whose
    kill count is positive and strictly above that of every other tank;
    there is no winner exactly when no tank is in that position (the
    highest count is zero, or two tanks share it). For two tanks: kills
    3 and 3 give no winner, 3 and 1 the first tank, 0 and 0 no winner. *)
Theorem winner_strict_top (ts : list Tank.t) :
  (forall i, Game.winner ts = Some i <-> strict_top ts i) /\
  (Game.winner ts = None <-> forall i, ~ strict_top ts i) /\
  Game.winner [tank_with_kills Tank.RED 3; tank_with_kills Tank.BLUE 3] = None /\
  Game.winner [tank_with_kills Tank.RED 3; tank_with_kills Tank.BLUE 1] = Some 0%nat /\
  Game.winner [tank_with_kills Tank.RED 0; tank_with_kills Tank.BLUE 0] = None.
Proof.
  assert (Hiff : forall i, Game.winner ts = Some i <-> strict_top ts i).
  { intros i. unfold Game.winner, strict_top.
    destruct (top_scorer_selected ts) as (Hmax & Hlow & Htop).
    destruct (Game.top (Game.top_scorer ts)) as [k|].
    - destruct Htop as (sk & Hk & Hkk & Hpos & Htie).
      destruct (Game.top_kills (Game.top_scorer ts) <=? 0) eqn:Ele; cbn.
      + apply Z.leb_le in Ele. split; [discriminate |].
        intros (s & Hi & Hs & _). specialize (Hmax i s Hi). lia.
      + apply Z.leb_gt in Ele.
        destruct (Game.tie (Game.top_scorer ts)) eqn:Et.
        * split; [discriminate |].
          intros (s & Hi & Hs & Hstrict).
          destruct (proj1 Htie eq_refl) as (j & s' & Hne & Hj & Hkj).
          destruct (decide (k = i)) as [-> | Hki].
          -- specialize (Hstrict j s' Hne Hj). rewrite Hi in Hk.
             injection Hk as ->. lia.
          -- specialize (Hstrict k sk Hki Hk). specialize (Hmax i s Hi). lia.
        * split.
          -- intros [= <-]. exists sk. split; [exact Hk |]. split; [lia |].
             intros j s' Hne Hj. specialize (Hmax j s' Hj).
             destruct (Z.eq_dec (Tank.kills s') (Tank.kills sk)) as [E | E]; [| lia].
             assert (false = true); [| discriminate].
             apply Htie. exists j, s'. split; [exact Hne |]. split; [exact Hj | lia].
          -- intros (s & Hi & Hs & Hstrict).
             destruct (decide (k = i)) as [-> | Hki]; [reflexivity |].
             specialize (Hstrict k sk Hki Hk). specialize (Hmax i s Hi). lia.
    - split; [discriminate |].
      intros (s & Hi & Hs & _). specialize (Hmax i s Hi). lia. }
  split; [exact Hiff |]. split; [| repeat split].
  split.
  - intros Hnone i Hi. apply Hiff in Hi. congruence.
  - intros Hall. destruct (Game.winner ts) as [i|] eqn:E; [| reflexivity].
    destruct (Hall i). apply Hiff. reflexivity.
Qed.

(** ** The occupancy grid *)

Lemma py_index_ok {A : Type} (l : list A) (i : Z) :
  0 <= i < Z.of_nat (length l) ->
  exists a, l !! Z.to_nat i = Some a /\ py_index l i = Ok a.
Proof.
  intros Hi. unfold py_index.
  assert (E : (i <? 0) = false) by (apply Z.ltb_ge; lia).
  assert (E2 : (Z.of_nat (length l) <=? i) = false) by (apply Z.leb_gt; lia).
  rewrite !E, E2. cbn. destruct (lookup_lt_is_Some_2 l (Z.to_nat i) ltac:(lia)) as [a Ha].
  exists a. rewrite Ha. auto.
Qed.

Lemma py_setitem_ok {A : Type} (l : list A) (i : Z) (v : A) :
  0 <= i < Z.of_nat (length l) ->
  py_setitem l i v = Ok (<[Z.to_nat i := v]> l).
Proof.
  intros Hi. unfold py_setitem.
  assert (E : (i <? 0) = false) by (apply Z.ltb_ge; lia).
  assert (E2 : (Z.of_nat (length l) <=? i) = false) by (apply Z.leb_gt; lia).
  rewrite !E, E2. reflexivity.
Qed.

Lemma In_range (n a : Z) : In a (range n) <-> 0 <= a < n.
Proof.
  unfold range. rewrite in_map_iff. split.
  - intros (k & <- & Hk). apply in_seq in Hk. lia.
  - intros Ha. exists (Z.to_nat a). split; [lia |]. apply in_seq. lia.
Qed.

Lemma represents_ext (w h : Z) (grid : Grid) (S S' : Z -> Z -> Prop) :
  (forall cx cy, 0 <= cx < w -> 0 <= cy < h -> (S cx cy <-> S' cx cy)) ->
  represents w h grid S -> represents w h grid S'.
Proof.
  intros Hext [Hshape Hcells]. split; [exact Hshape |].
  intros cx cy Hx Hy. destruct (Hcells cx cy Hx Hy) as (b & Hb & Hiff).
  exists b. split; [exact Hb |]. rewrite Hiff. apply Hext; assumption.
Qed.

Lemma mark_represents (w h cx cy : Z) (grid : Grid) (S : Z -> Z -> Prop) :
  represents w h grid S -> 0 <= cx < w -> 0 <= cy < h ->
  exists grid', Game.mark cx cy grid = Ok grid' /\
    represents w h grid' (fun x y => S x y \/ (x = cx /\ y = cy)).
Proof.
  intros [[Hlen Hcols] Hcells] Hx Hy. unfold Game.mark.
  destruct (py_index_ok grid cx ltac:(lia)) as (col & Hcol & ->). cbn.
  assert (Hclen : Z.of_nat (length col) = h).
  { apply Hcols. apply list_elem_of_In. eapply list_elem_of_lookup_2, Hcol. }
  rewrite py_setitem_ok by lia. cbn.
  rewrite py_setitem_ok by lia.
  eexists. split; [reflexivity |].
  split; [split |].
  - rewrite length_insert. exact Hlen.
  - intros c Hc. apply list_elem_of_In, list_elem_of_lookup in Hc.
    destruct Hc as [k Hk].
    destruct (decide (k = Z.to_nat cx)) as [-> | Hne].
    + rewrite list_lookup_insert_eq in Hk by lia.
      injection Hk as <-. rewrite length_insert. exact Hclen.
    + rewrite list_lookup_insert_ne in Hk by congruence.
      apply Hcols, list_elem_of_In. eapply list_elem_of_lookup_2, Hk.
  - intros x y Hx' Hy'. unfold grid_cell.
    destruct (Hcells x y Hx' Hy') as (b & Hb & Hiff). unfold grid_cell in Hb.
    destruct (decide (x = cx)) as [-> | Hnx].
    + destruct (py_index_ok (<[Z.to_nat cx := <[Z.to_nat cy := true]> col]> grid) cx)
        as (c & Hc & ->); [rewrite length_insert; lia |]. cbn.
      rewrite list_lookup_insert_eq in Hc by lia. injection Hc as <-.
      destruct (py_index_ok grid cx ltac:(lia)) as (c0 & Hc0 & Hi0).
      rewrite Hi0 in Hb. cbn in Hb. rewrite Hcol in Hc0. injection Hc0 as <-.
      destruct (decide (y = cy)) as [-> | Hny].
      * destruct (py_index_ok (<[Z.to_nat cy := true]> col) cy) as (v & Hv & ->);
          [rewrite length_insert; lia |].
        rewrite list_lookup_insert_eq in Hv by lia. injection Hv as <-.
        exists true. split; [reflexivity |]. split; auto.
      * destruct (py_index_ok (<[Z.to_nat cy := true]> col) y) as (v & Hv & ->);
          [rewrite length_insert; lia |].
        rewrite list_lookup_insert_ne in Hv by lia.
        destruct (py_index_ok col y ltac:(lia)) as (v0 & Hv0 & Hi1).
        rewrite Hi1 in Hb. injection Hb as <-. rewrite Hv in Hv0. injection Hv0 as <-.
        exists v. split; [reflexivity |]. rewrite Hiff. split; [auto |].
        intros [? | [_ ?]]; [assumption | contradiction].
    + destruct (py_index_ok (<[Z.to_nat cx := <[Z.to_nat cy := true]> col]> grid) x
                  ltac:(rewrite length_insert; lia)) as (c & Hc & ->). cbn.
      rewrite list_lookup_insert_ne in Hc by lia.
      destruct (py_index_ok grid x ltac:(lia)) as (c0 & Hc0 & Hi0).
      rewrite Hi0 in Hb. cbn in Hb. rewrite Hc in Hc0. injection Hc0 as <-.
      exists b. split; [exact Hb |]. rewrite Hiff. split; [auto |].
      intros [? | [? _]]; [assumption | contradiction].
Qed.

Lemma mark_if_represents (w h cx cy : Z) (cond : bool) (grid : Grid)
    (S : Z -> Z -> Prop) :
  represents w h grid S ->
  (cond = true -> 0 <= cx < w /\ 0 <= cy < h) ->
  exists grid', Game.mark_if cond cx cy grid = Ok grid' /\
    represents w h grid' (fun x y => S x y \/ (cond = true /\ x = cx /\ y = cy)).
Proof.
  intros Hrep Hcond. unfold Game.mark_if. destruct cond.
  - destruct (Hcond eq_refl) as [Hx Hy].
    destruct (mark_represents w h cx cy grid S Hrep Hx Hy) as (grid' & Hm & Hrep').
    exists grid'. split; [exact Hm |].
    eapply represents_ext; [| exact Hrep']. cbn. intros. tauto.
  - exists grid. split; [reflexivity |].
    eapply represents_ext; [| exact Hrep]. cbn. intros. split; [auto |].
    intros [? | [? _]]; [assumption | discriminate].
Qed.

(** A loop whose body marks the cells [M a] marks the cells of all the
    elements of the list. *)
Lemma for_each_represents {A : Type} (w h : Z) (M : A -> Z -> Z -> Prop)
    (body : A -> Grid -> res Grid) (l : list A) :
  (forall a grid S, In a l -> represents w h grid S ->
     exists grid', body a grid = Ok grid' /\
       represents w h grid' (fun x y => S x y \/ M a x y)) ->
  forall grid S, represents w h grid S ->
    exists grid', for_each l body grid = Ok grid' /\
      represents w h grid' (fun x y => S x y \/ exists a, In a l /\ M a x y).
Proof.
  induction l as [|a rest IH]; intros Hbody grid S Hrep; cbn.
  - exists grid. split; [reflexivity |].
    eapply represents_ext; [| exact Hrep]. cbn. intros. split; [auto |].
    intros [? | (? & [] & _)]; assumption.
  - destruct (Hbody a grid S (or_introl eq_refl) Hrep) as (g1 & -> & Hrep1). cbn.
    destruct (IH (fun a' g' S' Hin => Hbody a' g' S' (or_intror Hin)) g1 _ Hrep1)
      as (g2 & Hg2 & Hrep2).
    exists g2. split; [exact Hg2 |].
    eapply represents_ext; [| exact Hrep2]. cbn. intros x y _ _. split.
    + intros [[? | ?] | (a' & Hin & Hm)]; eauto.
    + intros [? | (a' & [<- | Hin] & Hm)]; eauto.
Qed.

Ltac zbool :=
  repeat match goal with
  | H : _ && _ = true |- _ => apply andb_true_iff in H; destruct H
  | H : (_ <=? _) = true |- _ => apply Z.leb_le in H
  | H : (_ <? _) = true |- _ => apply Z.ltb_lt in H
  end.

Lemma grid_dims_pos (scr : Screen) : 1 <= Game.grid_w scr /\ 1 <= Game.grid_h scr.
Proof. unfold Game.grid_w, Game.grid_h. lia. Qed.

Lemma length_range (n : Z) : 0 <= n -> Z.of_nat (length (range n)) = n.
Proof. intros Hn. unfold range. rewrite length_map, length_seq. lia. Qed.

Lemma empty_grid_represents (w h : Z) :
  0 <= w -> 0 <= h ->
  represents w h (map (fun _ => map (fun _ => false) (range h)) (range w))
    (fun _ _ => False).
Proof.
  intros Hw Hh. split; [split |].
  - rewrite length_map. apply length_range, Hw.
  - intros col Hcol. apply in_map_iff in Hcol. destruct Hcol as (_ & <- & _).
    rewrite length_map. apply length_range, Hh.
  - intros cx cy Hx Hy. exists false. split; [| split; [discriminate | tauto]].
    unfold grid_cell.
    destruct (py_index_ok (map (fun _ : Z => map (fun _ : Z => false) (range h)) (range w))
                cx ltac:(rewrite length_map, length_range; lia)) as (col & Hcol & ->).
    cbn. apply list_elem_of_lookup_2, list_elem_of_In, in_map_iff in Hcol.
    destruct Hcol as (_ & <- & _).
    destruct (py_index_ok (map (fun _ : Z => false) (range h)) cy
                ltac:(rewrite length_map, length_range; lia)) as (v & Hv & ->).
    apply list_elem_of_lookup_2, list_elem_of_In, in_map_iff in Hv.
    destruct Hv as (_ & <- & _). reflexivity.
Qed.

(** Two marks in a row, as in the bodies of the two border loops. *)
Lemma mark_twice_represents (w h : Z) (c1 c2 : bool) (x1 y1 x2 y2 : Z)
    (grid : Grid) (S : Z -> Z -> Prop) :
  represents w h grid S ->
  (c1 = true -> 0 <= x1 < w /\ 0 <= y1 < h) ->
  (c2 = true -> 0 <= x2 < w /\ 0 <= y2 < h) ->
  exists grid',
    (let! grid := Game.mark_if c1 x1 y1 grid in Game.mark_if c2 x2 y2 grid) = Ok grid' /\
    represents w h grid'
      (fun x y => S x y \/ ((c1 = true /\ x = x1 /\ y = y1) \/ (c2 = true /\ x = x2 /\ y = y2))).
Proof.
  intros Hrep H1 H2.
  destruct (mark_if_represents w h x1 y1 c1 grid S Hrep H1) as (g1 & -> & Hrep1). cbn.
  destruct (mark_if_represents w h x2 y2 c2 g1 _ Hrep1 H2) as (g2 & -> & Hrep2).
  exists g2. split; [reflexivity |].
  eapply represents_ext; [| exact Hrep2]. cbn. intros. tauto.
Qed.

(** The grid that [create_grid_map] returns: it never raises, the grid
    has [grid_w] columns of [grid_h] cells, and the marked cells are the
    border cells and the cells of the collidable tiles. *)
Lemma create_grid_map_represents (scr : Screen) (tiles : list Tile.t) :
  exists grid, Game.create_grid_map scr tiles = Ok grid /\
    represents (Game.grid_w scr) (Game.grid_h scr) grid
      (fun cx cy => on_border scr cx cy \/ collidable_tile_at tiles cx cy).
Proof.
  destruct (grid_dims_pos scr) as [Hw Hh].
  unfold Game.create_grid_map.
  set (w := Game.grid_w scr) in *. set (h := Game.grid_h scr) in *.
  pose proof (empty_grid_represents w h ltac:(lia) ltac:(lia)) as Hrep0.
  (* the rows at the top and at the bottom *)
  edestruct (for_each_represents w h
    (fun cx x y => exists by_, In by_ (range Game.border_rows) /\
       (((0 <=? by_) && (by_ <? h) = true /\ x = cx /\ y = by_) \/
        ((0 <=? h - 1 - by_) && (h - 1 - by_ <? h) = true /\ x = cx /\ y = h - 1 - by_)))
    (fun cx => for_each (range Game.border_rows) (fun by_ grid =>
       let! grid := Game.mark_if ((0 <=? by_) && (by_ <? h)) cx by_ grid in
       Game.mark_if ((0 <=? h - 1 - by_) && (h - 1 - by_ <? h)) cx (h - 1 - by_) grid))
    (range w)) as (g1 & Hg1 & Hrep1); [| exact Hrep0 |].
  { intros cx grid S Hcx Hrep. apply In_range in Hcx.
    apply (for_each_represents w h
      (fun by_ x y =>
        ((0 <=? by_) && (by_ <? h) = true /\ x = cx /\ y = by_) \/
        ((0 <=? h - 1 - by_) && (h - 1 - by_ <? h) = true /\ x = cx /\ y = h - 1 - by_)));
      [| exact Hrep].
    intros by_ g S' _ Hrep'.
    apply mark_twice_represents; [exact Hrep' | |]; intros Hc; zbool; lia. }
  rewrite Hg1. cbn.
  (* the columns at the left and at the right *)
  edestruct (for_each_represents w h
    (fun cy x y => exists bx, In bx (range Game.border_cols) /\
       (((0 <=? bx) && (bx <? w) = true /\ x = bx /\ y = cy) \/
        ((0 <=? w - 1 - bx) && (w - 1 - bx <? w) = true /\ x = w - 1 - bx /\ y = cy)))
    (fun cy => for_each (range Game.border_cols) (fun bx grid =>
       let! grid := Game.mark_if ((0 <=? bx) && (bx <? w)) bx cy grid in
       Game.mark_if ((0 <=? w - 1 - bx) && (w - 1 - bx <? w)) (w - 1 - bx) cy grid))
    (range h)) as (g2 & Hg2 & Hrep2); [| exact Hrep1 |].
  { intros cy grid S Hcy Hrep. apply In_range in Hcy.
    apply (for_each_represents w h
      (fun bx x y =>
        ((0 <=? bx) && (bx <? w) = true /\ x = bx /\ y = cy) \/
        ((0 <=? w - 1 - bx) && (w - 1 - bx <? w) = true /\ x = w - 1 - bx /\ y = cy)));
      [| exact Hrep].
    intros bx g S' _ Hrep'.
    apply mark_twice_represents; [exact Hrep' | |]; intros Hc; zbool; lia. }
  rewrite Hg2. cbn.
  (* the tiles *)
  edestruct (for_each_represents w h
    (fun tile x y =>
       (0 <=? Tile.grid_x tile) && (Tile.grid_x tile <? w) && (0 <=? Tile.grid_y tile)
         && (Tile.grid_y tile <? h) && Tile.collides tile = true /\
       x = Tile.grid_x tile /\ y = Tile.grid_y tile)
    (fun tile grid =>
       Game.mark_if ((0 <=? Tile.grid_x tile) && (Tile.grid_x tile <? w)
                     && (0 <=? Tile.grid_y tile) && (Tile.grid_y tile <? h)
                     && Tile.collides tile) (Tile.grid_x tile) (Tile.grid_y tile) grid)
    tiles) as (g3 & Hg3 & Hrep3); [| exact Hrep2 |].
  { intros tile grid S _ Hrep.
    apply mark_if_represents; [exact Hrep |]. intros Hc; zbool; lia. }
  exists g3. split; [exact Hg3 |].
  eapply represents_ext; [| exact Hrep3]. cbn.
  intros cx cy Hx Hy. unfold on_border, collidable_tile_at. fold w h.
  split.
  - intros [[[[] | (x & Hin & by_ & Hby & Hm)] | (y & Hin & bx & Hbx & Hm)]
           | (tile & Hin & Hc & -> & ->)].
    + apply In_range in Hby. left. destruct Hm as [(Hc & -> & ->) | (Hc & -> & ->)]; lia.
    + apply In_range in Hbx. left. destruct Hm as [(Hc & -> & ->) | (Hc & -> & ->)]; lia.
    + right. exists tile. zbool. auto.
  - intros [Hb | (tile & Hin & Hc & <- & <-)].
    + left. destruct Hb as [Hb | [Hb | [Hb | Hb]]].
      * right. exists cy. split; [apply In_range; lia |].
        exists cx. split; [apply In_range; lia |]. left.
        split; [| auto]. apply andb_true_iff. rewrite Z.leb_le, Z.ltb_lt. lia.
      * right. exists cy. split; [apply In_range; lia |].
        exists (w - 1 - cx). split; [apply In_range; lia |]. right.
        split; [| split; [lia | reflexivity]].
        apply andb_true_iff. rewrite Z.leb_le, Z.ltb_lt. lia.
      * left. right. exists cx. split; [apply In_range; lia |].
        exists cy. split; [apply In_range; lia |]. left.
        split; [| auto]. apply andb_true_iff. rewrite Z.leb_le, Z.ltb_lt. lia.
      * left. right. exists cx. split; [apply In_range; lia |].
        exists (h - 1 - cy). split; [apply In_range; lia |]. right.
        split; [| split; [reflexivity | lia]].
        apply andb_true_iff. rewrite Z.leb_le, Z.ltb_lt. lia.
    + right. exists tile. split; [exact Hin |]. split; [| auto].
      rewrite Hc. rewrite !andb_true_iff, !Z.leb_le, !Z.ltb_lt. lia.
Qed.

(** C3, as the code has it. [create_grid_map] raises on no screen size
    and no tile list (the empty one included); the grid it returns has
    [grid_w] columns of [grid_h] cells, and a cell is marked exactly when
    it lies in the outermost ring of the grid (one column and one row on
    each side: the border margin in cells, at least one) or a collidable
    tile of the list lies at it. *)
Theorem grid_occupancy (scr : Screen) (tiles : list Tile.t) :
  exists grid, Game.create_grid_map scr tiles = Ok grid /\
    shaped (Game.grid_w scr) (Game.grid_h scr) grid /\
    Game.border_cols = 1 /\ Game.border_rows = 1 /\
    forall cx cy, 0 <= cx < Game.grid_w scr -> 0 <= cy < Game.grid_h scr ->
      exists b, grid_cell grid cx cy = Ok b /\
        (b = true <-> on_border scr cx cy \/ collidable_tile_at tiles cx cy).
Proof.
  destruct (create_grid_map_represents scr tiles) as (grid & Hg & Hshape & Hcells).
  exists grid. split; [exact Hg |]. split; [exact Hshape |].
  split; [reflexivity |]. split; [reflexivity |]. exact Hcells.
Qed.

(** C3, counterexample. A tile that is not collidable lies at the cell
    [(5, 5)], far from the border of the default grid, and the cell is
    not marked. *)
Lemma uncollidable_tile_not_marked :
  let tiles := [{| Tile.grid_x := 5; Tile.grid_y := 5; Tile.collidable := false |}] in
  exists grid, Game.create_grid_map default_screen tiles = Ok grid /\
    tile_at tiles 5 5 /\ grid_cell grid 5 5 = Ok false.
Proof.
  intros tiles.
  destruct (Game.create_grid_map default_screen tiles) as [grid | e] eqn:E;
    [| vm_compute in E; discriminate].
  exists grid. split; [reflexivity |]. split.
  - eexists. split; [left; reflexivity |]. split; reflexivity.
  - vm_compute in E. injection E as <-. vm_compute. reflexivity.
Qed.

(** ** Hits *)

(** The body of the innermost loop on a hit. When it finds the active
    bullet [r] on the footprint of the tank at position [i], then,
    before the pass looks at the next bullet: the bullet is inactive;
    the tank has one more death, stands on its spawn point and has an
    empty bullet list; if the tank owns the bullet it has one more
    suicide and its kills are unchanged, otherwise its suicides and
    kills are unchanged and the owner has one more kill; every other
    tank and bullet is as before. *)
Lemma hit_effects (i r : nat) (ts : list Tank.t) (h : Heap)
    (tank : Tank.t) (bullet : Bullet.t) :
  ts !! i = Some tank ->
  h !! r = Some bullet ->
  Bullet.active bullet = true ->
  colliderect (Tank.get_rect tank)
    (Bullet.get_rect (Bullet.x bullet) (Bullet.y bullet)) = true ->
  let w' := Game.check_bullet i r (ts, h) in
  (exists bullet', w'.2 !! r = Some bullet' /\ Bullet.active bullet' = false /\
     bullet' = Game.deactivate bullet) /\
  (forall r', r' <> r -> w'.2 !! r' = h !! r') /\
  (exists tank', w'.1 !! i = Some tank' /\
     Tank.deaths tank' = Tank.deaths tank + 1 /\
     Tank.x tank' = (Tank.spawn_point tank).1 /\
     Tank.y tank' = (Tank.spawn_point tank).2 /\
     Tank.bullets tank' = [] /\
     Tank.alive tank' = true /\
     (Bullet.owner bullet = i ->
        Tank.suicides tank' = Tank.suicides tank + 1 /\
        Tank.kills tank' = Tank.kills tank) /\
     (Bullet.owner bullet <> i ->
        Tank.suicides tank' = Tank.suicides tank /\
        Tank.kills tank' = Tank.kills tank)) /\
  (Bullet.owner bullet <> i ->
     forall shooter, ts !! Bullet.owner bullet = Some shooter ->
       w'.1 !! Bullet.owner bullet = Some (Game.add_kill shooter) /\
       Tank.kills (Game.add_kill shooter) = Tank.kills shooter + 1) /\
  (forall j, j <> i -> j <> Bullet.owner bullet -> w'.1 !! j = ts !! j).
Proof.
  intros Hi Hr Hact Hcol w'. subst w'. unfold Game.check_bullet. cbn [fst snd].
  rewrite Hr, Hi, Hact, Hcol. cbn [andb]. unfold Game.hit.
  assert (Hrlt : (r < length h)%nat) by (eapply lookup_lt_Some, Hr).
  destruct (Nat.eqb (Bullet.owner bullet) i) eqn:Eo; cbn [fst snd].
  - apply Nat.eqb_eq in Eo.
    split; [| split; [| split; [| split]]].
    + eexists. rewrite list_lookup_insert_eq by exact Hrlt. auto.
    + intros r' Hne. apply list_lookup_insert_ne. congruence.
    + eexists. rewrite !list_lookup_alter_eq, Hi. cbn. split; [reflexivity |].
      repeat split; try reflexivity; congruence.
    + intros Hne. contradiction.
    + intros j Hji _. rewrite !list_lookup_alter_ne by congruence. reflexivity.
  - apply Nat.eqb_neq in Eo.
    split; [| split; [| split; [| split]]].
    + eexists. rewrite list_lookup_insert_eq by exact Hrlt. auto.
    + intros r' Hne. apply list_lookup_insert_ne. congruence.
    + eexists. rewrite !list_lookup_alter_eq.
      rewrite list_lookup_alter_ne by exact Eo. rewrite Hi. cbn.
      split; [reflexivity |]. repeat split; try reflexivity; congruence.
    + intros _ shooter Hs. split; [| reflexivity].
      rewrite !list_lookup_alter_ne by congruence.
      rewrite list_lookup_alter_eq, Hs. reflexivity.
    + intros j Hji Hjo. rewrite !list_lookup_alter_ne by congruence. reflexivity.
Qed.

Example hit_effects_example :
  let w' := Game.check_bullet 0 0 ([red_tank; blue_tank], [blue_bullet; red_bullet]) in
  (exists bullet', w'.2 !! 0%nat = Some bullet' /\ Bullet.active bullet' = false) /\
  (exists tank', w'.1 !! 0%nat = Some tank' /\
     Tank.deaths tank' = 1 /\ Tank.x tank' = 175%Q /\ Tank.y tank' = 112%Q /\
     Tank.bullets tank' = [] /\ Tank.suicides tank' = 0 /\ Tank.kills tank' = 0) /\
  (exists shooter', w'.1 !! 1%nat = Some shooter' /\ Tank.kills shooter' = 1).
Proof.
  intros w'.
  destruct (hit_effects 0 0 [red_tank; blue_tank] [blue_bullet; red_bullet]
              red_tank blue_bullet eq_refl eq_refl eq_refl eq_refl)
    as ((b' & Hb & Hoff & _) & _ & (t' & Ht & Hd & Hx & Hy & Hbs & _ & _ & Hother) & Hkill & _).
  split; [exists b'; auto |]. split.
  - exists t'. destruct Hother as [Hs Hk]; [discriminate |]. auto 10.
  - destruct (Hkill ltac:(discriminate) blue_tank eq_refl) as [Hl Hk].
    eexists. split; [exact Hl | exact Hk].
Qed.

(** The two scenarios of the specification run through the whole
    collision pass: the red tank is hit by a bullet of the blue tank,
    and by a bullet of its own. *)
Example check_collisions_kill :
  let w' := Game.check_collisions
              ([red_tank; Tank.set_bullets blue_tank [0%nat] 0],
               [blue_bullet]) in
  (Tank.kills <$> w'.1 !! 1%nat) = Some 1 /\
  (Tank.deaths <$> w'.1 !! 0%nat) = Some 1 /\
  (Tank.kills <$> w'.1 !! 0%nat) = Some 0 /\
  (Tank.suicides <$> w'.1 !! 0%nat) = Some 0 /\
  ((fun s => (Tank.x s, Tank.y s)) <$> w'.1 !! 0%nat) = Some (175%Q, 112%Q) /\
  (Tank.bullets <$> w'.1 !! 0%nat) = Some [] /\
  (Bullet.active <$> w'.2 !! 0%nat) = Some false.
Proof. vm_compute. repeat split. Qed.

Example check_collisions_suicide :
  let w' := Game.check_collisions
              ([Tank.set_bullets red_tank [0%nat] 0;
                Tank.set_bullets blue_tank [] 0],
               [red_bullet]) in
  (Tank.suicides <$> w'.1 !! 0%nat) = Some 1 /\
  (Tank.deaths <$> w'.1 !! 0%nat) = Some 1 /\
  (Tank.kills <$> w'.1 !! 0%nat) = Some 0 /\
  (Tank.kills <$> w'.1 !! 1%nat) = Some 0 /\
  ((fun s => (Tank.x s, Tank.y s)) <$> w'.1 !! 0%nat) = Some (175%Q, 112%Q) /\
  (Tank.bullets <$> w'.1 !! 0%nat) = Some [] /\
  (Bullet.active <$> w'.2 !! 0%nat) = Some false.
Proof. vm_compute. repeat split. Qed.

(** ** The collision pass *)

Lemma foldl_invariant {A B : Type} (P : A -> Prop) (f : A -> B -> A) (l : list B) (a : A) :
  (forall a b, P a -> P (f a b)) -> P a -> P (foldl f a l).
Proof.
  intros Hf. revert a. induction l as [|b l IH]; intros a Ha; cbn; [exact Ha |].
  apply IH, Hf, Ha.
Qed.

(** A property of the tanks and the store that the handling of one
    bullet keeps is kept by the whole pass. *)
Lemma check_collisions_invariant (P : list Tank.t * Heap -> Prop) (w : list Tank.t * Heap) :
  (forall i r w, P w -> P (Game.check_bullet i r w)) ->
  P w -> P (Game.check_collisions w).
Proof.
  intros Hstep. unfold Game.check_collisions.
  generalize (seq 0 (length w.1)). intros l. apply foldl_invariant. clear w l.
  intros w i Hw. unfold Game.check_tank.
  destruct (w.1 !! i) as [tank |]; [| exact Hw].
  destruct (negb (Tank.alive tank)); [exact Hw |].
  generalize (seq 0 (length w.1)). intros l. apply foldl_invariant; [| exact Hw].
  clear w Hw l tank. intros w j Hw. unfold Game.check_pair.
  destruct (w.1 !! j) as [other |]; [| exact Hw].
  destruct (negb (Tank.alive other)); [exact Hw |].
  apply foldl_invariant; [| exact Hw]. intros w' r Hw'. apply Hstep, Hw'.
Qed.





(** *** A single contact *)



(** *** The books of a pass *)












(** *** Contacts *)












(** ** The state of the computer's tank *)

Lemma move_ai_state (scr : Screen) (dx dy : Q) (tiles : list Tile.t) (s : Tank.t) :
  Tank.ai_state (Tank.move scr dx dy tiles s) = Tank.ai_state s.
Proof. unfold Tank.move. destruct (Tank.can_move _ _ _ _); reflexivity. Qed.

Lemma move_towards_ai_state `{Math} (scr : Screen) (p : Z * Z) (tiles : list Tile.t)
    (s : Tank.t) :
  Tank.ai_state (Tank.move_towards scr p tiles s) = Tank.ai_state s.
Proof.
  unfold Tank.move_towards. destruct (Qltb 5 _); [reflexivity | apply move_ai_state].
Qed.

Lemma shoot_ai_state `{Math} (me : nat) (s : Tank.t) (h : Heap) :
  Tank.ai_state (Tank.shoot me s h).1 = Tank.ai_state s.
Proof. unfold Tank.shoot. destruct (_ && _); reflexivity. Qed.

(** The state in which [update_ai] leaves the tank is the one selected
    from the distance and the line of sight, whether the target is
    alive or not. *)
Lemma update_ai_state `{Math} (scr : Screen) (me : nat) (tiles : list Tile.t)
    (tg : Tank.t) (grid_map : option Grid) (rnd : Draws) (s s' : Tank.t) (h h' : Heap) :
  Tank.update_ai scr me tiles (Some tg) grid_map rnd s h = Ok (s', h') ->
  Tank.ai_state s' = Tank.select_state s tg tiles.
Proof.
  unfold Tank.update_ai.
  set (s0 := if negb (Tank.alive tg) then _ else s).
  assert (Hsel : Tank.select_state s0 tg tiles = Tank.select_state s tg tiles).
  { subst s0. destruct (negb (Tank.alive tg)); reflexivity. }
  rewrite <- Hsel. clear Hsel.
  set (s1 := Tank.set_ai s0 _ _ _ _).
  assert (Hs1 : Tank.ai_state s1 = Tank.select_state s0 tg tiles) by reflexivity.
  rewrite <- Hs1. clearbody s1. clear Hs1 s0.
  destruct (Tank.ai_state s1) eqn:Est.
  - (* patrol *)
    destruct (match Tank.patrol_point s1 with Some _ => _ | None => _ end) as [pp | e];
      cbn; [| discriminate].
    intros [= <- <-]. rewrite move_towards_ai_state. reflexivity.
  - (* pursue *)
    destruct (if recalc rnd then _ else _) as [path | e]; cbn; [| discriminate].
    destruct path as [| target_pos rest]; [intros [= <- <-]; reflexivity |].
    destruct (Tank.dist_lt _ _ _ _ _); intros [= <- <-]; cbn;
      rewrite move_towards_ai_state; reflexivity.
  - (* attack *)
    set (s2 := if Qltb 5 _ then _ else s1).
    assert (Hs2 : Tank.ai_state s2 = Tank.attack).
    { subst s2. destruct (Qltb 5 _); [cbn |]; exact Est. }
    clearbody s2.
    destruct (Qltb (Qabs _) 15); [| intros [= <- <-]; exact Hs2].
    destruct (Qltb 30 _).
    + pose proof (shoot_ai_state me s2 h) as Hsh.
      destruct (Tank.shoot me s2 h) as [s3 h3]. cbn in Hsh.
      intros [= <- <-]. cbn. congruence.
    + intros [= <- <-]. exact Hs2.
Qed.

Lemma select_state_spec (s tg : Tank.t) (tiles : list Tile.t) :
  let near := (dist2 s tg < 200 * 200)%Q in
  let mid := (dist2 s tg < 400 * 400)%Q in
  let sight := Tank.has_line_of_sight s tg tiles = true in
  (near /\ sight -> Tank.select_state s tg tiles = Tank.attack) /\
  (~ (near /\ sight) -> mid -> Tank.select_state s tg tiles = Tank.pursue) /\
  (~ (near /\ sight) -> ~ mid -> Tank.select_state s tg tiles = Tank.patrol).
Proof.
  intros near mid sight. subst near mid sight. unfold Tank.select_state, Tank.dist_lt.
  fold (dist2 s tg).
  change (inject_Z (200 * 200)) with (200 * 200)%Q.
  change (inject_Z (400 * 400)) with (400 * 400)%Q.
  destruct (Qltb (dist2 s tg) (200 * 200)) eqn:E2;
    destruct (Qltb (dist2 s tg) (400 * 400)) eqn:E4;
    destruct (Tank.has_line_of_sight s tg tiles) eqn:El; cbn;
    try apply Qltb_lt in E2; try apply Qltb_ge in E2;
    try apply Qltb_lt in E4; try apply Qltb_ge in E4;
    repeat split; try reflexivity; intros;
    try (exfalso; tauto);
    try (match goal with
         | Hn : ~ _ |- _ => exfalso; apply Hn; split; [assumption | reflexivity]
         end);
    try (destruct H; discriminate);
    try (exfalso; match goal with
         | Ha : (?a < ?b)%Q, Hb : (?b <= ?a)%Q |- _ => exact (Qlt_not_le _ _ Ha Hb)
         end);
    try (exfalso; destruct H as [Hlt _];
         match goal with
         | Hb : (?b <= ?a)%Q |- _ => exact (Qlt_not_le _ _ Hlt Hb)
         end).
Qed.

(** With an opponent at hand the state after
    [update_ai] depends on the distance and the line of sight alone:
    below 200 with a clear sight it is [attack], otherwise below 400 it
    is [pursue], otherwise [patrol]. *)
Lemma update_ai_state_by_distance `{Math} (scr : Screen) (me : nat)
    (tiles : list Tile.t) (tg : Tank.t) (grid_map : option Grid) (rnd : Draws)
    (s s' : Tank.t) (h h' : Heap) :
  Tank.update_ai scr me tiles (Some tg) grid_map rnd s h = Ok (s', h') ->
  let near := (dist2 s tg < 200 * 200)%Q in
  let mid := (dist2 s tg < 400 * 400)%Q in
  let sight := Tank.has_line_of_sight s tg tiles = true in
  (near /\ sight -> Tank.ai_state s' = Tank.attack) /\
  (~ (near /\ sight) -> mid -> Tank.ai_state s' = Tank.pursue) /\
  (~ (near /\ sight) -> ~ mid -> Tank.ai_state s' = Tank.patrol).
Proof.
  intros Hup. rewrite (update_ai_state _ _ _ _ _ _ _ _ _ _ Hup).
  apply select_state_spec.
Qed.

(** C1. The first lines of [update_ai] set the
    state to [patrol] when there is no living opponent and go on: a call
    without opponent raises [AttributeError] at the computation of the
    distance, and a dead opponent at distance 150 in clear sight leaves
    the state [attack]. *)
Theorem patrol_not_forced `{Math} (scr : Screen) (me : nat) (tiles : list Tile.t)
    (grid_map : option Grid) (rnd : Draws) (s : Tank.t) (h : Heap) :
  Tank.update_ai scr me tiles None grid_map rnd s h = Raise AttributeError /\
  (exists s' h',
     Tank.update_ai (H := example_math) default_screen 1 [] (Some (tank_at 450 300 false))
       None no_draws (tank_at 300 300 true) [] = Ok (s', h') /\
     Tank.alive (tank_at 450 300 false) = false /\
     Tank.has_line_of_sight (tank_at 300 300 true) (tank_at 450 300 false) [] = true /\
     (dist2 (tank_at 300 300 true) (tank_at 450 300 false) == 150 * 150)%Q /\
     Tank.ai_state s' = Tank.attack).
Proof.
  split; [reflexivity |].
  eexists _, _. split; [vm_compute; reflexivity |].
  repeat split.
Qed.

(** ** The match clock *)

Lemma start_game_clock (md : option Game.Mode) (generated : list Tile.t) (ticks : Z)
    (g gs : Game.t) :
  Game.start_game md generated ticks g = Ok gs ->
  Game.state gs = Game.playing /\
  Game.match_start gs = Some ticks /\
  Game.match_end gs = Some (ticks + 90 * 1000).
Proof.
  unfold Game.start_game.
  destruct (Game.create_grid_map (Game.screen g) generated); cbn; [| discriminate].
  intros [= <-]. cbn. auto.
Qed.

(** No handler ends a match: the ended phase after an event was there
    before it. *)
Lemma handle_not_ending (o : Game.Occurrence) (g g' : Game.t) :
  Game.handle o g = Ok g' -> Game.state g' = Game.game_over ->
  Game.state g = Game.game_over.
Proof.
  unfold Game.handle.
  destruct (Game.event o) as [| key | button on_button | w h |].
  - intros [= <-]. auto.
  - destruct (Game.state g) eqn:Es; [| | auto].
    + repeat case_decide; try (intros [= <-]; cbn; congruence);
        intros Hs; apply start_game_clock in Hs; destruct Hs as (Hp & _); congruence.
    + case_decide; intros [= <-]; cbn; congruence.
  - destruct (Game.state g) eqn:Es; try (intros [= <-]; cbn; congruence).
    destruct (button =? 1); [| intros [= <-]; cbn; congruence].
    destruct on_button; [| intros [= <-]; cbn; congruence].
    intros Hs; apply start_game_clock in Hs; destruct Hs as (Hp & _); congruence.
  - destruct (Game.state g) eqn:Es; try (intros [= <-]; cbn; congruence).
    destruct (Game.create_grid_map _ _); intros [= <-]; cbn; congruence.
  - intros [= <-]. auto.
Qed.

Lemma events_not_ending (os : list Game.Occurrence) (g g' : Game.t) :
  for_each os Game.handle g = Ok g' -> Game.state g' = Game.game_over ->
  Game.state g = Game.game_over.
Proof.
  revert g. induction os as [|o os IH]; intros g; cbn.
  - intros [= <-]. auto.
  - destruct (Game.handle o g) as [g1 | e] eqn:E; cbn; [| discriminate].
    intros Hrest Hs. eapply handle_not_ending; [exact E |]. eapply IH; eassumption.
Qed.

(** Outside the playing phase a handler that starts no game leaves the
    tanks and the bullets alone, and the phase outside playing. *)
Lemma handle_frozen (o : Game.Occurrence) (g : Game.t) :
  Game.state g <> Game.playing -> starts_game (Game.event o) = false ->
  exists g', Game.handle o g = Ok g' /\
    Game.tanks g' = Game.tanks g /\ Game.bullets g' = Game.bullets g /\
    Game.state g' <> Game.playing /\
    (Game.state g = Game.game_over -> Game.state g' <> Game.game_over ->
     Game.state g' = Game.menu).
Proof.
  intros Hs Hev. unfold Game.handle.
  destruct (Game.event o) as [| key | button on_button | w h |].
  - eexists. split; [reflexivity |]. cbn. tauto.
  - destruct (Game.state g) eqn:Es; [| congruence |].
    + destruct key; try discriminate Hev; cbn;
        (eexists; split; [reflexivity |]; rewrite ?Es; repeat split; congruence).
    + destruct key; try discriminate Hev; cbn;
        (eexists; split; [reflexivity |]; cbn; rewrite ?Es; repeat split; congruence).
  - destruct (Game.state g) eqn:Es; [| congruence |].
    + destruct on_button; [discriminate Hev |].
      destruct (button =? 1);
        (eexists; split; [reflexivity |]; rewrite ?Es; repeat split; congruence).
    + eexists; split; [reflexivity |]; rewrite ?Es; repeat split; congruence.
  - destruct (Game.state g) eqn:Es; [| congruence |];
      (eexists; split; [reflexivity |]; cbn; rewrite ?Es; repeat split; congruence).
  - eexists. split; [reflexivity |]. tauto.
Qed.

Lemma events_frozen (os : list Game.Occurrence) (g : Game.t) :
  Game.state g <> Game.playing ->
  (forall o, In o os -> starts_game (Game.event o) = false) ->
  exists g', for_each os Game.handle g = Ok g' /\
    Game.tanks g' = Game.tanks g /\ Game.bullets g' = Game.bullets g /\
    Game.state g' <> Game.playing.
Proof.
  revert g. induction os as [|o os IH]; intros g Hs Hev; cbn.
  - exists g. auto.
  - destruct (handle_frozen o g Hs (Hev o (or_introl eq_refl)))
      as (g1 & -> & Ht & Hb & Hs1 & _). cbn.
    destruct (IH g1 Hs1 (fun o' Hin => Hev o' (or_intror Hin)))
      as (g2 & Hg2 & Ht2 & Hb2 & Hs2).
    exists g2. split; [exact Hg2 |]. split; [congruence |]. split; [congruence | exact Hs2].
Qed.

(** The loops of the playing block change the tanks and the bullets
    only. *)
Lemma for_each_set_world {A : Type} (l : list A) (body : A -> Game.t -> res Game.t)
    (g g' : Game.t) :
  (forall a g1 g2, body a g1 = Ok g2 -> exists ts h, g2 = Game.set_world g1 ts h) ->
  for_each l body g = Ok g' -> exists ts h, g' = Game.set_world g ts h.
Proof.
  intros Hbody. revert g. induction l as [|a l IH]; intros g; cbn.
  - intros [= <-]. exists (Game.tanks g), (Game.bullets g). destruct g; reflexivity.
  - destruct (body a g) as [g1 | e] eqn:E; cbn; [| discriminate].
    intros Hrest. destruct (Hbody a g g1 E) as (ts & h & ->).
    destruct (IH _ Hrest) as (ts' & h' & ->). exists ts', h'. reflexivity.
Qed.

Lemma update_tank_set_world `{Math} (inp : Game.Inputs) (i : nat) (g g' : Game.t) :
  Game.update_tank inp i g = Ok g' -> exists ts h, g' = Game.set_world g ts h.
Proof.
  unfold Game.update_tank. destruct (Game.tanks g !! i) as [tank |].
  - destruct (if Tank.is_ai tank then _ else _) as [[tank' h] | e]; cbn; [| discriminate].
    intros [= <-]. eauto.
  - intros [= <-]. exists (Game.tanks g), (Game.bullets g). destruct g; reflexivity.
Qed.

Lemma shoot_tank_set_world `{Math} (inp : Game.Inputs) (i : nat) (g g' : Game.t) :
  Game.shoot_tank inp i g = Ok g' -> exists ts h, g' = Game.set_world g ts h.
Proof.
  assert (Hid : exists ts h, g = Game.set_world g ts h).
  { exists (Game.tanks g), (Game.bullets g). destruct g; reflexivity. }
  unfold Game.shoot_tank. destruct (Game.tanks g !! i) as [tank |]; [| intros [= <-]; exact Hid].
  destruct (Tank.controls tank) as [c |]; [| intros [= <-]; exact Hid].
  destruct (_ && _); [| intros [= <-]; exact Hid].
  destruct (Tank.shoot i tank (Game.bullets g)) as [tank' h]. intros [= <-]. eauto.
Qed.

(** The playing block ends the match exactly when the clock has reached
    [match_end]; it touches neither the deadline nor, before that, the
    phase. *)
Lemma play_phase `{Math} (inp : Game.Inputs) (g g' : Game.t) :
  Game.play inp g = Ok g' ->
  Game.match_end g' = Game.match_end g /\
  Game.running g' = Game.running g /\
  Game.state g' =
    (if Game.now inp >=? default 0 (Game.match_end g) then Game.game_over
     else Game.state g).
Proof.
  unfold Game.play.
  destruct (for_each _ (Game.update_tank inp) g) as [g1 | e] eqn:E1; cbn [and_then]; [| discriminate].
  apply (for_each_set_world _ _ _ _ (update_tank_set_world inp)) in E1.
  destruct E1 as (ts1 & h1 & ->).
  destruct (for_each _ (Game.shoot_tank inp) _) as [g2 | e] eqn:E2; cbn [and_then]; [| discriminate].
  apply (for_each_set_world _ _ _ _ (shoot_tank_set_world inp)) in E2.
  destruct E2 as (ts2 & h2 & ->).
  destruct (Game.check_collisions _) as [ts h].
  cbn [Game.match_end Game.set_world].
  destruct (Game.now inp >=? default 0 (Game.match_end g)); intros [= <-]; cbn; auto.
Qed.

(** C9. In an iteration of the main loop whose event handling leaves the
    game [g1]: if [g1] is in the playing phase, the iteration ends in the
    ended phase exactly when the clock has reached [match_end], which
    [start_game] sets 90 seconds after the start, and stays in the
    playing phase otherwise; the ended phase is entered in no other way;
    and an iteration that begins in the ended phase and handles no event
    that starts a game leaves all tanks and bullets as they are. *)
Theorem match_ends_at_deadline `{Math} (inp : Game.Inputs) (g g1 g' : Game.t) :
  for_each (Game.events inp) Game.handle g = Ok g1 ->
  Game.step inp g = Ok g' ->
  (forall md generated ticks g0 gs,
     Game.start_game md generated ticks g0 = Ok gs ->
     Game.state gs = Game.playing /\
     Game.match_end gs = Some (ticks + MATCH_SECONDS * 1000) /\ MATCH_SECONDS = 90) /\
  (Game.state g1 = Game.playing ->
     (Game.state g' = Game.game_over <-> default 0 (Game.match_end g1) <= Game.now inp) /\
     (Game.state g' <> Game.game_over -> Game.state g' = Game.playing)) /\
  (Game.state g' = Game.game_over ->
     Game.state g = Game.game_over \/
     (Game.state g1 = Game.playing /\ default 0 (Game.match_end g1) <= Game.now inp)) /\
  (Game.state g = Game.game_over ->
     (forall o, In o (Game.events inp) -> starts_game (Game.event o) = false) ->
     Game.tanks g' = Game.tanks g /\ Game.bullets g' = Game.bullets g /\
     Game.state g' <> Game.playing).
Proof.
  intros Hev Hstep. unfold Game.step in Hstep. rewrite Hev in Hstep. cbn [and_then] in Hstep.
  split; [| split; [| split]].
  - intros md generated ticks g0 gs Hs. apply start_game_clock in Hs.
    destruct Hs as (Hp & _ & He). auto.
  - intros Hp. rewrite Hp in Hstep. apply play_phase in Hstep.
    destruct Hstep as (_ & _ & Hs). rewrite Hs, Hp.
    destruct (Game.now inp >=? default 0 (Game.match_end g1)) eqn:E;
      rewrite Z.geb_leb in E; [apply Z.leb_le in E | apply Z.leb_gt in E].
    + split; [tauto | congruence].
    + split; [split; [discriminate | lia] | auto].
  - intros Hover. destruct (Game.state g1) eqn:Es.
    + injection Hstep as <-. congruence.
    + right. apply play_phase in Hstep. destruct Hstep as (_ & _ & Hs).
      rewrite Hs, Es in Hover. split; [reflexivity |].
      destruct (Game.now inp >=? default 0 (Game.match_end g1)) eqn:E; [| discriminate].
      rewrite Z.geb_leb in E. apply Z.leb_le in E. exact E.
    + left. eapply events_not_ending; eassumption.
  - intros Hover Hquiet.
    destruct (events_frozen (Game.events inp) g ltac:(congruence) Hquiet)
      as (g2 & Hg2 & Ht & Hb & Hs).
    rewrite Hev in Hg2. injection Hg2 as <-.
    destruct (Game.state g1) eqn:Es; [| congruence |]; injection Hstep as <-;
      rewrite Es; auto.
Qed.

Lemma match_ends_at_deadline_witness :
  exists g g',
    example_match = Ok g /\
    Game.step (H := example_math) (idle 91000) g = Ok g' /\
    Game.match_end g = Some 91000 /\
    Game.state g = Game.playing /\ Game.state g' = Game.game_over.
Proof.
  destruct example_match as [g | e] eqn:Eg; [| vm_compute in Eg; discriminate].
  destruct (Game.step (H := example_math) (idle 91000) g) as [g' | e] eqn:Es;
    [| vm_compute in Eg; injection Eg as <-; vm_compute in Es; discriminate].
  exists g, g'. split; [reflexivity |]. split; [exact Es |].
  assert (Hev : for_each (Game.events (idle 91000)) Game.handle g = Ok g) by reflexivity.
  destruct (match_ends_at_deadline (H := example_math) (idle 91000) g g g' Hev Es)
    as (Hclock & Hplay & _ & _).
  destruct (Hclock _ _ _ _ _ Eg) as (Hp & He & _).
  split; [exact He |]. split; [exact Hp |].
  apply (Hplay Hp). rewrite He. cbn. discriminate.
Defined.

(** ** The pathfinder *)

Lemma In_cells (w h : Z) (c : Z * Z) :
  In c (cells w h) <-> 0 <= c.1 < w /\ 0 <= c.2 < h.
Proof.
  unfold cells. rewrite in_flat_map. split.
  - intros (cx & Hcx & Hin). apply in_map_iff in Hin.
    destruct Hin as (cy & <- & Hcy). apply In_range in Hcx, Hcy. cbn. lia.
  - intros [Hx Hy]. exists c.1. split; [apply In_range, Hx |].
    apply in_map_iff. exists c.2. split; [destruct c; reflexivity | apply In_range, Hy].
Qed.

Lemma length_cells (w h : Z) :
  0 <= w -> 0 <= h -> Z.of_nat (length (cells w h)) = w * h.
Proof.
  intros Hw Hh. unfold cells.
  assert (Hgen : forall l : list Z,
            Z.of_nat (length (flat_map (fun cx => map (fun cy => (cx, cy)) (range h)) l))
            = Z.of_nat (length l) * h).
  { induction l as [|a l IH]; cbn [flat_map]; [reflexivity |].
    rewrite length_app, length_map, Nat2Z.inj_add, IH, length_range by exact Hh.
    cbn [length]. lia. }
  rewrite Hgen, length_range by exact Hw. reflexivity.
Qed.

Lemma found_bounds (cost : gmap (Z * Z) Z) (l : list (Z * Z)) :
  0 <= found cost l <= Z.of_nat (length l).
Proof.
  induction l as [|c l IH]; cbn [found length]; [lia |].
  destruct (cost !! c); lia.
Qed.

Lemma found_missing (cost : gmap (Z * Z) Z) (l : list (Z * Z)) (c : Z * Z) :
  In c l -> cost !! c = None -> found cost l < Z.of_nat (length l).
Proof.
  induction l as [|a l IH]; cbn [found length In]; [tauto |].
  intros [-> | Hin] Hc.
  - rewrite Hc. pose proof (found_bounds cost l). lia.
  - specialize (IH Hin Hc). destruct (cost !! a); lia.
Qed.

Lemma found_insert (cost : gmap (Z * Z) Z) (l : list (Z * Z)) (c : Z * Z) (v : Z) :
  found cost l <= found (<[c := v]> cost) l /\
  (In c l -> cost !! c = None -> found cost l + 1 <= found (<[c := v]> cost) l).
Proof.
  induction l as [|a l [IH1 IH2]]; cbn [found In]; [split; [lia | tauto] |].
  destruct (decide (c = a)) as [-> | Hne].
  - rewrite lookup_insert_eq. split.
    + destruct (cost !! a); lia.
    + intros _ Hc. rewrite Hc. lia.
  - rewrite lookup_insert_ne by exact Hne. split.
    + destruct (cost !! a); lia.
    + intros [Heq | Hin] Hc; [congruence |]. specialize (IH2 Hin Hc).
      destruct (cost !! a); lia.
Qed.

Lemma pot_insert_eq (big : Z) (cost : gmap (Z * Z) Z) (c : Z * Z) (v : Z) :
  pot big (<[c := v]> cost) c = v.
Proof. unfold pot. rewrite lookup_insert_eq. reflexivity. Qed.

Lemma pot_insert_ne (big : Z) (cost : gmap (Z * Z) Z) (c a : Z * Z) (v : Z) :
  c <> a -> pot big (<[c := v]> cost) a = pot big cost a.
Proof. intros Hne. unfold pot. rewrite lookup_insert_ne by exact Hne. reflexivity. Qed.

Lemma potsum_insert (big : Z) (cost : gmap (Z * Z) Z) (l : list (Z * Z))
    (c : Z * Z) (v : Z) :
  v < pot big cost c ->
  potsum big (<[c := v]> cost) l <= potsum big cost l /\
  (In c l -> potsum big (<[c := v]> cost) l + 1 <= potsum big cost l).
Proof.
  intros Hv. induction l as [|a l [IH1 IH2]]; cbn [potsum In]; [split; [lia | tauto] |].
  destruct (decide (c = a)) as [-> | Hne].
  - rewrite pot_insert_eq. split; lia.
  - rewrite pot_insert_ne by exact Hne. split; [lia |].
    intros [Heq | Hin]; [congruence |]. specialize (IH2 Hin). lia.
Qed.

Lemma potsum_bounds (big : Z) (cost : gmap (Z * Z) Z) (l : list (Z * Z)) :
  0 <= big ->
  (forall c v, cost !! c = Some v -> 0 <= v <= big) ->
  0 <= potsum big cost l <= Z.of_nat (length l) * big.
Proof.
  intros Hbig Hcost. induction l as [|a l IH]; cbn [potsum length]; [lia |].
  rewrite Nat2Z.inj_succ, Z.mul_succ_l.
  unfold pot. destruct (cost !! a) as [v |] eqn:E; [specialize (Hcost a v E) |]; lia.
Qed.

Lemma pop_min_spec (e : entry) (f : list entry) :
  let '(m, rest) := pop_min e f in
  length rest = length f /\ In m (e :: f) /\
  (forall x, In x rest -> In x (e :: f)).
Proof.
  revert e. induction f as [|e' f IH]; intros e; cbn [pop_min].
  - split; [reflexivity |]. split; [left; reflexivity | intros x []].
  - destruct (entry_leb e e').
    + specialize (IH e). destruct (pop_min e f) as [m r].
      destruct IH as (Hl & Hm & Hr). split; [cbn; lia |]. split.
      * destruct Hm as [<- | Hm]; [left; reflexivity | right; right; exact Hm].
      * intros x [<- | Hx]; [right; left; reflexivity |].
        destruct (Hr x Hx) as [<- | Hf]; [left; reflexivity | right; right; exact Hf].
    + specialize (IH e'). destruct (pop_min e' f) as [m r].
      destruct IH as (Hl & Hm & Hr). split; [cbn; lia |]. split.
      * right. exact Hm.
      * intros x [<- | Hx]; [left; reflexivity | right; exact (Hr x Hx)].
Qed.

Lemma entry_leb_spec (a b : entry) :
  entry_leb a b = true <->
  a.1 < b.1 \/ (a.1 = b.1 /\ (a.2.1 < b.2.1 \/ (a.2.1 = b.2.1 /\ a.2.2 <= b.2.2))).
Proof.
  destruct a as [pa [xa ya]], b as [pb [xb yb]]. cbn.
  rewrite !orb_true_iff, !andb_true_iff, !orb_true_iff, !andb_true_iff.
  rewrite !Z.ltb_lt, !Z.eqb_eq, Z.leb_le. reflexivity.
Qed.

(** [pop_min] is [heappop]: it takes out an element that is below all
    the others in the order of the tuples and keeps the others. *)
Lemma pop_min_least (e : entry) (f : list entry) :
  let '(m, rest) := pop_min e f in
  (forall x, In x (e :: f) -> entry_leb m x = true) /\ Permutation (e :: f) (m :: rest).
Proof.
  revert e. induction f as [|e' f IH]; intros e; cbn [pop_min].
  - split; [| reflexivity]. intros x [<- | []]. apply entry_leb_spec. lia.
  - destruct (entry_leb e e') eqn:Ele.
    + specialize (IH e). destruct (pop_min e f) as [m r]. destruct IH as [Hmin Hperm].
      split.
      * intros x [<- | [<- | Hx]].
        -- apply Hmin. left. reflexivity.
        -- pose proof (Hmin e (or_introl eq_refl)) as Hme.
           apply entry_leb_spec in Hme, Ele. apply entry_leb_spec. lia.
        -- apply Hmin. right. exact Hx.
      * etransitivity; [apply perm_swap |].
        etransitivity; [apply perm_skip, Hperm |]. apply perm_swap.
    + specialize (IH e'). destruct (pop_min e' f) as [m r]. destruct IH as [Hmin Hperm].
      split.
      * intros x [<- | Hx]; [| apply Hmin, Hx].
        pose proof (Hmin e' (or_introl eq_refl)) as Hme.
        assert (Hee : entry_leb e' e = true).
        { apply entry_leb_spec. apply not_true_iff_false in Ele.
          rewrite entry_leb_spec in Ele. lia. }
        apply entry_leb_spec in Hme, Hee. apply entry_leb_spec. lia.
      * etransitivity; [apply perm_skip, Hperm |]. apply perm_swap.
Qed.

(** On a grid of [w] columns of [h] cells the bounds test of the
    neighbour loop does not raise and says whether the cell is inside. *)
Lemma in_grid_shaped (w h : Z) (g : Grid) (p : Z * Z) :
  shaped w h g ->
  exists inside, in_grid (Some g) p = Ok inside /\
    (inside = true <-> 0 <= p.1 < w /\ 0 <= p.2 < h).
Proof.
  intros [Hlen Hcols]. unfold in_grid.
  destruct (0 <=? p.1) eqn:E1; [apply Z.leb_le in E1 | apply Z.leb_gt in E1].
  2:{ exists false. split; [reflexivity |]. split; [discriminate | lia]. }
  cbn [the_grid and_then]. rewrite Hlen.
  destruct (p.1 <? w) eqn:E2; [apply Z.ltb_lt in E2 | apply Z.ltb_ge in E2].
  2:{ exists false. split; [reflexivity |]. split; [discriminate | lia]. }
  destruct (0 <=? p.2) eqn:E3; [apply Z.leb_le in E3 | apply Z.leb_gt in E3].
  2:{ exists false. split; [reflexivity |]. split; [discriminate | lia]. }
  destruct (py_index_ok g 0 ltac:(lia)) as (row0 & Hrow0 & ->). cbn [and_then].
  assert (Hr : Z.of_nat (length row0) = h).
  { apply Hcols, list_elem_of_In. eapply list_elem_of_lookup_2, Hrow0. }
  rewrite Hr. exists (p.2 <? h). split; [reflexivity |].
  rewrite Z.ltb_lt. lia.
Qed.

Section Search.
Variables (w h : Z) (g : Grid) (start goal : Z * Z).
Hypothesis Hshape : shaped w h g.

Lemma free_cell_lookup (c : Z * Z) :
  0 <= c.1 < w -> 0 <= c.2 < h ->
  exists col occupied,
    py_index g c.1 = Ok col /\ py_index col c.2 = Ok occupied /\
    grid_cell g c.1 c.2 = Ok occupied.
Proof.
  intros Hx Hy. destruct Hshape as [Hlen Hcols].
  destruct (py_index_ok g c.1 ltac:(lia)) as (col & Hcol & Hi).
  assert (Hl : Z.of_nat (length col) = h).
  { apply Hcols, list_elem_of_In. eapply list_elem_of_lookup_2, Hcol. }
  destruct (py_index_ok col c.2 ltac:(lia)) as (occ & _ & Hj).
  exists col, occ. split; [exact Hi |]. split; [exact Hj |].
  unfold grid_cell. rewrite Hi. exact Hj.
Qed.

(** One pass of the body of the neighbour loop keeps the invariant,
    does not raise and does not increase the measure. *)
Lemma relax_inv (current d : Z * Z) (c0 : Z) (s : Search) :
  search_inv w h g start s ->
  cost_so_far s !! current = Some c0 ->
  d <> (0, 0) ->
  exists s', relax (Some g) goal current d s = Ok s' /\
    search_inv w h g start s' /\
    potential w h s' <= potential w h s /\
    cost_so_far s' !! current = Some c0.
Proof.
  intros Hinv Hcur Hd. unfold relax.
  assert (Hkeep : exists s', Ok s = Ok s' /\ search_inv w h g start s' /\
            potential w h s' <= potential w h s /\
            cost_so_far s' !! current = Some c0).
  { exists s. split; [reflexivity |]. split; [exact Hinv |]. split; [lia | exact Hcur]. }
  set (next_pos := (current.1 + d.1, current.2 + d.2)).
  assert (Hnext : next_pos <> current).
  { subst next_pos. destruct current as [cx cy], d as [dx dy]. cbn.
    intros [= Hx Hy]. apply Hd. f_equal; lia. }
  destruct (in_grid_shaped w h g next_pos Hshape) as (inside & -> & Hinside).
  cbn [and_then].
  destruct inside; cbn [negb]; [| exact Hkeep].
  destruct (proj1 Hinside eq_refl) as [Hx Hy].
  destruct (free_cell_lookup next_pos Hx Hy) as (col & occ & Hi & Hj & Hcell).
  cbn [the_grid and_then]. rewrite Hi. cbn [and_then]. rewrite Hj. cbn [and_then].
  destruct occ; [exact Hkeep |].
  rewrite Hcur.
  set (new_cost := c0 + (if Z.abs d.1 + Z.abs d.2 =? 2 then 14 else 10)).
  assert (Hstep : c0 + 10 <= new_cost <= c0 + 14).
  { subst new_cost. destruct (Z.abs d.1 + Z.abs d.2 =? 2); lia. }
  destruct Hinv as [Hfr Hcost Hstart Hpar].
  pose proof (Hcost current c0 Hcur) as Hc0.
  destruct (match cost_so_far s !! next_pos with
            | Some old => new_cost <? old
            | None => true
            end) eqn:Ebetter; [| exact Hkeep].
  assert (Hin : In next_pos (cells w h)) by (apply In_cells; auto).
  assert (Hlt : new_cost < pot (14 * (w * h) + 1) (cost_so_far s) next_pos).
  { unfold pot. destruct (cost_so_far s !! next_pos) as [old |] eqn:Eold.
    - apply Z.ltb_lt in Ebetter. exact Ebetter.
    - pose proof (found_missing _ _ _ Hin Eold) as Hf.
      destruct Hshape as [Hlen _].
      assert (0 <= h) by lia.
      rewrite length_cells in Hf by lia. lia. }
  assert (Hns : next_pos <> start).
  { intros ->. destruct Hstart as [Hs0 _]. rewrite Hs0 in Ebetter.
    apply Z.ltb_lt in Ebetter. lia. }
  destruct (found_insert (cost_so_far s) (cells w h) next_pos new_cost) as [Hf1 Hf2].
  destruct (potsum_insert (14 * (w * h) + 1) (cost_so_far s) (cells w h)
              next_pos new_cost Hlt) as [_ Hp2].
  specialize (Hp2 Hin).
  eexists. split; [reflexivity |]. split; [| split].
  - constructor; cbn [frontier came_from cost_so_far heappush].
    + intros p c [[= _ <-] | Hold].
      * rewrite lookup_insert_eq. eauto.
      * apply lookup_insert_is_Some. destruct (decide (next_pos = c)); [auto |].
        right. split; [assumption |]. eapply Hfr, Hold.
    + intros c v Hv. destruct (decide (next_pos = c)) as [<- | Hne].
      * rewrite lookup_insert_eq in Hv. injection Hv as <-.
        destruct (cost_so_far s !! next_pos) as [old |] eqn:Eold.
        -- apply Z.ltb_lt in Ebetter. pose proof (Hcost _ _ Eold). lia.
        -- specialize (Hf2 Hin eq_refl). lia.
      * rewrite lookup_insert_ne in Hv by exact Hne.
        pose proof (Hcost _ _ Hv). lia.
    + destruct Hstart as [Hs0 Hs1].
      rewrite !lookup_insert_ne by exact Hns. auto.
    + intros c Hc. destruct (decide (next_pos = c)) as [<- | Hne].
      * right. exists current, c0, new_cost.
        rewrite !lookup_insert_eq, lookup_insert_ne by exact Hnext.
        repeat split; try assumption; lia.
      * rewrite !lookup_insert_ne by exact Hne.
        destruct (Hpar c Hc) as [Hnone | (p & vp & vc & Hcf & Hvp & Hvc & Hlt' & Hfree)];
          [left; exact Hnone |].
        right. destruct (decide (next_pos = p)) as [<- | Hnp].
        -- exists next_pos, new_cost, vc. rewrite lookup_insert_eq.
           rewrite Hvp in Ebetter. apply Z.ltb_lt in Ebetter.
           split; [exact Hcf |]. split; [reflexivity |]. split; [exact Hvc |].
           split; [lia | exact Hfree].
        -- exists p, vp, vc. rewrite lookup_insert_ne by exact Hnp.
           split; [exact Hcf |]. split; [exact Hvp |]. split; [exact Hvc |].
           split; [exact Hlt' | exact Hfree].
  - unfold potential. cbn [frontier cost_so_far heappush length].
    rewrite Nat2Z.inj_succ. lia.
  - cbn [cost_so_far]. rewrite lookup_insert_ne by exact Hnext. exact Hcur.
Qed.

Lemma neighbours_inv (current : Z * Z) (c0 : Z) (ds : list (Z * Z)) (s : Search) :
  Forall (fun d => d <> (0, 0)) ds ->
  search_inv w h g start s ->
  cost_so_far s !! current = Some c0 ->
  exists s', for_each ds (relax (Some g) goal current) s = Ok s' /\
    search_inv w h g start s' /\
    potential w h s' <= potential w h s.
Proof.
  intros Hds. revert s. induction Hds as [|d ds Hd _ IH]; intros s Hinv Hcur; cbn.
  - exists s. split; [reflexivity |]. split; [exact Hinv | lia].
  - destruct (relax_inv current d c0 s Hinv Hcur Hd) as (s1 & -> & Hinv1 & Hp1 & Hcur1).
    cbn [and_then]. destruct (IH s1 Hinv1 Hcur1) as (s2 & Hs2 & Hinv2 & Hp2).
    exists s2. split; [exact Hs2 |]. split; [exact Hinv2 | lia].
Qed.

Lemma directions_nonzero : Forall (fun d : Z * Z => d <> (0, 0)) directions.
Proof. unfold directions. repeat constructor; discriminate. Qed.

Lemma dims_nonneg : 0 <= w * h.
Proof.
  destruct Hshape as [Hlen Hcols]. destruct g as [|col rest].
  - cbn in Hlen. subst w. lia.
  - specialize (Hcols col (or_introl eq_refl)). nia.
Qed.

Lemma length_cells_shaped : Z.of_nat (length (cells w h)) = w * h.
Proof.
  destruct Hshape as [Hlen Hcols]. destruct g as [|col rest].
  - cbn in Hlen. subst w. reflexivity.
  - specialize (Hcols col (or_introl eq_refl)). apply length_cells; lia.
Qed.

Lemma potential_nonneg (s : Search) :
  search_inv w h g start s -> 0 <= potential w h s.
Proof.
  intros Hinv. unfold potential. pose proof dims_nonneg as Hd.
  destruct (potsum_bounds (14 * (w * h) + 1) (cost_so_far s) (cells w h)) as [Hlo _];
    [lia | | lia].
  intros c v Hv. pose proof (inv_cost _ _ _ _ _ Hinv c v Hv) as Hb.
  pose proof (found_bounds (cost_so_far s) (cells w h)) as Hf.
  rewrite length_cells_shaped in Hf. lia.
Qed.

(** The search loop returns, without raising, before a fuel above the
    measure is used up. *)
Lemma astar_loop_total (fuel : nat) (s : Search) :
  start <> goal ->
  search_inv w h g start s ->
  potential w h s < Z.of_nat fuel ->
  exists s', astar_loop fuel (Some g) goal s = Some (Ok s') /\
    search_inv w h g start s' /\ stopped goal s'.
Proof.
  intros Hsg. revert s. induction fuel as [|fuel IH]; intros s Hinv Hpot.
  - pose proof (potential_nonneg s Hinv). lia.
  - cbn [astar_loop]. destruct (frontier s) as [|e f'] eqn:Ef.
    { exists s. split; [reflexivity |]. split; [exact Hinv | left; exact Ef]. }
    destruct (size (came_from s) <? 200)%nat eqn:Ecap; cbn [negb].
    2:{ exists s. split; [reflexivity |]. split; [exact Hinv |].
        right; left. apply Nat.ltb_ge in Ecap. exact Ecap. }
    pose proof (pop_min_spec e f') as Hpop.
    destruct (pop_min e f') as [m rest]. destruct Hpop as (Hlen & Hm & Hrest).
    set (s1 := {| frontier := rest; came_from := came_from s;
                  cost_so_far := cost_so_far s |}).
    assert (Hinv1 : search_inv w h g start s1).
    { destruct Hinv as [Hfr Hcost Hstart Hpar]. constructor; cbn; try assumption.
      intros p c Hin. apply (Hfr p c). rewrite Ef. apply Hrest, Hin. }
    assert (Hpot1 : potential w h s1 = potential w h s - 1).
    { unfold potential. cbn [frontier cost_so_far s1]. rewrite Ef, Hlen.
      cbn [length]. lia. }
    assert (Hcur : is_Some (cost_so_far s !! m.2)).
    { apply (inv_frontier _ _ _ _ _ Hinv m.1 m.2). rewrite Ef.
      destruct m as [p c]. exact Hm. }
    destruct Hcur as [c0 Hcur].
    destruct (decide (m.2 = goal)) as [Hgoal | Hgoal].
    + exists s1. split; [reflexivity |]. split; [exact Hinv1 |].
      right; right. cbn.
      destruct (inv_parent _ _ _ _ _ Hinv goal ltac:(congruence))
        as [[_ Hnone] | (p & vp & vc & Hcf & _)].
      * rewrite Hgoal in Hcur. congruence.
      * rewrite Hcf. eauto.
    + destruct (neighbours_inv m.2 c0 directions s1 directions_nonzero Hinv1 Hcur)
        as (s2 & -> & Hinv2 & Hpot2).
      apply IH; [exact Hinv2 | lia].
Qed.

(** Walking back along [came_from] reaches the start within as many
    steps as the cost of the cell, without raising. *)
Lemma walk_back_total (s : Search) (fuel : nat) (c : Z * Z) (v : Z) :
  search_inv w h g start s ->
  cost_so_far s !! c = Some v -> v <= Z.of_nat fuel ->
  exists path, walk_back fuel (came_from s) start c = Some (Ok path).
Proof.
  intros Hinv. revert c v. induction fuel as [|fuel IH]; intros c v Hv Hle.
  - cbn. destruct (decide (c = start)) as [-> | Hne]; [eauto |].
    destruct (inv_parent _ _ _ _ _ Hinv c Hne)
      as [[_ Hnone] | (p & vp & vc & _ & Hvp & Hvc & Hlt & _)]; [congruence |].
    pose proof (inv_cost _ _ _ _ _ Hinv p vp Hvp). rewrite Hv in Hvc.
    injection Hvc as <-. lia.
  - cbn [walk_back]. destruct (decide (c = start)) as [-> | Hne]; [eauto |].
    destruct (inv_parent _ _ _ _ _ Hinv c Hne)
      as [[_ Hnone] | (p & vp & vc & Hcf & Hvp & Hvc & Hlt & _)]; [congruence |].
    rewrite Hcf. rewrite Hv in Hvc. injection Hvc as <-.
    destruct (IH p vp Hvp ltac:(lia)) as (path & ->). eauto.
Qed.

Lemma initial_search_inv : search_inv w h g start (initial_search start).
Proof.
  constructor; cbn.
  - intros p c [[= _ <-] | []]. rewrite lookup_singleton_eq. eauto.
  - intros c v Hv. apply lookup_singleton_Some in Hv. destruct Hv as [_ <-].
    pose proof (found_bounds ({[start := 0]} : gmap (Z * Z) Z) (cells w h)). lia.
  - rewrite !lookup_singleton_eq. auto.
  - intros c Hc. left. rewrite !lookup_singleton_ne by congruence. auto.
Qed.

Lemma initial_potential :
  potential w h (initial_search start) <= 1 + 2 * ((w * h) * (14 * (w * h) + 1)).
Proof.
  unfold potential. cbn [frontier initial_search heappush length cost_so_far].
  pose proof dims_nonneg as Hd.
  destruct (potsum_bounds (14 * (w * h) + 1) ({[start := 0]} : gmap (Z * Z) Z)
              (cells w h)) as [_ Hhi]; [lia | |].
  - intros c v Hv. apply lookup_singleton_Some in Hv. lia.
  - rewrite length_cells_shaped in Hhi. lia.
Qed.

(** The whole of [astar_pathfind] between two cells: with a fuel above
    the initial measure and the largest cost it returns a path without
    raising; the path is empty when the goal is not a free cell of the
    grid, and when the loop stops without the goal in [came_from]. *)
Lemma astar_cells_total (fuel : nat) :
  1 + 2 * ((w * h) * (14 * (w * h) + 1)) < Z.of_nat fuel ->
  exists path, astar_cells fuel (Some g) start goal = Some (Ok path) /\
    (start = goal -> path = []) /\
    (~ free_cell w h g goal -> path = []) /\
    (start <> goal ->
     exists st, astar_loop fuel (Some g) goal (initial_search start) = Some (Ok st) /\
       stopped goal st /\ (came_from st !! goal = None -> path = [])).
Proof.
  intros Hfuel. unfold astar_cells.
  destruct (decide (start = goal)) as [Heq | Hne].
  { exists []. split; [reflexivity |]. split; [auto |]. split; [auto | contradiction]. }
  pose proof initial_potential as Hp0.
  destruct (astar_loop_total fuel (initial_search start) Hne initial_search_inv
              ltac:(lia)) as (st & Hloop & Hinv & Hstop).
  rewrite Hloop.
  destruct (came_from st !! goal) as [par |] eqn:Ecf.
  - destruct (inv_parent _ _ _ _ _ Hinv goal ltac:(congruence))
      as [[Hnone _] | (p & vp & vc & _ & _ & Hvc & _ & Hfree)]; [congruence |].
    pose proof (inv_cost _ _ _ _ _ Hinv goal vc Hvc) as Hb.
    pose proof (found_bounds (cost_so_far st) (cells w h)) as Hf.
    rewrite length_cells_shaped in Hf. pose proof dims_nonneg as Hd.
    destruct (walk_back_total st fuel goal vc Hinv Hvc ltac:(nia)) as (path & ->).
    eexists. split; [reflexivity |]. split; [contradiction |].
    split; [intros Hn; contradiction |].
    intros _. exists st. split; [reflexivity |]. split; [exact Hstop | congruence].
  - exists []. split; [reflexivity |]. split; [contradiction |]. split; [auto |].
    intros _. exists st. split; [reflexivity |]. split; [exact Hstop | auto].
Qed.
End Search.

Lemma astar_fuel_above (w h : Z) (g : Grid) :
  shaped w h g ->
  1 + 2 * ((w * h) * (14 * (w * h) + 1)) < Z.of_nat (Tank.astar_fuel (Some g)).
Proof.
  intros [Hlen Hcols]. unfold Tank.astar_fuel.
  assert (Hn : Z.of_nat (length g * length (hd [] g)) = w * h).
  { destruct g as [|col rest].
    - cbn in Hlen. subst w. reflexivity.
    - specialize (Hcols col (or_introl eq_refl)). cbn [hd]. lia. }
  set (n := (length g * length (hd [] g))%nat) in *.
  rewrite <- Hn. nia.
Qed.


Lemma small_grid_shaped : shaped 4 5 small_grid.
Proof.
  split; [reflexivity |].
  intros col Hin. cbn in Hin.
  repeat (destruct Hin as [<- | Hin]; [reflexivity |]). destruct Hin.
Qed.


(** ** Runs of the main loop *)

(** After the end of a match, any number of iterations that start no
    game run without raising and leave every tank and bullet as it is. *)
Lemma ended_run_frozen `{Math} (inps : list Game.Inputs) (g : Game.t) :
  Game.state g <> Game.playing -> no_restart inps ->
  exists g', Game.run inps g = Ok g' /\
    Game.tanks g' = Game.tanks g /\ Game.bullets g' = Game.bullets g /\
    Game.state g' <> Game.playing.
Proof.
  revert g. induction inps as [|inp inps IH]; intros g Hs Hq; cbn [Game.run].
  - exists g. auto.
  - destruct (Game.running g); [| exists g; auto].
    destruct (events_frozen (Game.events inp) g Hs
                (fun o Ho => Hq inp o (or_introl eq_refl) Ho))
      as (g1 & Hg1 & Ht & Hb & Hs1).
    unfold Game.step. rewrite Hg1. cbn [and_then].
    destruct (IH g1 Hs1 (fun i o Hi Ho => Hq i o (or_intror Hi) Ho))
      as (g2 & Hg2 & Ht2 & Hb2 & Hs2).
    destruct (Game.state g1) eqn:Es; [| congruence |]; cbn [and_then];
      (exists g2; split; [exact Hg2 |]; split; [congruence |]; split; [congruence | exact Hs2]).
Qed.

(** A match in the playing phase stays in it through the iterations
    whose clock is before [match_end], and the first iteration whose
    clock has reached it ends the match. *)
Lemma deadline_run `{Math} (pre : list Game.Inputs) (inp : Game.Inputs)
    (g g' : Game.t) (t : Z) :
  Game.state g = Game.playing -> Game.running g = true ->
  Game.match_end g = Some t ->
  eventless (pre ++ [inp]) ->
  (forall i, In i pre -> Game.now i < t) -> t <= Game.now inp ->
  Game.run (pre ++ [inp]) g = Ok g' ->
  Game.state g' = Game.game_over /\
  exists g1, Game.run pre g = Ok g1 /\ Game.state g1 = Game.playing.
Proof.
  revert g. induction pre as [|i pre IH]; intros g Hs Hr He Hq Hbefore Hreach;
    cbn [app Game.run]; rewrite Hr.
  - unfold Game.step. rewrite (Hq inp (or_introl eq_refl)). cbn [for_each and_then].
    rewrite Hs. destruct (Game.play inp g) as [g1 | e] eqn:Ep; cbn [and_then];
      [| discriminate].
    intros [= <-]. apply play_phase in Ep. destruct Ep as (_ & _ & Hst).
    assert (E : (Game.now inp >=? default 0 (Game.match_end g)) = true).
    { rewrite He. cbn. rewrite Z.geb_leb. apply Z.leb_le. lia. }
    rewrite Hst, E. split; [reflexivity |]. exists g. auto.
  - unfold Game.step. rewrite (Hq i (or_introl eq_refl)). cbn [for_each and_then].
    rewrite Hs. destruct (Game.play i g) as [g1 | e] eqn:Ep; cbn [and_then];
      [| discriminate].
    intros Hrun. apply play_phase in Ep. destruct Ep as (Hend & Hrun1 & Hst).
    assert (E : (Game.now i >=? default 0 (Game.match_end g)) = false).
    { rewrite He. cbn. rewrite Z.geb_leb. apply Z.leb_gt.
      apply Hbefore. left. reflexivity. }
    rewrite E in Hst.
    destruct (IH g1 ltac:(congruence) ltac:(congruence) ltac:(congruence)
                (fun j Hj => Hq j (or_intror Hj))
                (fun j Hj => Hbefore j (or_intror Hj)) Hreach Hrun)
      as (Hover & g2 & Hg2 & Hs2).
    split; [exact Hover |]. exists g2. auto.
Qed.

(** ** Worked examples *)

(** The three examples of the state selection: an opponent at distance
    150 in clear sight, at distance 150 behind a tile, and at distance
    500. *)
Example select_attack :
  Tank.select_state (tank_at 300 300 true) (tank_at 450 300 true) [] = Tank.attack.
Proof. vm_compute. reflexivity. Qed.

Example select_pursue_blocked :
  Tank.select_state (tank_at 300 300 true) (tank_at 450 300 true)
    [{| Tile.grid_x := 5; Tile.grid_y := 6; Tile.collidable := true |}] = Tank.pursue.
Proof. vm_compute. reflexivity. Qed.

Example select_patrol_far :
  Tank.select_state (tank_at 300 300 true) (tank_at 800 300 true) [] = Tank.patrol.
Proof. vm_compute. reflexivity. Qed.

(** A move into the border margin and a move onto a tile are rejected. *)
Example move_rejected_border :
  let s := Tank.init 86 112 Tank.RED None false false (86%Q, 112%Q) in
  Tank.move default_screen (-5) 0 [] s = s.
Proof. vm_compute. reflexivity. Qed.

Example move_rejected_tile :
  let s := Tank.init 261 200 Tank.RED None false false (261%Q, 200%Q) in
  Tank.move default_screen 5 0
    [{| Tile.grid_x := 4; Tile.grid_y := 4; Tile.collidable := true |}] s = s.
Proof. vm_compute. reflexivity. Qed.

(** A bullet that flies to the right into a tile turns back and is
    moved two steps away from it. *)
Example bullet_bounces_off_tile :
  let b := Bullet.update (H := example_math) default_screen
             [{| Tile.grid_x := 5; Tile.grid_y := 5; Tile.collidable := true |}]
             (Bullet.init 340 250 0 0) in
  Bullet.angle b = 180 /\ Bullet.bounces b = 1 /\ Bullet.active b = true /\
  (Bullet.x b == 330)%Q.
Proof. vm_compute. repeat split. Qed.

(** Paths on the small grid: around the marked cell, to a marked cell,
    and from a cell to itself. *)
Example path_around :
  astar_cells 100 (Some small_grid) (1, 1) (2, 3) = Some (Ok [(105, 112); (175, 157)]).
Proof. vm_compute. reflexivity. Qed.

Example path_to_marked : astar_cells 100 (Some small_grid) (1, 1) (2, 2) = Some (Ok []).
Proof. vm_compute. reflexivity. Qed.

Example path_to_self : astar_cells 0 (Some small_grid) (1, 1) (1, 1) = Some (Ok []).
Proof. vm_compute. reflexivity. Qed.

(** On the open default grid the path between the two spawn cells is cut
    to its first ten waypoints. *)
Example path_truncated :
  exists g path, Game.create_grid_map default_screen [] = Ok g /\
    astar_cells 1000 (Some g) (2, 2) (24, 19) = Some (Ok path) /\
    length path = 10%nat /\ head path = Some (245, 157).
Proof.
  destruct (Game.create_grid_map default_screen []) as [g | e] eqn:E;
    [| vm_compute in E; discriminate].
  vm_compute in E. injection E as <-.
  eexists _, _. split; [reflexivity |]. split; [vm_compute; reflexivity |].
  split; reflexivity.
Qed.

(** * Further properties *)

(** ** Rotation and shooting *)

(** X1. [rotate] leaves the heading in [0, 360), and a step to the left
    undoes a step to the right and conversely. *)
Theorem rotate_wraps (s : Tank.t) (direction : Z) :
  0 <= Tank.angle (Tank.rotate direction s) < 360 /\
  (0 <= Tank.angle s < 360 ->
   Tank.rotate (-1) (Tank.rotate 1 s) = s /\ Tank.rotate 1 (Tank.rotate (-1) s) = s).
Proof.
  split.
  - unfold Tank.rotate. cbn. apply Z.mod_pos_bound. lia.
  - intros Ha. unfold Tank.rotate, ROTATION_SPEED.
    assert (E1 : ((Tank.angle s + 1 * 2) mod 360 + -1 * 2) mod 360 = Tank.angle s).
    { rewrite Zplus_mod_idemp_l.
      replace (Tank.angle s + 1 * 2 + -1 * 2) with (Tank.angle s) by lia.
      apply Z.mod_small, Ha. }
    assert (E2 : ((Tank.angle s + -1 * 2) mod 360 + 1 * 2) mod 360 = Tank.angle s).
    { rewrite Zplus_mod_idemp_l.
      replace (Tank.angle s + -1 * 2 + 1 * 2) with (Tank.angle s) by lia.
      apply Z.mod_small, Ha. }
    destruct s; cbn in *. rewrite E1, E2. split; reflexivity.
Qed.

Lemma rotate_wraps_witness :
  Tank.rotate (-1) (Tank.rotate 1 (tank_at 300 300 true)) = tank_at 300 300 true.
Proof.
  apply (rotate_wraps (tank_at 300 300 true) 1). cbn. lia.
Defined.

(** X2. [shoot] fires only with a cooldown that has run out and fewer
    than three bullets in the list; the new bullet is a new object of
    the store, active, without bounces, owned by the tank and one tank
    size ahead of it, and the cooldown is set to 30. A second call right
    after the first never fires, and a list of at most three bullets
    stays so. *)
Theorem shoot_once `{Math} (me : nat) (s : Tank.t) (h : Heap) :
  let '(s1, h1) := Tank.shoot me s h in
  ((Tank.shoot_cooldown s <= 0)%Q /\ (length (Tank.bullets s) < 3)%nat ->
     Tank.bullets s1 = Tank.bullets s ++ [length h] /\
     h1 = h ++ [Bullet.init (Tank.x s + cos_deg (Tank.angle s) * 30)
                  (Tank.y s - sin_deg (Tank.angle s) * 30) (Tank.angle s) me] /\
     Tank.shoot_cooldown s1 = 30%Q) /\
  (~ ((Tank.shoot_cooldown s <= 0)%Q /\ (length (Tank.bullets s) < 3)%nat) ->
     s1 = s /\ h1 = h) /\
  Tank.shoot me s1 h1 = (s1, h1) /\
  ((length (Tank.bullets s) <= 3)%nat -> (length (Tank.bullets s1) <= 3)%nat) /\
  (forall r b, h !! r = Some b -> h1 !! r = Some b).
Proof.
  unfold Tank.shoot.
  destruct (Qle_bool (Tank.shoot_cooldown s) 0) eqn:Ecd; cbn [andb].
  - apply Qle_bool_iff in Ecd.
    destruct (length (Tank.bullets s) <? 3)%nat eqn:Elen.
    + apply Nat.ltb_lt in Elen. cbn.
      split; [auto |]. split; [tauto |]. split; [reflexivity |].
      split; [rewrite length_app; cbn; lia |].
      intros r b Hr. apply lookup_app_l_Some, Hr.
    + apply Nat.ltb_ge in Elen.
      split; [intros [_ Hl]; lia |]. split; [auto |].
      rewrite (proj2 (Qle_bool_iff _ _) Ecd).
      rewrite (proj2 (Nat.ltb_ge _ _) Elen). cbn.
      split; [reflexivity |]. split; auto.
  - assert (Hn : ~ (Tank.shoot_cooldown s <= 0)%Q).
    { intros Hle. apply Qle_bool_iff in Hle. congruence. }
    split; [intros [Hle _]; contradiction |]. split; [auto |].
    rewrite Ecd. cbn. split; [reflexivity |]. split; auto.
Qed.

(** ** Obstacles *)

Lemma first_collision_filter (r : Rect) (tiles : list Tile.t) :
  first_collision r (List.filter Tile.collides tiles) = first_collision r tiles.
Proof.
  induction tiles as [|tile rest IH]; cbn; [reflexivity |].
  destruct (Tile.collides tile) eqn:Ec; cbn; [rewrite Ec; cbn |]; rewrite ?IH; reflexivity.
Qed.

Lemma line_of_sight_clear (s target : Tank.t) (tiles : list Tile.t) :
  Tank.has_line_of_sight s target tiles = true <->
  forall i, 0 <= i < 20 ->
    clear_of (Rect_of (Tank.x s + (Tank.x target - Tank.x s) / 20 * inject_Z i - 5)
                      (Tank.y s + (Tank.y target - Tank.y s) / 20 * inject_Z i - 5) 10 10)
             tiles.
Proof.
  unfold Tank.has_line_of_sight. cbv zeta. change (inject_Z 20) with 20%Q.
  rewrite forallb_forall. split.
  - intros Hall i Hi. apply first_collision_none.
    specialize (Hall i (proj2 (In_range 20 i) Hi)). cbv beta in Hall.
    destruct (first_collision _ tiles); [discriminate | reflexivity].
  - intros Hall i Hi. apply In_range in Hi. specialize (Hall i Hi).
    apply first_collision_none in Hall. cbv beta. rewrite Hall. reflexivity.
Qed.

(** X3. Tiles that are not collidable play no part: the tick of a
    bullet, a move of a tank and the line of sight are the same with and
    without them. *)
Theorem uncollidable_tiles_ignored `{Math} (scr : Screen) (tiles : list Tile.t)
    (b : Bullet.t) (s target : Tank.t) (dx dy : Q) :
  let solid := List.filter Tile.collides tiles in
  Bullet.update scr solid b = Bullet.update scr tiles b /\
  Tank.move scr dx dy solid s = Tank.move scr dx dy tiles s /\
  Tank.has_line_of_sight s target solid = Tank.has_line_of_sight s target tiles.
Proof.
  intros solid. subst solid. split; [| split].
  - unfold Bullet.update. rewrite first_collision_filter. reflexivity.
  - unfold Tank.move, Tank.can_move. rewrite first_collision_filter. reflexivity.
  - unfold Tank.has_line_of_sight. cbv zeta.
    induction (range 20) as [|i l IH]; cbn [forallb]; [reflexivity |].
    rewrite first_collision_filter, IH. reflexivity.
Qed.

(** X4. The line of sight is lost by adding tiles, never won: a sight
    that is clear over a list of tiles is clear over every list whose
    tiles are among them, the empty list included. *)
Theorem sight_shrinks_with_tiles (s target : Tank.t) (tiles more : list Tile.t) :
  (forall tile, In tile tiles -> In tile more) ->
  Tank.has_line_of_sight s target more = true ->
  Tank.has_line_of_sight s target tiles = true /\
  Tank.has_line_of_sight s target [] = true.
Proof.
  intros Hsub Hmore. rewrite line_of_sight_clear in Hmore. split.
  - apply line_of_sight_clear. intros i Hi tile Hin Hc.
    apply (Hmore i Hi tile (Hsub tile Hin) Hc).
  - apply line_of_sight_clear. intros i Hi tile [].
Qed.

Lemma sight_shrinks_with_tiles_witness :
  Tank.has_line_of_sight (tank_at 300 300 true) (tank_at 450 300 true)
    [{| Tile.grid_x := 9; Tile.grid_y := 9; Tile.collidable := true |}] = true.
Proof.
  apply (sight_shrinks_with_tiles (tank_at 300 300 true) (tank_at 450 300 true)
           [{| Tile.grid_x := 9; Tile.grid_y := 9; Tile.collidable := true |}]
           [{| Tile.grid_x := 9; Tile.grid_y := 9; Tile.collidable := true |};
            {| Tile.grid_x := 12; Tile.grid_y := 2; Tile.collidable := true |}]).
  - intros tile Hin. left. destruct Hin as [<- | []]. reflexivity.
  - vm_compute. reflexivity.
Defined.

(** ** The tick of a bullet *)

(** X5. A tick never changes the owner of a bullet and counts at most
    one bounce, and only for an active bullet whose moved bounding box
    passes a screen edge or meets a collidable tile. Without such a
    contact the bullet is at the moved position with its heading, and is
    active exactly when that position is on the screen. *)
Theorem tick_counts_contacts `{Math} (scr : Screen) (tiles : list Tile.t) (b : Bullet.t) :
  let b' := Bullet.update scr tiles b in
  let contact :=
    crosses_x scr (moved_x b) \/ crosses_y scr (moved_y b) \/
    ~ clear_of (moved_rect b) tiles in
  Bullet.owner b' = Bullet.owner b /\
  (Bullet.bounces b' = Bullet.bounces b \/
   (Bullet.bounces b' = Bullet.bounces b + 1 /\ Bullet.active b = true /\ contact)) /\
  (Bullet.active b = true -> ~ contact ->
   Bullet.x b' = moved_x b /\ Bullet.y b' = moved_y b /\
   Bullet.angle b' = Bullet.angle b /\ Bullet.bounces b' = Bullet.bounces b /\
   Bullet.active b' = negb (Bullet.outside scr (moved_x b) (moved_y b))).
Proof.
  intros b' contact. subst b' contact. unfold Bullet.update.
  fold (moved_x b) (moved_y b). fold (moved_rect b).
  destruct (Bullet.active b) eqn:Ea; cbn [negb].
  2:{ split; [reflexivity |]. split; [left; reflexivity | discriminate]. }
  destruct (Bullet.hits_x scr (moved_x b) || Bullet.hits_y scr (moved_y b)) eqn:Eh.
  - apply orb_true_iff in Eh. rewrite hits_x_spec, hits_y_spec in Eh.
    destruct (Bullet.bounces b + 1 >? Bullet.max_bounces); cbn;
      (split; [reflexivity |]; split; [right; tauto | intros _ Hn; tauto]).
  - apply orb_false_iff in Eh. destruct Eh as [Ex Ey].
    destruct (first_collision (moved_rect b) tiles) as [tile |] eqn:Ef.
    + assert (Hnc : ~ clear_of (moved_rect b) tiles).
      { intros Hc. apply first_collision_none in Hc. congruence. }
      destruct (Bullet.bounces b + 1 >? Bullet.max_bounces); cbn;
        (split; [reflexivity |]; split; [right; tauto | intros _ Hn; tauto]).
    + cbn. split; [reflexivity |]. split; [left; reflexivity |]. auto.
Qed.

(** X6. Of the tiles that the moved bounding box meets, the first of
    the list alone decides the tick: the tiles behind it can be taken
    away. *)
Theorem first_tile_decides `{Math} (scr : Screen) (pre post : list Tile.t)
    (tile : Tile.t) (b : Bullet.t) :
  clear_of (moved_rect b) pre ->
  Tile.collides tile = true ->
  colliderect (moved_rect b) (Tile.rect tile) = true ->
  Bullet.update scr (pre ++ tile :: post) b = Bullet.update scr [tile] b.
Proof.
  intros Hpre Hc Hr.
  assert (Hfirst : forall l, first_collision (moved_rect b) (pre ++ tile :: l) = Some tile).
  { intros l. induction pre as [|p pre IH]; cbn.
    - rewrite Hc, Hr. reflexivity.
    - assert (Hp : clear_of (moved_rect b) pre).
      { intros t Hin Ht. apply Hpre; [right; exact Hin | exact Ht]. }
      destruct (Tile.collides p) eqn:Ep; cbn; [| apply IH, Hp].
      rewrite (Hpre p (or_introl eq_refl) Ep). apply IH, Hp. }
  unfold Bullet.update. fold (moved_x b) (moved_y b). fold (moved_rect b).
  rewrite (Hfirst post). change [tile] with ([] ++ [tile]).
  cbn [app first_collision]. rewrite Hc, Hr. reflexivity.
Qed.

Lemma first_tile_decides_witness :
  let near := {| Tile.grid_x := 5; Tile.grid_y := 5; Tile.collidable := true |} in
  let far := {| Tile.grid_x := 9; Tile.grid_y := 9; Tile.collidable := true |} in
  Bullet.update (H := example_math) default_screen [far; near; far]
    (Bullet.init 340 250 0 0)
  = Bullet.update (H := example_math) default_screen [near] (Bullet.init 340 250 0 0).
Proof.
  intros near far.
  apply (first_tile_decides (H := example_math) default_screen [far] [far] near
           (Bullet.init 340 250 0 0)).
  - intros tile [<- | []] _. vm_compute. reflexivity.
  - reflexivity.
  - vm_compute. reflexivity.
Defined.

(** ** What a step of a tank keeps *)

Lemma same_role_refl (s : Tank.t) : same_role s s.
Proof. unfold same_role. auto 10. Qed.

Lemma same_role_trans (s1 s2 s3 : Tank.t) :
  same_role s1 s2 -> same_role s2 s3 -> same_role s1 s3.
Proof. unfold same_role. intuition congruence. Qed.

Lemma move_same_role (scr : Screen) (dx dy : Q) (tiles : list Tile.t) (s : Tank.t) :
  same_role s (Tank.move scr dx dy tiles s) /\
  Tank.bullets (Tank.move scr dx dy tiles s) = Tank.bullets s /\
  Tank.angle (Tank.move scr dx dy tiles s) = Tank.angle s.
Proof.
  unfold Tank.move. destruct (Tank.can_move _ _ _ _); cbn;
    (split; [apply same_role_refl || (unfold same_role; cbn; auto 10) | auto]).
Qed.

Lemma rotate_same_role (d : Z) (s : Tank.t) :
  same_role s (Tank.rotate d s) /\
  Tank.bullets (Tank.rotate d s) = Tank.bullets s /\
  Tank.x (Tank.rotate d s) = Tank.x s /\ Tank.y (Tank.rotate d s) = Tank.y s.
Proof. unfold Tank.rotate, same_role. cbn. auto 12. Qed.

Lemma move_towards_same_role `{Math} (scr : Screen) (p : Z * Z) (tiles : list Tile.t)
    (s : Tank.t) :
  same_role s (Tank.move_towards scr p tiles s) /\
  Tank.bullets (Tank.move_towards scr p tiles s) = Tank.bullets s.
Proof.
  unfold Tank.move_towards. destruct (Qltb 5 _).
  - destruct (rotate_same_role (if Qltb 0 (Tank.angle_diff_to
        (atan2_deg (Tank.y s - inject_Z p.2) (inject_Z p.1 - Tank.x s)) s)
        then 1 else -1) s) as (Hr & Hb & _). auto.
  - destruct (move_same_role scr (cos_deg (Tank.angle s) * inject_Z Tank.speed)
                (- sin_deg (Tank.angle s) * inject_Z Tank.speed) tiles s) as (Hr & Hb & _).
    auto.
Qed.

Lemma shoot_effect `{Math} (me : nat) (s : Tank.t) (h : Heap) :
  same_role s (Tank.shoot me s h).1 /\
  at_most_one_shot me (Tank.bullets s) h
    (Tank.bullets (Tank.shoot me s h).1) (Tank.shoot me s h).2 /\
  Tank.x (Tank.shoot me s h).1 = Tank.x s /\ Tank.y (Tank.shoot me s h).1 = Tank.y s.
Proof.
  unfold Tank.shoot. destruct (Qle_bool (Tank.shoot_cooldown s) 0); cbn [andb].
  - destruct (length (Tank.bullets s) <? 3)%nat eqn:El; cbn.
    + apply Nat.ltb_lt in El. split; [unfold same_role; cbn; auto 10 |].
      split; [| auto]. right. eexists. split; [reflexivity |].
      split; [reflexivity |]. cbn. auto.
    + split; [apply same_role_refl |]. split; [left; auto | auto].
  - cbn. split; [apply same_role_refl |]. split; [left; auto | auto].
Qed.

(** What [update_ai] does to the tank besides steering it: the role is
    kept and at most one bullet is fired. *)
Lemma update_ai_effect `{Math} (scr : Screen) (me : nat) (tiles : list Tile.t)
    (target : option Tank.t) (grid_map : option Grid) (rnd : Draws)
    (s s' : Tank.t) (h h' : Heap) :
  Tank.update_ai scr me tiles target grid_map rnd s h = Ok (s', h') ->
  same_role s s' /\ at_most_one_shot me (Tank.bullets s) h (Tank.bullets s') h'.
Proof.
  unfold Tank.update_ai. destruct target as [tg |]; [| discriminate].
  set (s0 := if negb (Tank.alive tg) then _ else s).
  assert (H0 : same_role s s0 /\ Tank.bullets s0 = Tank.bullets s).
  { subst s0. destruct (negb (Tank.alive tg)); cbn;
      (split; [unfold same_role; cbn; auto 10 | reflexivity]). }
  clearbody s0. destruct H0 as [Hr0 Hb0].
  set (s1 := Tank.set_ai s0 _ _ _ _).
  assert (H1 : same_role s s1 /\ Tank.bullets s1 = Tank.bullets s).
  { split; [| exact Hb0]. eapply same_role_trans; [exact Hr0 |].
    unfold same_role. cbn. auto 10. }
  clearbody s1. clear s0 Hr0 Hb0. destruct H1 as [Hr1 Hb1].
  destruct (Tank.ai_state s1).
  - (* patrol *)
    destruct (match Tank.patrol_point s1 with Some _ => _ | None => _ end) as [pp | e];
      cbn [and_then]; [| discriminate].
    intros [= <- <-].
    destruct (move_towards_same_role scr pp tiles
                (Tank.set_ai s1 Tank.patrol (Tank.ai_path s1) (Some pp)
                   (Tank.ai_shoot_timer s1))) as [Hr Hb].
    split; [| left; split; [rewrite Hb; exact Hb1 | reflexivity]].
    eapply same_role_trans; [exact Hr1 |]. eapply same_role_trans; [| exact Hr].
    unfold same_role. cbn. auto 10.
  - (* pursue *)
    destruct (if recalc rnd then _ else _) as [path | e]; cbn [and_then]; [| discriminate].
    destruct path as [| target_pos rest].
    + intros [= <- <-]. split; [| left; auto].
      eapply same_role_trans; [exact Hr1 |]. unfold same_role. cbn. auto 10.
    + destruct (move_towards_same_role scr target_pos tiles
                  (Tank.set_ai s1 Tank.pursue (target_pos :: rest) (Tank.patrol_point s1)
                     (Tank.ai_shoot_timer s1))) as [Hr Hb].
      assert (Hr' : same_role s (Tank.move_towards scr target_pos tiles
                  (Tank.set_ai s1 Tank.pursue (target_pos :: rest) (Tank.patrol_point s1)
                     (Tank.ai_shoot_timer s1)))).
      { eapply same_role_trans; [exact Hr1 |]. eapply same_role_trans; [| exact Hr].
        unfold same_role. cbn. auto 10. }
      destruct (Tank.dist_lt _ _ _ _ _); intros [= <- <-].
      * split; [| left; cbn; split; [rewrite Hb; exact Hb1 | reflexivity]].
        eapply same_role_trans; [exact Hr' |]. unfold same_role. cbn. auto 10.
      * split; [exact Hr' | left; split; [rewrite Hb; exact Hb1 | reflexivity]].
  - (* attack *)
    set (s2 := if Qltb 5 _ then _ else s1).
    assert (H2 : same_role s s2 /\ Tank.bullets s2 = Tank.bullets s).
    { subst s2. destruct (Qltb 5 _); [| auto].
      match goal with |- context [Tank.rotate ?d s1] =>
        destruct (rotate_same_role d s1) as (Hr & Hb & _) end.
      split; [eapply same_role_trans; eassumption | congruence]. }
    clearbody s2. destruct H2 as [Hr2 Hb2].
    destruct (Qltb (Qabs _) 15); [| intros [= <- <-]; split; [exact Hr2 | left; auto]].
    destruct (Qltb 30 _).
    + destruct (shoot_effect me s2 h) as (Hrs & Hshot & _).
      destruct (Tank.shoot me s2 h) as [s3 h3]. cbn [fst snd] in *.
      intros [= <- <-]. split.
      * eapply same_role_trans; [exact Hr2 |]. eapply same_role_trans; [exact Hrs |].
        unfold same_role. cbn. auto 10.
      * cbn. rewrite <- Hb2. exact Hshot.
    + intros [= <- <-]. split; [| left; cbn; auto].
      eapply same_role_trans; [exact Hr2 |]. unfold same_role. cbn. auto 10.
Qed.

Lemma In_remove_first (r x : nat) (l : list nat) :
  NoDup l -> (In x (remove_first r l) <-> In x l /\ x <> r).
Proof.
  induction l as [|a l IH]; cbn; [tauto |].
  intros Hnd. apply NoDup_cons in Hnd. destruct Hnd as [Ha Hnd].
  rewrite list_elem_of_In in Ha.
  destruct (Nat.eqb a r) eqn:E.
  - apply Nat.eqb_eq in E. subst a. split.
    + intros Hx. split; [auto |]. intros ->. contradiction.
    + intros [[-> | Hx] Hne]; [contradiction | exact Hx].
  - apply Nat.eqb_neq in E. cbn. rewrite (IH Hnd). split.
    + intros [-> | [Hx Hne]]; auto.
    + intros [[-> | Hx] Hne]; auto.
Qed.

Lemma NoDup_remove_first (r : nat) (l : list nat) : NoDup l -> NoDup (remove_first r l).
Proof.
  induction l as [|a l IH]; cbn; [auto |].
  intros Hnd. pose proof Hnd as Hnd0. apply NoDup_cons in Hnd. destruct Hnd as [Ha Hnd].
  destruct (Nat.eqb a r); [exact Hnd |].
  apply NoDup_cons. split; [| apply IH, Hnd].
  rewrite list_elem_of_In in *. intros Hin. apply In_remove_first in Hin; tauto.
Qed.

Lemma length_remove_first (r : nat) (l : list nat) :
  (length (remove_first r l) <= length l)%nat.
Proof.
  induction l as [|a l IH]; cbn; [lia |]. destruct (Nat.eqb a r); cbn; lia.
Qed.

(** The loop over the bullets of a tank: every bullet of the list is
    updated once, no other bullet of the store is touched, and the list
    loses exactly its bullets that are inactive after their update. *)
Lemma update_bullets_spec `{Math} (scr : Screen) (tiles : list Tile.t) (refs : list nat) :
  NoDup refs -> forall (bs : list nat) (h : Heap),
  NoDup bs ->
  let '(bs', h') := Tank.update_bullets scr tiles refs bs h in
  length h' = length h /\ NoDup bs' /\ (length bs' <= length bs)%nat /\
  (forall r, In r refs -> h' !! r = Bullet.update scr tiles <$> h !! r) /\
  (forall r, ~ In r refs -> h' !! r = h !! r) /\
  (forall r, In r bs' <->
     In r bs /\ ~ (In r refs /\
                   exists b, h !! r = Some b /\
                     Bullet.active (Bullet.update scr tiles b) = false)).
Proof.
  induction refs as [|r0 rest IH]; intros Hnd bs h Hbs; cbn [Tank.update_bullets].
  - split; [reflexivity |]. split; [exact Hbs |]. split; [lia |].
    split; [intros r [] |]. split; [reflexivity |].
    intros r. split; [intros Hb; split; [exact Hb | intros [[] _]] | tauto].
  - apply NoDup_cons in Hnd. destruct Hnd as [Hr0 Hnd]. rewrite list_elem_of_In in Hr0.
    destruct (h !! r0) as [bullet |] eqn:E0.
    + set (bs1 := if Bullet.active (Bullet.update scr tiles bullet) then bs
                  else remove_first r0 bs).
      assert (Hbs1 : NoDup bs1).
      { subst bs1. destruct (Bullet.active _); [exact Hbs | apply NoDup_remove_first, Hbs]. }
      specialize (IH Hnd bs1 (<[r0 := Bullet.update scr tiles bullet]> h) Hbs1).
      destruct (Tank.update_bullets scr tiles rest bs1 _) as [bs' h'].
      destruct IH as (Hlen & Hnd' & Hle & Hin & Hout & Hmem).
      rewrite length_insert in Hlen.
      assert (Hlt : (r0 < length h)%nat) by (eapply lookup_lt_Some, E0).
      split; [exact Hlen |]. split; [exact Hnd' |].
      split; [subst bs1; destruct (Bullet.active _);
              [lia | pose proof (length_remove_first r0 bs); lia] |].
      split; [| split].
      * intros r [<- | Hr].
        -- rewrite (Hout r0 Hr0), list_lookup_insert_eq by exact Hlt.
           rewrite E0. reflexivity.
        -- rewrite (Hin r Hr), list_lookup_insert_ne; [reflexivity |].
           intros ->. contradiction.
      * intros r Hr. rewrite Hout by (intros Hx; apply Hr; right; exact Hx).
        apply list_lookup_insert_ne. intros ->. apply Hr. left. reflexivity.
      * intros r. rewrite Hmem. subst bs1.
        assert (Hlook : In r rest ->
                  <[r0 := Bullet.update scr tiles bullet]> h !! r = h !! r).
        { intros Hr. apply list_lookup_insert_ne. intros ->. contradiction. }
        destruct (Bullet.active (Bullet.update scr tiles bullet)) eqn:Ea.
        -- split.
           ++ intros [Hb Hn]. split; [exact Hb |].
              intros [[<- | Hr] (b & Hb' & Hoff)].
              ** rewrite E0 in Hb'. injection Hb' as <-. congruence.
              ** apply Hn. split; [exact Hr |]. exists b. rewrite (Hlook Hr). auto.
           ++ intros [Hb Hn]. split; [exact Hb |].
              intros [Hr (b & Hb' & Hoff)]. apply Hn. split; [right; exact Hr |].
              exists b. rewrite (Hlook Hr) in Hb'. auto.
        -- rewrite (In_remove_first r0 r bs Hbs). split.
           ++ intros [[Hb Hne] Hn]. split; [exact Hb |].
              intros [[Heq | Hr] (b & Hb' & Hoff)]; [congruence |].
              apply Hn. split; [exact Hr |]. exists b. rewrite (Hlook Hr). auto.
           ++ intros [Hb Hn]. split; [split; [exact Hb |] |].
              ** intros ->. apply Hn. split; [left; reflexivity |]. eauto.
              ** intros [Hr (b & Hb' & Hoff)]. apply Hn. split; [right; exact Hr |].
                 exists b. rewrite (Hlook Hr) in Hb'. auto.
    + specialize (IH Hnd bs h Hbs).
      destruct (Tank.update_bullets scr tiles rest bs h) as [bs' h'].
      destruct IH as (Hlen & Hnd' & Hle & Hin & Hout & Hmem).
      split; [exact Hlen |]. split; [exact Hnd' |]. split; [exact Hle |].
      split; [| split].
      * intros r [<- | Hr]; [| apply Hin, Hr]. rewrite (Hout r0 Hr0), E0. reflexivity.
      * intros r Hr. apply Hout. intros Hx. apply Hr. right. exact Hx.
      * intros r. rewrite Hmem. split.
        -- intros [Hb Hn]. split; [exact Hb |].
           intros [[<- | Hr] (b & Hb' & Hoff)]; [congruence |]. apply Hn. eauto.
        -- intros [Hb Hn]. split; [exact Hb |].
           intros [Hr Hex]. apply Hn. split; [right; exact Hr | exact Hex].
Qed.

(** The branch of [update] for a tank steered by keys: with its controls
    at hand it does not raise, keeps the role and the bullets and fires
    nothing; the tank moves along [(dx, dy)] of the pressed keys. *)
Lemma keys_effect `{Math} (scr : Screen) (keys : Key -> bool) (tiles : list Tile.t)
    (s : Tank.t) (h : Heap) (c : Tank.Controls) :
  Tank.controls s = Some c ->
  exists s',
    (let! up := Tank.pressed keys s Tank.k_up in
     let '(dx, dy) :=
       if up then ((cos_deg (Tank.angle s) * inject_Z Tank.speed)%Q,
                   (- sin_deg (Tank.angle s) * inject_Z Tank.speed)%Q)
       else (0%Q, 0%Q) in
     let! down := Tank.pressed keys s Tank.k_down in
     let '(dx, dy) :=
       if down then ((- cos_deg (Tank.angle s) * inject_Z Tank.speed)%Q,
                     (sin_deg (Tank.angle s) * inject_Z Tank.speed)%Q)
       else (dx, dy) in
     let s1 :=
       if negb (Qeq_bool dx 0) || negb (Qeq_bool dy 0)
       then Tank.move scr dx dy tiles s else s in
     let! lft := Tank.pressed keys s1 Tank.k_left in
     let s2 := if lft then Tank.rotate 1 s1 else s1 in
     let! rgt := Tank.pressed keys s2 Tank.k_right in
     let s3 := if rgt then Tank.rotate (-1) s2 else s2 in
     Ok (s3, h)) = Ok (s', h) /\
    same_role s s' /\ Tank.bullets s' = Tank.bullets s /\
    (keys (Tank.k_up c) = false -> keys (Tank.k_down c) = false ->
     Tank.x s' = Tank.x s /\ Tank.y s' = Tank.y s) /\
    (keys (Tank.k_left c) = false -> keys (Tank.k_right c) = false ->
     Tank.angle s' = Tank.angle s).
Proof.
  intros Hc. unfold Tank.pressed at 1 2. rewrite Hc. cbn [and_then].
  set (d1 := if keys (Tank.k_up c) then _ else (0%Q, 0%Q)).
  destruct d1 as [dx1 dy1] eqn:Ed1.
  set (d2 := if keys (Tank.k_down c) then _ else (dx1, dy1)).
  destruct d2 as [dx dy] eqn:Ed2.
  set (s1 := if negb (Qeq_bool dx 0) || negb (Qeq_bool dy 0) then _ else s).
  assert (H1 : same_role s s1 /\ Tank.bullets s1 = Tank.bullets s /\
               Tank.angle s1 = Tank.angle s /\
               (keys (Tank.k_up c) = false -> keys (Tank.k_down c) = false ->
                Tank.x s1 = Tank.x s /\ Tank.y s1 = Tank.y s)).
  { subst s1. destruct (negb (Qeq_bool dx 0) || negb (Qeq_bool dy 0)) eqn:Em.
    - destruct (move_same_role scr dx dy tiles s) as (Hr & Hb & Ha).
      split; [exact Hr |]. split; [exact Hb |]. split; [exact Ha |].
      intros Hu Hd. subst d1 d2. rewrite Hu in Ed1. injection Ed1 as <- <-.
      rewrite Hd in Ed2. injection Ed2 as <- <-. discriminate Em.
    - split; [apply same_role_refl | auto]. }
  clearbody s1. destruct H1 as (Hr1 & Hb1 & Ha1 & Hp1).
  assert (Hc1 : Tank.controls s1 = Some c) by (destruct Hr1 as (_ & _ & -> & _); exact Hc).
  unfold Tank.pressed at 1. rewrite Hc1. cbn [and_then].
  set (s2 := if keys (Tank.k_left c) then Tank.rotate 1 s1 else s1).
  assert (H2 : same_role s1 s2 /\ Tank.bullets s2 = Tank.bullets s1 /\
               Tank.x s2 = Tank.x s1 /\ Tank.y s2 = Tank.y s1 /\
               (keys (Tank.k_left c) = false -> Tank.angle s2 = Tank.angle s1)).
  { subst s2. destruct (keys (Tank.k_left c)).
    - destruct (rotate_same_role 1 s1) as (Hr & Hb & Hx & Hy).
      split; [exact Hr |]. repeat split; auto. discriminate.
    - split; [apply same_role_refl | auto]. }
  clearbody s2. destruct H2 as (Hr2 & Hb2 & Hx2 & Hy2 & Ha2).
  assert (Hc2 : Tank.controls s2 = Some c) by (destruct Hr2 as (_ & _ & -> & _); exact Hc1).
  unfold Tank.pressed. rewrite Hc2. cbn [and_then].
  eexists. split; [reflexivity |].
  destruct (keys (Tank.k_right c)).
  - destruct (rotate_same_role (-1) s2) as (Hr & Hb & Hx & Hy).
    split; [eapply same_role_trans; [exact Hr1 |]; eapply same_role_trans; eassumption |].
    split; [congruence |]. split; [| discriminate].
    intros Hu Hd. destruct (Hp1 Hu Hd). split; congruence.
  - split; [eapply same_role_trans; eassumption |]. split; [congruence |].
    split; [intros Hu Hd; destruct (Hp1 Hu Hd); split; congruence |].
    intros Hl _. rewrite (Ha2 Hl). exact Ha1.
Qed.

(** What [update] does to a living tank: it keeps the role, fires at
    most one bullet and then runs the loop over the bullets. *)
Lemma update_effect `{Math} (scr : Screen) (me : nat) (keys : Key -> bool)
    (tiles : list Tile.t) (target : option Tank.t) (grid_map : option Grid)
    (rnd : Draws) (s s' : Tank.t) (h h' : Heap) :
  Tank.alive s = true ->
  Tank.update scr me keys tiles target grid_map rnd s h = Ok (s', h') ->
  same_role s s' /\
  exists bs1 h1, at_most_one_shot me (Tank.bullets s) h bs1 h1 /\
    (Tank.bullets s', h') = Tank.update_bullets scr tiles bs1 bs1 h1.
Proof.
  intros Halive. unfold Tank.update. rewrite Halive. cbn [negb].
  set (s0 := if Qltb 0 (Tank.shoot_cooldown s) then _ else s).
  assert (H0 : same_role s s0 /\ Tank.bullets s0 = Tank.bullets s).
  { subst s0. destruct (Qltb 0 _); [| split; [apply same_role_refl | reflexivity]].
    split; [unfold same_role; cbn; auto 10 | reflexivity]. }
  clearbody s0. destruct H0 as [Hr0 Hb0]. cbv zeta.
  destruct (Tank.is_ai s0).
  - destruct (Tank.update_ai scr me tiles target grid_map rnd s0 h) as [[s1 h1] | e] eqn:Eai;
      cbn [and_then]; [| discriminate].
    apply update_ai_effect in Eai. destruct Eai as [Hr1 Hshot].
    destruct (Tank.update_bullets scr tiles (Tank.bullets s1) (Tank.bullets s1) h1)
      as [bs h2] eqn:Eub.
    intros [= <- <-]. split.
    + eapply same_role_trans; [exact Hr0 |]. eapply same_role_trans; [exact Hr1 |].
      unfold same_role. cbn. auto 10.
    + exists (Tank.bullets s1), h1. rewrite <- Hb0. split; [exact Hshot |].
      cbn. symmetry. exact Eub.
  - destruct (Tank.controls s0) as [c |] eqn:Ec.
    + destruct (keys_effect scr keys tiles s0 h c Ec) as (s1 & Hk & Hr1 & Hb1 & _).
      cbv zeta in Hk. rewrite Hk. cbn [and_then].
      destruct (Tank.update_bullets scr tiles (Tank.bullets s1) (Tank.bullets s1) h)
        as [bs h2] eqn:Eub.
      intros [= <- <-]. split.
      * eapply same_role_trans; [exact Hr0 |]. eapply same_role_trans; [exact Hr1 |].
        unfold same_role. cbn. auto 10.
      * exists (Tank.bullets s1), h. split; [left; split; [congruence | reflexivity] |].
        cbn. symmetry. exact Eub.
    + unfold Tank.pressed at 1. rewrite Ec. cbn [and_then]. discriminate.
Qed.

(** X7. After its update a living tank holds each of its bullets once
    and only bullets that are active in the store, when it held each
    bullet once and all of them in the store before; the store keeps its
    bullets in place and grows by at most the one the tank has fired. *)
Theorem update_keeps_active_bullets `{Math} (scr : Screen) (me : nat) (keys : Key -> bool)
    (tiles : list Tile.t) (target : option Tank.t) (grid_map : option Grid)
    (rnd : Draws) (s s' : Tank.t) (h h' : Heap) :
  Tank.alive s = true ->
  NoDup (Tank.bullets s) ->
  (forall r, In r (Tank.bullets s) -> (r < length h)%nat) ->
  Tank.update scr me keys tiles target grid_map rnd s h = Ok (s', h') ->
  NoDup (Tank.bullets s') /\
  (forall r, In r (Tank.bullets s') ->
     exists b, h' !! r = Some b /\ Bullet.active b = true) /\
  (length h <= length h' <= length h + 1)%nat /\
  (forall r b, h !! r = Some b -> ~ In r (Tank.bullets s) -> h' !! r = Some b).
Proof.
  intros Halive Hnd Hvalid Hup.
  destruct (update_effect _ _ _ _ _ _ _ _ _ _ _ Halive Hup) as (_ & bs1 & h1 & Hshot & Hub).
  assert (Hwf : NoDup bs1 /\ (forall r, In r bs1 -> (r < length h1)%nat) /\
                (length h <= length h1 <= length h + 1)%nat /\
                (forall r b, h !! r = Some b -> h1 !! r = Some b) /\
                (forall r, In r bs1 -> In r (Tank.bullets s) \/ r = length h)).
  { destruct Hshot as [[-> ->] | (b & -> & -> & _)].
    - split; [exact Hnd |]. split; [exact Hvalid |]. split; [lia |]. auto.
    - split; [| split; [| split; [| split]]].
      + apply NoDup_app. split; [exact Hnd |]. split; [| apply NoDup_singleton].
        intros r Hr [Heq | []]%list_elem_of_In. apply list_elem_of_In, Hvalid in Hr. lia.
      + intros r Hr. apply in_app_iff in Hr. rewrite length_app. cbn.
        destruct Hr as [Hr | [Heq | []]]; [specialize (Hvalid r Hr) |]; lia.
      + rewrite length_app. cbn. lia.
      + intros r b0 Hr. apply lookup_app_l_Some, Hr.
      + intros r Hr. apply in_app_iff in Hr. destruct Hr as [Hr | [Heq | []]]; auto. }
  destruct Hwf as (Hnd1 & Hvalid1 & Hlen1 & Hkeep1 & Hfrom).
  pose proof (update_bullets_spec scr tiles bs1 Hnd1 bs1 h1 Hnd1) as Hspec.
  rewrite <- Hub in Hspec. destruct Hspec as (Hlen & Hnd' & _ & Hin & Hout & Hmem).
  split; [exact Hnd' |]. split; [| split; [lia |]].
  - intros r Hr. apply Hmem in Hr. destruct Hr as [Hr Hn].
    rewrite (Hin r Hr).
    destruct (lookup_lt_is_Some_2 h1 r (Hvalid1 r Hr)) as [b Hb]. rewrite Hb. cbn.
    eexists. split; [reflexivity |].
    destruct (Bullet.active (Bullet.update scr tiles b)) eqn:Ea; [reflexivity |].
    exfalso. apply Hn. split; [exact Hr |]. eauto.
  - intros r b Hr Hnot. rewrite Hout; [apply Hkeep1, Hr |].
    intros Hr1. destruct (Hfrom r Hr1) as [Hold | ->]; [contradiction |].
    apply lookup_lt_Some in Hr. lia.
Qed.

Lemma update_keeps_active_bullets_witness :
  exists s' h',
    Tank.update (H := example_math) default_screen 0 no_keys [] None None no_draws
      keyed_tank one_bullet = Ok (s', h') /\
    NoDup (Tank.bullets s') /\
    forall r, In r (Tank.bullets s') -> exists b, h' !! r = Some b /\ Bullet.active b = true.
Proof.
  destruct (Tank.update (H := example_math) default_screen 0 no_keys [] None None no_draws
              keyed_tank one_bullet) as [[s' h'] | e] eqn:E; [| vm_compute in E; discriminate].
  exists s', h'. split; [reflexivity |].
  assert (Hnd : NoDup (Tank.bullets keyed_tank)).
  { cbn. apply NoDup_singleton. }
  assert (Hv : forall r, In r (Tank.bullets keyed_tank) -> (r < length one_bullet)%nat).
  { intros r [<- | []]. cbn. lia. }
  destruct (update_keeps_active_bullets (H := example_math) default_screen 0 no_keys []
              None None no_draws keyed_tank s' one_bullet h' eq_refl Hnd Hv E)
    as (H1 & H2 & _).
  split; assumption.
Defined.

(** X8. A living tank steered by keys: with the empty controls of the
    computer's tank the update raises [KeyError]; with the keys of a
    player it does not raise, the tank stays where it is unless the up
    or the down key is pressed, and keeps its heading unless the left or
    the right key is pressed. *)
Theorem keys_steer `{Math} (scr : Screen) (me : nat) (keys : Key -> bool)
    (tiles : list Tile.t) (target : option Tank.t) (grid_map : option Grid)
    (rnd : Draws) (s : Tank.t) (h : Heap) :
  Tank.alive s = true -> Tank.is_ai s = false ->
  (Tank.controls s = None ->
   Tank.update scr me keys tiles target grid_map rnd s h = Raise KeyError) /\
  (forall c, Tank.controls s = Some c ->
   exists s' h',
     Tank.update scr me keys tiles target grid_map rnd s h = Ok (s', h') /\
     (keys (Tank.k_up c) = false -> keys (Tank.k_down c) = false ->
      Tank.x s' = Tank.x s /\ Tank.y s' = Tank.y s) /\
     (keys (Tank.k_left c) = false -> keys (Tank.k_right c) = false ->
      Tank.angle s' = Tank.angle s)).
Proof.
  intros Halive Hai. unfold Tank.update. rewrite Halive. cbn [negb].
  set (s0 := if Qltb 0 (Tank.shoot_cooldown s) then _ else s).
  assert (H0 : Tank.is_ai s0 = false /\ Tank.controls s0 = Tank.controls s /\
               Tank.x s0 = Tank.x s /\ Tank.y s0 = Tank.y s /\ Tank.angle s0 = Tank.angle s).
  { subst s0. destruct (Qltb 0 _); cbn; auto. }
  clearbody s0. destruct H0 as (Hai0 & Hc0 & Hx0 & Hy0 & Ha0). cbv zeta.
  rewrite Hai0. split.
  - intros Hc. unfold Tank.pressed at 1. rewrite Hc0, Hc. reflexivity.
  - intros c Hc. rewrite <- Hc0 in Hc.
    destruct (keys_effect scr keys tiles s0 h c Hc) as (s1 & Hk & _ & _ & Hp & Ha).
    cbv zeta in Hk. rewrite Hk. cbn [and_then].
    destruct (Tank.update_bullets scr tiles (Tank.bullets s1) (Tank.bullets s1) h)
      as [bs h2].
    eexists _, _. split; [reflexivity |]. cbn. split.
    + intros Hu Hd. destruct (Hp Hu Hd). split; congruence.
    + intros Hl Hr. rewrite (Ha Hl Hr). exact Ha0.
Qed.

Lemma keys_steer_witness :
  exists s' h',
    Tank.update (H := example_math) default_screen 0 no_keys [] None None no_draws
      keyed_tank one_bullet = Ok (s', h') /\
    Tank.x s' = Tank.x keyed_tank /\ Tank.angle s' = Tank.angle keyed_tank.
Proof.
  destruct (keys_steer (H := example_math) default_screen 0 no_keys [] None None no_draws
              keyed_tank one_bullet eq_refl eq_refl) as [_ Hsome].
  destruct (Hsome Game.player1_controls eq_refl) as (s' & h' & Hup & Hpos & Hang).
  exists s', h'. split; [exact Hup |].
  split; [apply (Hpos eq_refl eq_refl) | apply (Hang eq_refl eq_refl)].
Defined.

(** ** The collision pass *)

Lemma after_hits_refl (s : Tank.t) : after_hits s s.
Proof. unfold after_hits. repeat split; auto; lia. Qed.

Lemma after_hits_step (f : Tank.t -> Tank.t) (s0 s : Tank.t) :
  f = Game.add_kill \/ f = Game.add_death \/ f = Game.add_suicide \/ f = Tank.respawn ->
  after_hits s0 s -> after_hits s0 (f s).
Proof.
  unfold after_hits.
  intros Hf (Hk & Hs & Hd & Hsp & Ha & Hai & Hc & Hcol & Hcd & Hst & Hpa & Hpp & Hal & Hpos & Hb).
  destruct Hf as [-> | [-> | [-> | ->]]]; cbn;
    repeat split; try assumption; try lia; try (intros _; reflexivity).
  - right. rewrite Hsp. auto.
  - right. reflexivity.
Qed.

Lemma check_bullet_after_hits (ts0 : list Tank.t) (h0 : Heap) (i r : nat)
    (w : list Tank.t * Heap) :
  Forall2 after_hits ts0 w.1 /\ Forall2 maybe_off h0 w.2 ->
  Forall2 after_hits ts0 (Game.check_bullet i r w).1 /\
  Forall2 maybe_off h0 (Game.check_bullet i r w).2.
Proof.
  intros [Hts Hh]. unfold Game.check_bullet.
  destruct (w.2 !! r) as [bullet |] eqn:Er; [| auto].
  destruct (w.1 !! i) as [tank |] eqn:Ei; [| auto].
  destruct (Bullet.active bullet && _); [| auto].
  destruct w as [ts h]. cbn [fst snd] in *. unfold Game.hit. split.
  - destruct (Nat.eqb (Bullet.owner bullet) i); cbn [fst];
      repeat (apply Forall2_alter_r; [| intros x y _ _ Hxy; apply after_hits_step; auto]);
      exact Hts.
  - cbn [snd]. rewrite list_insert_alter. apply Forall2_alter_r; [exact Hh |].
    intros b0 b _ Hb Hoff. rewrite Er in Hb. injection Hb as <-.
    destruct Hoff as [Heq | Heq]; rewrite Heq; right; reflexivity.
Qed.

(** X10. The collision pass keeps the number of tanks and of bullets;
    it lowers no counter of a tank, moves a tank nowhere but onto its
    spawn point, changes its bullet list only by emptying it, kills no
    tank and leaves heading, role and cooldown alone; a bullet is as
    before or the same but inactive. *)
Theorem collisions_only_score_and_respawn (ts : list Tank.t) (h : Heap) :
  Forall2 after_hits ts (Game.check_collisions (ts, h)).1 /\
  Forall2 maybe_off h (Game.check_collisions (ts, h)).2.
Proof.
  apply (check_collisions_invariant
           (fun w => Forall2 after_hits ts w.1 /\ Forall2 maybe_off h w.2)).
  - intros i r w Hw. apply check_bullet_after_hits, Hw.
  - cbn. split; apply Forall_Forall2_diag, Forall_forall.
    + intros s _. apply after_hits_refl.
    + intros b _. left. reflexivity.
Qed.

(** X11. Where no active bullet of the store lies on a tank, the
    collision pass changes nothing. *)
Theorem no_overlap_no_effect (ts : list Tank.t) (h : Heap) :
  (forall i r tank bullet, ts !! i = Some tank -> h !! r = Some bullet ->
     Bullet.active bullet = true ->
     colliderect (Tank.get_rect tank)
       (Bullet.get_rect (Bullet.x bullet) (Bullet.y bullet)) = false) ->
  Game.check_collisions (ts, h) = (ts, h).
Proof.
  intros Hfree.
  apply (check_collisions_invariant (fun w => w = (ts, h))); [| reflexivity].
  intros i r w ->. unfold Game.check_bullet. cbn [fst snd].
  destruct (h !! r) as [bullet |] eqn:Er; [| reflexivity].
  destruct (ts !! i) as [tank |] eqn:Ei; [| reflexivity].
  destruct (Bullet.active bullet) eqn:Ea; [| reflexivity].
  rewrite (Hfree i r tank bullet Ei Er Ea). reflexivity.
Qed.

Lemma no_overlap_no_effect_witness :
  Game.check_collisions ([red_tank; blue_tank], [Bullet.init 800 800 0 0])
  = ([red_tank; blue_tank], [Bullet.init 800 800 0 0]).
Proof.
  apply no_overlap_no_effect.
  intros i r tank bullet Hi Hr _.
  destruct r as [|r]; [| discriminate Hr]. injection Hr as <-.
  destruct i as [|[|i]]; [injection Hi as <- | injection Hi as <- | discriminate Hi];
    vm_compute; reflexivity.
Defined.

Lemma ledger_alter (f : Tank.t -> Tank.t) (d : Z) (ts : list Tank.t) (i : nat) :
  (forall s, balance (f s) = balance s + d) ->
  ledger (alter f i ts) = ledger ts + (if (i <? length ts)%nat then d else 0).
Proof.
  intros Hf. revert i. induction ts as [|s ts IH]; intros i; [destruct i; cbn; lia |].
  destruct i as [|i]; cbn [alter list_alter ledger fold_right length].
  - rewrite Hf. cbn. fold (ledger ts). lia.
  - fold (alter f i ts). fold (ledger (alter f i ts)) (ledger ts). rewrite IH.
    change (S i <? S (length ts))%nat with (i <? length ts)%nat. lia.
Qed.

Lemma check_bullet_ledger (n : nat) (L : Z) (i r : nat) (w : list Tank.t * Heap) :
  length w.1 = n /\ owners_among n w.2 /\ ledger w.1 = L ->
  length (Game.check_bullet i r w).1 = n /\
  owners_among n (Game.check_bullet i r w).2 /\
  ledger (Game.check_bullet i r w).1 = L.
Proof.
  intros (Hlen & Hown & Hled). unfold Game.check_bullet.
  destruct (w.2 !! r) as [bullet |] eqn:Er; [| auto].
  destruct (w.1 !! i) as [tank |] eqn:Ei; [| auto].
  destruct (Bullet.active bullet && _); [| auto].
  destruct w as [ts h]. cbn [fst snd] in *. unfold Game.hit.
  pose proof (Hown r bullet Er) as Ho.
  assert (Hi : (i < length ts)%nat) by (eapply lookup_lt_Some, Ei).
  split; [| split].
  - destruct (Nat.eqb (Bullet.owner bullet) i); cbn [fst]; rewrite !length_alter; exact Hlen.
  - cbn [snd]. intros r' b Hb. destruct (decide (r = r')) as [<- | Hne].
    + rewrite list_lookup_insert_eq in Hb by (eapply lookup_lt_Some, Er).
      injection Hb as <-. exact Ho.
    + rewrite list_lookup_insert_ne in Hb by exact Hne. eapply Hown, Hb.
  - destruct (Nat.eqb (Bullet.owner bullet) i); cbn [fst].
    + rewrite (ledger_alter Tank.respawn 0) by (intros s; unfold balance; cbn; lia).
      rewrite (ledger_alter Game.add_death 1) by (intros s; unfold balance; cbn; lia).
      rewrite (ledger_alter Game.add_suicide (-1)) by (intros s; unfold balance; cbn; lia).
      rewrite !length_alter.
      destruct (i <? length ts)%nat eqn:E; [lia | apply Nat.ltb_ge in E; lia].
    + rewrite (ledger_alter Tank.respawn 0) by (intros s; unfold balance; cbn; lia).
      rewrite (ledger_alter Game.add_death 1) by (intros s; unfold balance; cbn; lia).
      rewrite (ledger_alter Game.add_kill (-1)) by (intros s; unfold balance; cbn; lia).
      rewrite !length_alter.
      destruct (i <? length ts)%nat eqn:E; [| apply Nat.ltb_ge in E; lia].
      destruct (Bullet.owner bullet <? length ts)%nat eqn:E2;
        [lia | apply Nat.ltb_ge in E2; lia].
Qed.

(** X9. Every death that the collision pass books is booked as one kill
    or as one suicide: when the owner of every bullet is a tank of the
    list, the deaths of all tanks minus their kills and suicides are
    the same after the pass, and the owners are still tanks of the
    list. *)
Theorem collisions_balance_scores (ts : list Tank.t) (h : Heap) :
  owners_among (length ts) h ->
  ledger (Game.check_collisions (ts, h)).1 = ledger ts /\
  length (Game.check_collisions (ts, h)).1 = length ts /\
  owners_among (length ts) (Game.check_collisions (ts, h)).2.
Proof.
  intros Hown.
  destruct (check_collisions_invariant
              (fun w => length w.1 = length ts /\ owners_among (length ts) w.2 /\
                        ledger w.1 = ledger ts) (ts, h)) as (Hl & Ho & Hled).
  - intros i r w Hw. apply check_bullet_ledger, Hw.
  - cbn. auto.
  - auto.
Qed.

Lemma collisions_balance_scores_witness :
  ledger (Game.check_collisions ([red_tank; blue_tank], [blue_bullet; red_bullet])).1
  = ledger [red_tank; blue_tank].
Proof.
  apply (collisions_balance_scores [red_tank; blue_tank] [blue_bullet; red_bullet]).
  intros r b Hr. destruct r as [|[|r]]; [| | discriminate Hr];
    injection Hr as <-; cbn; lia.
Defined.

(** ** The generated map *)

Lemma existsb_cell (gx gy : Z) (tiles : list Tile.t) :
  existsb (fun t => (Tile.grid_x t =? gx) && (Tile.grid_y t =? gy)) tiles = false ->
  ~ In (gx, gy) (map tile_cell tiles).
Proof.
  intros Hex Hin. apply in_map_iff in Hin. destruct Hin as (t & Ht & Hin).
  assert (Hyes : existsb (fun t => (Tile.grid_x t =? gx) && (Tile.grid_y t =? gy)) tiles = true).
  { apply existsb_exists. exists t. split; [exact Hin |].
    unfold tile_cell in Ht. injection Ht as <- <-. rewrite !Z.eqb_refl. reflexivity. }
  congruence.
Qed.

(** What the placement loop keeps of the tiles placed so far. *)
Lemma place_spec (rnd : MapGenerator.Draws) (gw gh : Z) (budget : nat) :
  forall (tries : nat) (placed : Z) (tiles : list Tile.t),
  let good := fun tile =>
    Tile.collides tile = true /\ tile_cell tile <> (2, 2) /\
    tile_cell tile <> (gw - 3, gh - 3) /\
    exists k, (k < tries + budget)%nat /\ tile_cell tile = MapGenerator.cell_draw rnd k in
  NoDup (map tile_cell tiles) -> Forall good tiles ->
  Z.of_nat (length tiles) = placed -> placed <= Z.max 0 (MapGenerator.num_tiles rnd) ->
  let tiles' := MapGenerator.place rnd gw gh budget tries placed tiles in
  NoDup (map tile_cell tiles') /\ Forall good tiles' /\
  Z.of_nat (length tiles') <= Z.max 0 (MapGenerator.num_tiles rnd) /\
  (length tiles' <= length tiles + budget)%nat.
Proof.
  induction budget as [|budget IH]; intros tries placed tiles good Hnd Hgood Hlen Hmax;
    cbn [MapGenerator.place].
  - split; [exact Hnd |]. split; [exact Hgood |]. split; lia.
  - destruct (placed <? MapGenerator.num_tiles rnd) eqn:Elt.
    2:{ split; [exact Hnd |]. split; [exact Hgood |]. split; lia. }
    apply Z.ltb_lt in Elt.
    destruct (MapGenerator.cell_draw rnd tries) as [gx gy] eqn:Ed.
    assert (Hweaken : forall tl, Forall good tl ->
              Forall (fun tile =>
                Tile.collides tile = true /\ tile_cell tile <> (2, 2) /\
                tile_cell tile <> (gw - 3, gh - 3) /\
                exists k, (k < S tries + budget)%nat /\
                  tile_cell tile = MapGenerator.cell_draw rnd k) tl).
    { intros tl Htl. eapply Forall_impl; [exact Htl |].
      intros tile (Hc & H1 & H2 & k & Hk & Hcell). repeat split; try assumption.
      exists k. split; [lia | exact Hcell]. }
    assert (Hback : forall tl,
              Forall (fun tile =>
                Tile.collides tile = true /\ tile_cell tile <> (2, 2) /\
                tile_cell tile <> (gw - 3, gh - 3) /\
                exists k, (k < S tries + budget)%nat /\
                  tile_cell tile = MapGenerator.cell_draw rnd k) tl -> Forall good tl).
    { intros tl Htl. eapply Forall_impl; [exact Htl |].
      intros tile (Hc & H1 & H2 & k & Hk & Hcell). repeat split; try assumption.
      exists k. split; [lia | exact Hcell]. }
    destruct (bool_decide ((gx, gy) = (2, 2))
              || bool_decide ((gx, gy) = (gw - 3, gh - 3))) eqn:Ecorner.
    + destruct (IH (S tries) placed tiles Hnd (Hweaken _ Hgood) Hlen Hmax)
        as (H1 & H2 & H3 & H4).
      split; [exact H1 |]. split; [apply Hback, H2 |]. split; [exact H3 | lia].
    + apply orb_false_iff in Ecorner. destruct Ecorner as [Ec1 Ec2].
      apply bool_decide_eq_false in Ec1, Ec2.
      destruct (existsb _ tiles) eqn:Eex.
      * destruct (IH (S tries) placed tiles Hnd (Hweaken _ Hgood) Hlen Hmax)
          as (H1 & H2 & H3 & H4).
        split; [exact H1 |]. split; [apply Hback, H2 |]. split; [exact H3 | lia].
      * apply existsb_cell in Eex.
        set (tile := {| Tile.grid_x := gx; Tile.grid_y := gy; Tile.collidable := true |}).
        destruct (IH (S tries) (placed + 1) (tiles ++ [tile])) as (H1 & H2 & H3 & H4).
        -- rewrite map_app. cbn. apply NoDup_app. split; [exact Hnd |].
           split; [| apply NoDup_singleton].
           intros c Hc [Heq | []]%list_elem_of_In. apply list_elem_of_In in Hc.
           apply Eex. subst c. exact Hc.
        -- apply Forall_app. split; [apply Hweaken, Hgood |].
           apply Forall_cons. split; [| apply Forall_nil; exact I].
           split; [reflexivity |]. split; [exact Ec1 |]. split; [exact Ec2 |].
           exists tries. split; [lia |]. rewrite Ed. reflexivity.
        -- rewrite length_app. cbn. lia.
        -- lia.
        -- split; [exact H1 |]. split; [apply Hback, H2 |]. split; [exact H3 |].
           rewrite length_app in H4. cbn in H4. lia.
Qed.

(** The cells of the generated tiles. *)
Lemma generated_map_cells (scr : Screen) (rnd : MapGenerator.Draws) :
  NoDup (map tile_cell (MapGenerator.generate_map scr rnd)) /\
  forall tile, In tile (MapGenerator.generate_map scr rnd) ->
    ~ In (tile_cell tile) (spawn_cells scr).
Proof.
  unfold MapGenerator.generate_map.
  destruct (place_spec rnd (Z.max 1 (SCREEN_WIDTH scr / TILE_WIDTH))
              (Z.max 1 (SCREEN_HEIGHT scr / TILE_HEIGHT))
              (Z.to_nat (MapGenerator.num_tiles rnd * 6)) 0 0 [])
    as (Hnd & Hgood & _ & _); cbn; try lia.
  - apply NoDup_nil. exact I.
  - apply Forall_nil. exact I.
  - split; [exact Hnd |].
    intros tile Hin. rewrite Forall_forall in Hgood.
    destruct (Hgood tile (proj2 (list_elem_of_In _ _) Hin)) as (_ & H1 & H2 & _).
    unfold spawn_cells, Game.grid_w, Game.grid_h. intros [Heq | [Heq | []]]; congruence.
Qed.

(** X12. The tiles that [generate_map] returns stand on pairwise
    different cells, are collidable, lie on neither of the two spawn
    cells, and are at most [num_tiles]; each stands on a cell drawn in
    one of the [6 * num_tiles] tries. *)
Theorem generated_tiles_distinct (scr : Screen) (rnd : MapGenerator.Draws) :
  let tiles := MapGenerator.generate_map scr rnd in
  NoDup (map tile_cell tiles) /\
  (forall tile, In tile tiles ->
     Tile.collides tile = true /\ ~ In (tile_cell tile) (spawn_cells scr) /\
     exists k, Z.of_nat k < 6 * MapGenerator.num_tiles rnd /\
       tile_cell tile = MapGenerator.cell_draw rnd k) /\
  Z.of_nat (length tiles) <= Z.max 0 (MapGenerator.num_tiles rnd).
Proof.
  intros tiles. subst tiles. unfold MapGenerator.generate_map.
  destruct (place_spec rnd (Z.max 1 (SCREEN_WIDTH scr / TILE_WIDTH))
              (Z.max 1 (SCREEN_HEIGHT scr / TILE_HEIGHT))
              (Z.to_nat (MapGenerator.num_tiles rnd * 6)) 0 0 [])
    as (Hnd & Hgood & Hlen & _); cbn; try lia.
  - apply NoDup_nil. exact I.
  - apply Forall_nil. exact I.
  - split; [exact Hnd |]. split; [| exact Hlen].
    intros tile Hin. rewrite Forall_forall in Hgood.
    destruct (Hgood tile (proj2 (list_elem_of_In _ _) Hin)) as (Hc & H1 & H2 & k & Hk & Hcell).
    split; [exact Hc |]. split.
    + unfold spawn_cells, Game.grid_w, Game.grid_h. intros [Heq | [Heq | []]]; congruence.
    + exists k. split; [lia | exact Hcell].
Qed.

(** ** Spawn points *)

(** The footprint of a tank that stands at the centre of a cell. *)
Lemma rect_at_centre (cx cy : Z) :
  Tank.rect_at (inject_Z (cx * TILE_WIDTH + TILE_WIDTH / 2))
               (inject_Z (cy * TILE_HEIGHT + TILE_HEIGHT / 2))
  = {| left := cx * 70 + 20; top := cy * 45 + 7; width := 30; height := 30 |}.
Proof.
  unfold Tank.rect_at, Rect_of, Tank.half, Tank.size, TANK_SIZE, TILE_WIDTH, TILE_HEIGHT,
    py_int.
  change (70 / 2) with 35. change (45 / 2) with 22. cbn.
  change (Z.pos (1 * 2)) with 2. change (Z.pos (1 * (1 * 2))) with 2.
  f_equal.
  - replace ((cx * 70 + 35) * 2 + - (30 * 1) * 1) with ((cx * 70 + 20) * 2) by lia.
    apply Z.quot_mul. lia.
  - replace ((cy * 45 + 22) * 2 + - (30 * 1) * 1) with ((cy * 45 + 7) * 2) by lia.
    apply Z.quot_mul. lia.
Qed.

(** That footprint meets the rectangle of no tile of another cell. *)
Lemma centre_meets_own_cell (cx cy : Z) (tile : Tile.t) :
  colliderect {| left := cx * 70 + 20; top := cy * 45 + 7; width := 30; height := 30 |}
              (Tile.rect tile) = true ->
  tile_cell tile = (cx, cy).
Proof.
  unfold colliderect, Tile.rect, right, bottom, tile_cell, TILE_WIDTH, TILE_HEIGHT. cbn.
  intros H. apply andb_prop in H. destruct H as [H H4].
  apply andb_prop in H. destruct H as [H H3].
  apply andb_prop in H. destruct H as [H1 H2].
  apply Z.ltb_lt in H1, H2. apply Z.gtb_lt in H3, H4.
  f_equal; lia.
Qed.

Lemma centre_inside_margin (scr : Screen) (cx cy : Z) :
  1 <= cx -> cx * 70 + 120 <= SCREEN_WIDTH scr ->
  2 <= cy -> cy * 45 + 107 <= SCREEN_HEIGHT scr ->
  inside_margin scr (inject_Z (cx * TILE_WIDTH + TILE_WIDTH / 2))
                    (inject_Z (cy * TILE_HEIGHT + TILE_HEIGHT / 2)).
Proof.
  intros H1 H2 H3 H4. unfold inside_margin, TILE_WIDTH, TILE_HEIGHT.
  change (70 / 2) with 35. change (45 / 2) with 22.
  unfold Qle. cbn. repeat split; lia.
Qed.

(** X13. A game started on a generated map has both tanks on spawn
    points where they can stand: on a screen of at least four columns
    and five rows of cells, [can_move] accepts the position of each tank
    of the new game, so no tank starts inside a tile or the margin. *)
Theorem spawns_are_free (rnd : MapGenerator.Draws) (md : option Game.Mode) (ticks : Z)
    (g : Game.t) :
  4 <= Game.grid_w (Game.screen g) -> 5 <= Game.grid_h (Game.screen g) ->
  exists gs,
    Game.start_game md (MapGenerator.generate_map (Game.screen g) rnd) ticks g = Ok gs /\
    length (Game.tanks gs) = 2%nat /\
    forall s, In s (Game.tanks gs) ->
      (Tank.x s, Tank.y s) = Tank.spawn_point s /\
      Tank.can_move (Game.screen gs) (Game.tiles gs) (Tank.x s) (Tank.y s) = true.
Proof.
  intros Hw Hh. set (scr := Game.screen g) in *.
  set (tiles := MapGenerator.generate_map scr rnd).
  destruct (create_grid_map_represents scr tiles) as (grid & Hgrid & _).
  unfold Game.start_game. fold scr. rewrite Hgrid. cbn [and_then].
  eexists. split; [reflexivity |]. cbn [Game.tanks Game.tiles Game.screen].
  split; [reflexivity |].
  destruct (generated_map_cells scr rnd) as (_ & Hcells).
  assert (Hclear : forall cx cy, In (cx, cy) (spawn_cells scr) ->
            clear_of {| left := cx * 70 + 20; top := cy * 45 + 7;
                        width := 30; height := 30 |} tiles).
  { intros cx cy Hin tile Htile _.
    destruct (colliderect _ (Tile.rect tile)) eqn:Ec; [| reflexivity].
    apply centre_meets_own_cell in Ec. exfalso.
    apply (Hcells tile Htile). rewrite Ec. exact Hin. }
  assert (HW : Game.grid_w scr * 70 <= SCREEN_WIDTH scr).
  { unfold Game.grid_w, TILE_WIDTH in *.
    pose proof (Z.mul_div_le (SCREEN_WIDTH scr) 70 ltac:(lia)). lia. }
  assert (HH : Game.grid_h scr * 45 <= SCREEN_HEIGHT scr).
  { unfold Game.grid_h, TILE_HEIGHT in *.
    pose proof (Z.mul_div_le (SCREEN_HEIGHT scr) 45 ltac:(lia)). lia. }
  intros s [<- | [<- | []]]; (split; [reflexivity |]);
    cbn [Tank.init Tank.x Tank.y fst snd]; apply can_move_spec.
  - split.
    + apply centre_inside_margin; lia.
    + rewrite rect_at_centre. apply Hclear. left. reflexivity.
  - split.
    + apply centre_inside_margin; lia.
    + rewrite rect_at_centre. apply Hclear. right. left. reflexivity.
Qed.

Lemma spawns_are_free_witness :
  exists gs,
    Game.start_game (Some Game.pvp)
      (MapGenerator.generate_map default_screen example_map_draws) 0 (Game.init false)
      = Ok gs /\
    length (Game.tanks gs) = 2%nat /\
    forall s, In s (Game.tanks gs) ->
      (Tank.x s, Tank.y s) = Tank.spawn_point s /\
      Tank.can_move (Game.screen gs) (Game.tiles gs) (Tank.x s) (Tank.y s) = true.
Proof.
  apply (spawns_are_free example_map_draws (Some Game.pvp) 0 (Game.init false));
    vm_compute; discriminate.
Defined.

(** ** The main loop *)

Lemma for_each_invariant {A S : Type} (P : S -> Prop) (l : list A)
    (body : A -> S -> res S) (s s' : S) :
  (forall a s1 s2, In a l -> P s1 -> body a s1 = Ok s2 -> P s2) ->
  P s -> for_each l body s = Ok s' -> P s'.
Proof.
  revert s. induction l as [|a l IH]; intros s Hbody Hs; cbn.
  - intros [= <-]. exact Hs.
  - destruct (body a s) as [s1 | e] eqn:E; cbn; [| discriminate].
    apply IH.
    + intros a' s2 s3 Hin. apply Hbody. right. exact Hin.
    + eapply Hbody; [left; reflexivity | exact Hs | exact E].
Qed.

Lemma for_each_total {A S : Type} (P : S -> Prop) (l : list A)
    (body : A -> S -> res S) (s : S) :
  (forall a s1, In a l -> P s1 -> exists s2, body a s1 = Ok s2 /\ P s2) ->
  P s -> exists s', for_each l body s = Ok s' /\ P s'.
Proof.
  revert s. induction l as [|a l IH]; intros s Hbody Hs; cbn.
  - exists s. auto.
  - destruct (Hbody a s (or_introl eq_refl) Hs) as (s1 & -> & Hs1). cbn.
    apply IH; [| exact Hs1]. intros a' s2 Hin. apply Hbody. right. exact Hin.
Qed.

Lemma update_owner `{Math} (scr : Screen) (tiles : list Tile.t) (b : Bullet.t) :
  Bullet.owner (Bullet.update scr tiles b) = Bullet.owner b.
Proof.
  unfold Bullet.update. destruct (negb (Bullet.active b)); [reflexivity |]. cbv zeta.
  destruct (_ || _).
  - destruct (_ >? _); reflexivity.
  - destruct (first_collision _ tiles); [| reflexivity].
    destruct (_ >? _); reflexivity.
Qed.

(** The loop over the bullets of a tank lengthens no list and gives no
    bullet another owner. *)
Lemma update_bullets_frame `{Math} (scr : Screen) (tiles : list Tile.t) (n : nat)
    (refs : list nat) :
  forall (bs : list nat) (h : Heap),
  owners_among n h ->
  (length (Tank.update_bullets scr tiles refs bs h).1 <= length bs)%nat /\
  owners_among n (Tank.update_bullets scr tiles refs bs h).2.
Proof.
  induction refs as [|r refs IH]; intros bs h Hown; cbn [Tank.update_bullets].
  - cbn. auto.
  - destruct (h !! r) as [bullet |] eqn:Er; [| apply IH, Hown].
    assert (Hown' : owners_among n (<[r := Bullet.update scr tiles bullet]> h)).
    { intros r' b Hb. destruct (decide (r = r')) as [<- | Hne].
      - rewrite list_lookup_insert_eq in Hb by (eapply lookup_lt_Some, Er).
        injection Hb as <-. rewrite update_owner. eapply Hown, Er.
      - rewrite list_lookup_insert_ne in Hb by exact Hne. eapply Hown, Hb. }
    destruct (IH (if Bullet.active (Bullet.update scr tiles bullet) then bs
                  else remove_first r bs) _ Hown') as [Hlen Ho].
    split; [| exact Ho].
    destruct (Bullet.active _); [exact Hlen |].
    pose proof (length_remove_first r bs). lia.
Qed.

Lemma ledger_insert (ts : list Tank.t) (i : nat) (s s' : Tank.t) :
  ts !! i = Some s -> balance s' = balance s -> ledger (<[i := s']> ts) = ledger ts.
Proof.
  revert i. induction ts as [|a ts IH]; intros i Hi Hb; [discriminate |].
  destruct i as [|i]; cbn in Hi.
  - injection Hi as ->. cbn. rewrite Hb. reflexivity.
  - change (ledger (<[S i := s']> (a :: ts))) with (balance a + ledger (<[i := s']> ts)).
    rewrite (IH i Hi Hb). reflexivity.
Qed.

Lemma same_role_balance (s s' : Tank.t) : same_role s s' -> balance s' = balance s.
Proof. unfold same_role, balance. intros (_ & _ & _ & _ & _ & -> & -> & ->). reflexivity. Qed.

Lemma same_role_fit (s s' : Tank.t) :
  fit s -> same_role s s' -> (length (Tank.bullets s') <= 3)%nat -> fit s'.
Proof.
  unfold fit, same_role. intros (Ha & Hc & _) (-> & -> & -> & _) Hl. auto.
Qed.

Lemma shot_frame (n me : nat) (bs bs' : list nat) (h h' : Heap) :
  (me < n)%nat -> (length bs <= 3)%nat -> owners_among n h ->
  at_most_one_shot me bs h bs' h' ->
  (length bs' <= 3)%nat /\ owners_among n h'.
Proof.
  intros Hme Hl Hown [[-> ->] | (b & -> & -> & Ho & _ & Hlt)]; [auto |].
  split; [rewrite length_app; cbn; lia |].
  intros r b' Hb. apply lookup_snoc_Some in Hb.
  destruct Hb as [[_ Hb] | [_ <-]]; [eapply Hown, Hb | lia].
Qed.

Lemma tank_update_sound `{Math} (scr : Screen) (n me : nat) (keys : Key -> bool)
    (tiles : list Tile.t) (target : option Tank.t) (grid_map : option Grid)
    (rnd : Draws) (s s' : Tank.t) (h h' : Heap) :
  fit s -> (me < n)%nat -> owners_among n h ->
  Tank.update scr me keys tiles target grid_map rnd s h = Ok (s', h') ->
  fit s' /\ balance s' = balance s /\ owners_among n h'.
Proof.
  intros Hfit Hme Hown Hu.
  destruct (update_effect scr me keys tiles target grid_map rnd s s' h h'
              (proj1 Hfit) Hu) as (Hrole & bs1 & h1 & Hshot & Hub).
  destruct (shot_frame n me _ _ _ _ Hme (proj2 (proj2 Hfit)) Hown Hshot) as [Hl1 Ho1].
  destruct (update_bullets_frame scr tiles n bs1 bs1 h1 Ho1) as [Hl2 Ho2].
  rewrite <- Hub in Hl2, Ho2. cbn [fst snd] in Hl2, Ho2.
  split; [| split; [apply same_role_balance, Hrole | exact Ho2]].
  apply (same_role_fit s s' Hfit Hrole). lia.
Qed.

Lemma tank_shoot_sound `{Math} (n me : nat) (s : Tank.t) (h : Heap) :
  fit s -> (me < n)%nat -> owners_among n h ->
  fit (Tank.shoot me s h).1 /\ balance (Tank.shoot me s h).1 = balance s /\
  owners_among n (Tank.shoot me s h).2.
Proof.
  intros Hfit Hme Hown.
  destruct (shoot_effect me s h) as (Hrole & Hshot & _).
  destruct (shot_frame n me _ _ _ _ Hme (proj2 (proj2 Hfit)) Hown Hshot) as [Hl1 Ho1].
  split; [| split; [apply same_role_balance, Hrole | exact Ho1]].
  apply (same_role_fit s _ Hfit Hrole Hl1).
Qed.

(** Putting a fit tank with the same balance in the place of a tank
    keeps the game sound. *)
Lemma set_world_sound (g : Game.t) (i : nat) (s s' : Tank.t) (h' : Heap) :
  sound g -> Game.tanks g !! i = Some s ->
  fit s' -> balance s' = balance s -> owners_among (length (Game.tanks g)) h' ->
  sound (Game.set_world g (<[i := s']> (Game.tanks g)) h').
Proof.
  intros (Hfit & Hown & Hled & Hplay) Hi Hs' Hb Ho. unfold sound.
  cbn [Game.set_world Game.tanks Game.bullets Game.state Game.grid_map Game.screen].
  rewrite length_insert. split; [apply Forall_insert; assumption |].
  split; [exact Ho |]. split; [| exact Hplay].
  rewrite (ledger_insert _ _ _ _ Hi Hb). exact Hled.
Qed.

Lemma update_tank_sound `{Math} (inp : Game.Inputs) (i : nat) (g g' : Game.t) :
  sound g -> Game.update_tank inp i g = Ok g' ->
  sound g' /\ Game.state g' = Game.state g /\ Game.screen g' = Game.screen g.
Proof.
  intros Hs. unfold Game.update_tank.
  destruct (Game.tanks g !! i) as [tank |] eqn:Ei; [| intros [= <-]; auto].
  pose proof Hs as (Hfit & Hown & _).
  assert (Hft : fit tank).
  { rewrite Forall_forall in Hfit. eapply Hfit, list_elem_of_lookup_2, Ei. }
  assert (Hi : (i < length (Game.tanks g))%nat) by (eapply lookup_lt_Some, Ei).
  destruct (Tank.is_ai tank).
  - destruct (Tank.update _ _ _ _ _ _ _ _ _) as [[tank' h'] | e] eqn:Eu;
      cbn [and_then]; [| discriminate].
    intros [= <-].
    destruct (tank_update_sound _ _ _ _ _ _ _ _ _ _ _ _ Hft Hi Hown Eu) as (H1 & H2 & H3).
    split; [apply (set_world_sound g i tank); assumption | auto].
  - destruct (Tank.update _ _ _ _ _ _ _ _ _) as [[tank' h'] | e] eqn:Eu;
      cbn [and_then]; [| discriminate].
    intros [= <-].
    destruct (tank_update_sound _ _ _ _ _ _ _ _ _ _ _ _ Hft Hi Hown Eu) as (H1 & H2 & H3).
    split; [apply (set_world_sound g i tank); assumption | auto].
Qed.

Lemma shoot_tank_sound `{Math} (inp : Game.Inputs) (i : nat) (g g' : Game.t) :
  sound g -> Game.shoot_tank inp i g = Ok g' ->
  sound g' /\ Game.state g' = Game.state g /\ Game.screen g' = Game.screen g.
Proof.
  intros Hs. unfold Game.shoot_tank.
  destruct (Game.tanks g !! i) as [tank |] eqn:Ei; [| intros [= <-]; auto].
  destruct (Tank.controls tank) as [c |]; [| intros [= <-]; auto].
  destruct (_ && _); [| intros [= <-]; auto].
  pose proof Hs as (Hfit & Hown & _).
  assert (Hft : fit tank).
  { rewrite Forall_forall in Hfit. eapply Hfit, list_elem_of_lookup_2, Ei. }
  assert (Hi : (i < length (Game.tanks g))%nat) by (eapply lookup_lt_Some, Ei).
  destruct (tank_shoot_sound _ i tank (Game.bullets g) Hft Hi Hown) as (H1 & H2 & H3).
  destruct (Tank.shoot i tank (Game.bullets g)) as [tank' h']. cbn [fst snd] in *.
  intros [= <-]. split; [apply (set_world_sound g i tank); assumption | auto].
Qed.

Lemma check_bullet_fit (i r : nat) (w : list Tank.t * Heap) :
  Forall fit w.1 -> Forall fit (Game.check_bullet i r w).1.
Proof.
  intros Hfit. unfold Game.check_bullet.
  destruct (w.2 !! r) as [bullet |]; [| exact Hfit].
  destruct (w.1 !! i) as [tank |]; [| exact Hfit].
  destruct (Bullet.active bullet && _); [| exact Hfit].
  destruct w as [ts h]. cbn [fst snd] in *. unfold Game.hit.
  assert (Hstep : forall f j l,
            f = Game.add_kill \/ f = Game.add_death \/ f = Game.add_suicide \/
            f = Tank.respawn -> Forall fit l -> Forall fit (alter f j l)).
  { intros f j l Hf Hl. apply Forall_alter; [exact Hl |].
    intros s _ (Ha & Hc & Hb).
    destruct Hf as [-> | [-> | [-> | ->]]]; unfold fit; cbn; auto with lia. }
  destruct (Nat.eqb (Bullet.owner bullet) i); cbn [fst]; repeat apply Hstep; auto.
Qed.

(** The collision pass keeps the tanks fit, their number, the owners of
    the bullets and the balance of the scores. *)
Lemma collisions_sound (ts : list Tank.t) (h : Heap) :
  Forall fit ts -> owners_among (length ts) h ->
  Forall fit (Game.check_collisions (ts, h)).1 /\
  length (Game.check_collisions (ts, h)).1 = length ts /\
  owners_among (length ts) (Game.check_collisions (ts, h)).2 /\
  ledger (Game.check_collisions (ts, h)).1 = ledger ts.
Proof.
  intros Hfit Hown.
  apply (check_collisions_invariant
           (fun w => Forall fit w.1 /\ length w.1 = length ts /\
                     owners_among (length ts) w.2 /\ ledger w.1 = ledger ts)).
  - intros i r w (H1 & H2). split; [apply check_bullet_fit, H1 |].
    apply check_bullet_ledger, H2.
  - cbn. auto.
Qed.

Lemma play_sound `{Math} (inp : Game.Inputs) (g g' : Game.t) :
  sound g -> Game.play inp g = Ok g' ->
  sound g' /\ Game.screen g' = Game.screen g.
Proof.
  intros Hs. unfold Game.play.
  destruct (for_each _ (Game.update_tank inp) g) as [g1 | e] eqn:E1;
    cbn [and_then]; [| discriminate].
  apply (for_each_invariant
           (fun x => sound x /\ Game.state x = Game.state g /\
                     Game.screen x = Game.screen g)) in E1; [| | auto].
  2:{ intros i x y _ (Hx & Hst & Hsc) Hy.
      destruct (update_tank_sound inp i x y Hx Hy) as (? & ? & ?).
      split; [assumption | split; congruence]. }
  destruct E1 as (Hs1 & Hst1 & Hsc1).
  destruct (for_each _ (Game.shoot_tank inp) g1) as [g2 | e] eqn:E2;
    cbn [and_then]; [| discriminate].
  apply (for_each_invariant
           (fun x => sound x /\ Game.state x = Game.state g /\
                     Game.screen x = Game.screen g)) in E2; [| | auto].
  2:{ intros i x y _ (Hx & Hst & Hsc) Hy.
      destruct (shoot_tank_sound inp i x y Hx Hy) as (? & ? & ?).
      split; [assumption | split; congruence]. }
  destruct E2 as ((Hfit & Hown & Hled & Hplay) & Hst2 & Hsc2).
  destruct (collisions_sound (Game.tanks g2) (Game.bullets g2) Hfit Hown)
    as (Hf3 & Hl3 & Ho3 & Hled3).
  destruct (Game.check_collisions _) as [ts h]. cbn [fst snd] in *.
  assert (Hs3 : sound (Game.set_world g2 ts h)).
  { unfold sound.
    cbn [Game.set_world Game.tanks Game.bullets Game.state Game.grid_map Game.screen].
    rewrite Hl3. split; [exact Hf3 |]. split; [exact Ho3 |].
    split; [congruence | exact Hplay]. }
  destruct (_ >=? _); intros [= <-]; (split; [| exact Hsc2]); [| exact Hs3].
  destruct Hs3 as (? & ? & ? & _). unfold sound.
  cbn [Game.set_world Game.set_state Game.tanks Game.bullets Game.state Game.grid_map
       Game.screen] in *.
  repeat (split; [assumption |]). discriminate.
Qed.

(** *** Nothing is raised *)

Lemma astar_pathfind_ok (w h : Z) (g : Grid) (s target : Tank.t) :
  shaped w h g -> exists path, Tank.astar_pathfind s target (Some g) = Ok path.
Proof.
  intros Hshape.
  destruct (astar_cells_total w h g (cell_of s) (cell_of target) Hshape
              (Tank.astar_fuel (Some g)) (astar_fuel_above w h g Hshape))
    as (path & Hcells & _).
  exists path. unfold Tank.astar_pathfind. fold (cell_of s) (cell_of target).
  rewrite Hcells. reflexivity.
Qed.

Lemma update_ai_total `{Math} (scr : Screen) (me : nat) (tiles : list Tile.t)
    (tg : Tank.t) (w h : Z) (grid : Grid) (rnd : Draws) (s : Tank.t) (hp : Heap) :
  roomy scr -> shaped w h grid ->
  exists r, Tank.update_ai scr me tiles (Some tg) (Some grid) rnd s hp = Ok r.
Proof.
  intros [Hw Hh] Hshape. unfold Tank.update_ai.
  set (s0 := if negb (Tank.alive tg) then _ else s). clearbody s0.
  set (s1 := Tank.set_ai s0 _ _ _ _). clearbody s1.
  assert (Hroom : (SCREEN_WIDTH scr - 100 <? 100) || (SCREEN_HEIGHT scr - 100 <? 100)
                  = false).
  { apply orb_false_iff. split; apply Z.ltb_ge; lia. }
  destruct (Tank.ai_state s1).
  - rewrite Hroom.
    destruct (Tank.patrol_point s1) as [p |]; [destruct (repick rnd) |];
      cbn [and_then]; eauto.
  - assert (Hpath : exists path,
              (if recalc rnd then Tank.astar_pathfind s1 tg (Some grid)
               else Ok (Tank.ai_path s1)) = Ok path).
    { destruct (recalc rnd); [| eauto]. apply (astar_pathfind_ok w h), Hshape. }
    destruct Hpath as (path & ->). cbn [and_then].
    destruct path as [| target_pos rest]; [eauto |].
    cbv zeta. destruct (Tank.dist_lt _ _ _ _ _); eauto.
  - cbv zeta. destruct (Qltb (Qabs _) 15); [| eauto].
    destruct (Qltb 30 _); [| eauto].
    destruct (Tank.shoot me _ hp). eauto.
Qed.

Lemma tank_update_total `{Math} (scr : Screen) (me : nat) (keys : Key -> bool)
    (tiles : list Tile.t) (target : option Tank.t) (grid_map : option Grid)
    (rnd : Draws) (s : Tank.t) (hp : Heap) :
  fit s ->
  (Tank.is_ai s = true ->
   roomy scr /\ is_Some target /\
   exists w h grid, grid_map = Some grid /\ shaped w h grid) ->
  exists r, Tank.update scr me keys tiles target grid_map rnd s hp = Ok r.
Proof.
  intros (Halive & Hctl & _) Hai. unfold Tank.update. rewrite Halive. cbn [negb].
  set (s0 := if Qltb 0 (Tank.shoot_cooldown s) then _ else s).
  assert (H0 : Tank.is_ai s0 = Tank.is_ai s /\ Tank.controls s0 = Tank.controls s).
  { subst s0. destruct (Qltb 0 _); auto. }
  clearbody s0. destruct H0 as [Hai0 Hc0]. cbv zeta.
  destruct (Tank.is_ai s0) eqn:Eai.
  - destruct (Hai ltac:(congruence)) as (Hroom & [tg ->] & w & h & grid & -> & Hshape).
    destruct (update_ai_total scr me tiles tg w h grid rnd s0 hp Hroom Hshape)
      as ([s1 h1] & ->). cbn [and_then].
    destruct (Tank.update_bullets _ _ _ _ _). eauto.
  - destruct (Hctl ltac:(congruence)) as [c Hc]. rewrite <- Hc0 in Hc.
    destruct (keys_effect scr keys tiles s0 hp c Hc) as (s1 & Hk & _).
    cbv zeta in Hk. rewrite Hk. cbn [and_then].
    destruct (Tank.update_bullets _ _ _ _ _). eauto.
Qed.

(** Among two or more living tanks every tank has a target. *)
Lemma find_target_some (i : nat) (ts : list Tank.t) :
  Forall fit ts -> (2 <= length ts)%nat -> is_Some (Game.find_target i 0 ts).
Proof.
  intros Hfit Hlen.
  assert (Hgen : forall j l, Forall fit l ->
            (exists k s, l !! k = Some s /\ (j + k)%nat <> i) ->
            is_Some (Game.find_target i j l)).
  { intros j l. revert j. induction l as [|a l IH]; intros j Hl (k & s & Hk & Hne).
    - discriminate.
    - cbn [Game.find_target]. apply Forall_cons in Hl. destruct Hl as [(Ha & _) Hl].
      rewrite Ha. destruct (Nat.eqb j i) eqn:Ej; cbn; [| eauto].
      apply Nat.eqb_eq in Ej. apply IH; [exact Hl |].
      destruct k as [|k]; [lia |]. exists k, s. split; [exact Hk | lia]. }
  apply Hgen; [exact Hfit |].
  destruct ts as [|a [|b ts]]; cbn in Hlen; try lia.
  destruct i as [|i]; [exists 1%nat, b | exists 0%nat, a]; split; try reflexivity; lia.
Qed.

Lemma update_tank_total `{Math} (inp : Game.Inputs) (i : nat) (g : Game.t) :
  sound g -> roomy (Game.screen g) -> Game.state g = Game.playing ->
  exists g', Game.update_tank inp i g = Ok g'.
Proof.
  intros (Hfit & _ & _ & Hplay) Hroom Hst. unfold Game.update_tank.
  destruct (Game.tanks g !! i) as [tank |] eqn:Ei; [| eauto].
  destruct (Hplay Hst) as (Hlen & grid & Hgrid & Hshape).
  assert (Hft : fit tank).
  { rewrite Forall_forall in Hfit. eapply Hfit, list_elem_of_lookup_2, Ei. }
  destruct (Tank.is_ai tank) eqn:Eai.
  - destruct (tank_update_total (Game.screen g) i (Game.keys inp) (Game.tiles g)
                (Game.find_target i 0 (Game.tanks g)) (Game.grid_map g)
                (Game.draws inp i) tank (Game.bullets g) Hft) as ([tank' h'] & ->).
    + intros _. split; [exact Hroom |]. split; [apply find_target_some; assumption |].
      eauto.
    + cbn [and_then]. eauto.
  - destruct (tank_update_total (Game.screen g) i (Game.keys inp) (Game.tiles g)
                None None (Game.draws inp i) tank (Game.bullets g) Hft)
      as ([tank' h'] & ->); [congruence |].
    cbn [and_then]. eauto.
Qed.

Lemma shoot_tank_total `{Math} (inp : Game.Inputs) (i : nat) (g : Game.t) :
  exists g', Game.shoot_tank inp i g = Ok g'.
Proof.
  unfold Game.shoot_tank. destruct (Game.tanks g !! i) as [tank |]; [| eauto].
  destruct (Tank.controls tank); [| eauto]. destruct (_ && _); [| eauto].
  destruct (Tank.shoot _ _ _). eauto.
Qed.

Lemma play_total `{Math} (inp : Game.Inputs) (g : Game.t) :
  sound g -> roomy (Game.screen g) -> Game.state g = Game.playing ->
  exists g', Game.play inp g = Ok g'.
Proof.
  intros Hs Hroom Hst. unfold Game.play.
  destruct (for_each_total
              (fun x => sound x /\ roomy (Game.screen x) /\ Game.state x = Game.playing)
              (seq 0 (length (Game.tanks g))) (Game.update_tank inp) g)
    as (g1 & -> & _); [| auto |].
  { intros i x _ (Hx & Hr & Hp).
    destruct (update_tank_total inp i x Hx Hr Hp) as (y & Hy). exists y.
    split; [exact Hy |].
    destruct (update_tank_sound inp i x y Hx Hy) as (? & ? & ?).
    split; [assumption | split; congruence]. }
  cbn [and_then].
  destruct (for_each_total (fun _ => True)
              (seq 0 (length (Game.tanks g1))) (Game.shoot_tank inp) g1)
    as (g2 & -> & _); [| exact I |].
  { intros i x _ _. destruct (shoot_tank_total inp i x) as (y & Hy). eauto. }
  cbn [and_then]. destruct (Game.check_collisions _). destruct (_ >=? _); eauto.
Qed.

(** *** Events *)

Lemma start_game_sound (md : option Game.Mode) (generated : list Tile.t) (ticks : Z)
    (g : Game.t) :
  exists gs, Game.start_game md generated ticks g = Ok gs /\ sound gs /\
    Game.running gs = Game.running g /\ Game.screen gs = Game.screen g.
Proof.
  destruct (create_grid_map_represents (Game.screen g) generated)
    as (grid & Hgrid & Hshape & _).
  unfold Game.start_game. rewrite Hgrid. cbn [and_then].
  eexists. split; [reflexivity |]. split; [| split; reflexivity].
  unfold sound. cbn [Game.tanks Game.bullets Game.state Game.grid_map Game.screen].
  split; [| split; [| split]].
  - apply Forall_cons. split; [| apply Forall_cons; split; [| apply Forall_nil; exact I]];
      unfold fit, Tank.init;
      cbn [Tank.alive Tank.is_ai Tank.controls Tank.bullets length];
      (split; [reflexivity |]); (split; [| lia]).
    + intros _. eauto.
    + destruct md as [[] |]; cbn [negb]; intros Hai; try discriminate Hai; eauto.
  - intros r b Hb. discriminate Hb.
  - reflexivity.
  - intros _. split; [cbn; lia |]. eauto.
Qed.

(** Every handler returns; it keeps the game sound, clears [running]
    on [QUIT] and sets it nowhere, and changes the size of the screen
    on a resize only. *)
Lemma handle_sound (o : Game.Occurrence) (g : Game.t) :
  sound g ->
  exists g', Game.handle o g = Ok g' /\ sound g' /\
    Game.running g' =
      (match Game.event o with Game.QUIT => false | _ => Game.running g end) /\
    Game.screen g' =
      (match Game.event o with
       | Game.VIDEORESIZE w h =>
           {| SCREEN_WIDTH := Z.max 100 w; SCREEN_HEIGHT := Z.max 100 h |}
       | _ => Game.screen g
       end).
Proof.
  intros Hs.
  assert (Hid : exists g', Ok g = Ok g' /\ sound g' /\
            Game.running g' = Game.running g /\ Game.screen g' = Game.screen g)
    by (exists g; auto).
  assert (Hmenu : exists g', Ok (Game.set_state g Game.menu) = Ok g' /\ sound g' /\
            Game.running g' = Game.running g /\ Game.screen g' = Game.screen g).
  { eexists. split; [reflexivity |]. split; [| auto].
    destruct Hs as (H1 & H2 & H3 & _). unfold sound.
    cbn [Game.set_state Game.tanks Game.bullets Game.state Game.grid_map Game.screen].
    repeat (split; [assumption |]). discriminate. }
  unfold Game.handle. destruct (Game.event o) as [| key | button on_button | w h |].
  - eexists. split; [reflexivity |]. split; [| auto].
    destruct Hs as (H1 & H2 & H3 & H4). unfold sound. cbn. auto.
  - destruct (Game.state g); repeat case_decide;
      try exact Hid; try exact Hmenu; apply start_game_sound.
  - destruct (Game.state g); try exact Hid.
    destruct (button =? 1); [| exact Hid].
    destruct on_button; [apply start_game_sound | exact Hid].
  - set (scr := {| SCREEN_WIDTH := Z.max 100 w; SCREEN_HEIGHT := Z.max 100 h |}).
    destruct Hs as (H1 & H2 & H3 & H4).
    destruct (Game.state g) eqn:Est.
    + eexists. split; [reflexivity |]. split; [| auto].
      unfold sound.
      cbn [Game.set_screen Game.tanks Game.bullets Game.state Game.grid_map Game.screen].
      repeat (split; [assumption |]). congruence.
    + destruct (create_grid_map_represents scr (Game.tiles g))
        as (grid & -> & Hshape & _).
      eexists. split; [reflexivity |]. split; [| auto].
      unfold sound.
      cbn [Game.set_screen Game.tanks Game.bullets Game.state Game.grid_map Game.screen].
      repeat (split; [assumption |]). intros _.
      split; [apply H4; reflexivity | eauto].
    + eexists. split; [reflexivity |]. split; [| auto].
      unfold sound.
      cbn [Game.set_screen Game.tanks Game.bullets Game.state Game.grid_map Game.screen].
      repeat (split; [assumption |]). congruence.
  - exact Hid.
Qed.

Lemma events_sound (os : list Game.Occurrence) (g : Game.t) :
  sound g ->
  exists g', for_each os Game.handle g = Ok g' /\ sound g' /\
    (Game.running g = false -> Game.running g' = false) /\
    ((exists o, In o os /\ Game.event o = Game.QUIT) -> Game.running g' = false) /\
    (roomy (Game.screen g) ->
     (forall o w h, In o os -> Game.event o = Game.VIDEORESIZE w h ->
        200 <= w /\ 200 <= h) ->
     roomy (Game.screen g')).
Proof.
  revert g. induction os as [|o os IH]; intros g Hs; cbn [for_each].
  - exists g. split; [reflexivity |]. split; [exact Hs |]. split; [auto |].
    split; [intros (o & [] & _) | auto].
  - destruct (handle_sound o g Hs) as (g1 & -> & Hs1 & Hrun1 & Hscr1). cbn [and_then].
    destruct (IH g1 Hs1) as (g2 & Hg2 & Hs2 & Hrun2 & Hquit2 & Hroom2).
    exists g2. split; [exact Hg2 |]. split; [exact Hs2 |]. split; [| split].
    + intros Hr. apply Hrun2. rewrite Hrun1. destruct (Game.event o); auto.
    + intros (o' & [<- | Hin] & Hq).
      * apply Hrun2. rewrite Hrun1, Hq. reflexivity.
      * apply Hquit2. eauto.
    + intros Hroom Hcalm. apply Hroom2.
      * rewrite Hscr1. destruct (Game.event o) as [| | | w h |] eqn:Ev; try exact Hroom.
        destruct (Hcalm o w h (or_introl eq_refl) Ev). unfold roomy. cbn. lia.
      * intros o' w h Hin. apply Hcalm. right. exact Hin.
Qed.

(** One iteration keeps the game sound, whatever it reads. *)
Lemma step_sound `{Math} (inp : Game.Inputs) (g g' : Game.t) :
  sound g -> Game.step inp g = Ok g' -> sound g'.
Proof.
  intros Hs. unfold Game.step.
  destruct (events_sound (Game.events inp) g Hs) as (g1 & -> & Hs1 & _).
  cbn [and_then]. destruct (Game.state g1); try (intros [= <-]; exact Hs1).
  intros Hp. apply (play_sound inp g1 g' Hs1 Hp).
Qed.

(** On a roomy screen and with calm events one iteration returns. *)
Lemma step_total `{Math} (inp : Game.Inputs) (g : Game.t) :
  sound g -> roomy (Game.screen g) -> calm inp ->
  exists g', Game.step inp g = Ok g' /\ sound g' /\ roomy (Game.screen g').
Proof.
  intros Hs Hroom Hcalm. unfold Game.step.
  destruct (events_sound (Game.events inp) g Hs) as (g1 & -> & Hs1 & _ & _ & Hroom1).
  specialize (Hroom1 Hroom Hcalm). cbn [and_then].
  destruct (Game.state g1) eqn:Est; try (exists g1; auto; fail).
  destruct (play_total inp g1 Hs1 Hroom1 Est) as (g2 & Hg2).
  exists g2. split; [exact Hg2 |].
  destruct (play_sound inp g1 g2 Hs1 Hg2) as [Hs2 Hscr]. split; [exact Hs2 | congruence].
Qed.

Lemma init_sound (snd : bool) : sound (Game.init snd).
Proof.
  unfold sound. cbn. split; [apply Forall_nil; exact I |].
  split; [intros r b Hb; discriminate Hb |]. split; [reflexivity | discriminate].
Qed.

Lemma run_sound `{Math} (inps : list Game.Inputs) (g g' : Game.t) :
  sound g -> Game.run inps g = Ok g' -> sound g'.
Proof.
  revert g. induction inps as [|inp inps IH]; intros g Hs; cbn [Game.run].
  - intros [= <-]. exact Hs.
  - destruct (Game.running g); [| intros [= <-]; exact Hs].
    destruct (Game.step inp g) as [g1 | e] eqn:E; cbn [and_then]; [| discriminate].
    apply IH. apply (step_sound inp g g1 Hs E).
Qed.

Lemma run_total `{Math} (inps : list Game.Inputs) (g : Game.t) :
  sound g -> roomy (Game.screen g) -> (forall inp, In inp inps -> calm inp) ->
  exists g', Game.run inps g = Ok g'.
Proof.
  revert g. induction inps as [|inp inps IH]; intros g Hs Hroom Hcalm; cbn [Game.run].
  - eauto.
  - destruct (Game.running g); [| eauto].
    destruct (step_total inp g Hs Hroom (Hcalm inp (or_introl eq_refl)))
      as (g1 & -> & Hs1 & Hroom1).
    cbn [and_then]. apply IH; [exact Hs1 | exact Hroom1 |].
    intros inp' Hin. apply Hcalm. right. exact Hin.
Qed.

(** X14. The game logic of the main loop raises nothing: started from
    a new [Game], with whatever events, keys, random draws, generated
    maps and clock readings, as long as no resize event makes a side of
    the window shorter than 200, every iteration returns. (Drawing,
    sound and the display calls are not part of the model.) *)
Theorem session_never_raises `{Math} (snd : bool) (inps : list Game.Inputs) :
  (forall inp o w h, In inp inps -> In o (Game.events inp) ->
     Game.event o = Game.VIDEORESIZE w h -> 200 <= w /\ 200 <= h) ->
  exists g', Game.run inps (Game.init snd) = Ok g'.
Proof.
  intros Hcalm. apply run_total.
  - apply init_sound.
  - unfold roomy. cbn. lia.
  - intros inp Hin o w h. apply Hcalm, Hin.
Qed.

Lemma session_never_raises_witness :
  exists g', Game.run (H := example_math) example_session (Game.init false) = Ok g'.
Proof.
  apply (session_never_raises (H := example_math) false example_session).
  intros inp o w h [<- | [<- | []]]; cbn; [| intros []].
  intros [<- | []]. cbn. discriminate.
Defined.

(** X15. In every state that the main loop reaches from a new [Game],
    each tank is alive, holds at most three bullets and, unless the
    computer steers it, has its keys; every bullet of the store is owned
    by one of the tanks. *)
Theorem session_keeps_tanks_fit `{Math} (snd : bool) (inps : list Game.Inputs)
    (g' : Game.t) :
  Game.run inps (Game.init snd) = Ok g' ->
  (forall s, In s (Game.tanks g') ->
     Tank.alive s = true /\ (length (Tank.bullets s) <= 3)%nat /\
     (Tank.is_ai s = false -> is_Some (Tank.controls s))) /\
  (forall r b, Game.bullets g' !! r = Some b ->
     (Bullet.owner b < length (Game.tanks g'))%nat).
Proof.
  intros Hrun. apply run_sound in Hrun; [| apply init_sound].
  destruct Hrun as (Hfit & Hown & _). split; [| exact Hown].
  intros s Hin. rewrite Forall_forall in Hfit.
  destruct (Hfit s (proj2 (list_elem_of_In _ _) Hin)) as (Ha & Hc & Hl). auto.
Qed.

Lemma session_keeps_tanks_fit_witness :
  exists g', Game.run (H := example_math) example_session (Game.init false) = Ok g' /\
    length (Game.tanks g') = 2%nat /\
    forall s, In s (Game.tanks g') ->
      Tank.alive s = true /\ (length (Tank.bullets s) <= 3)%nat /\
      (Tank.is_ai s = false -> is_Some (Tank.controls s)).
Proof.
  destruct (Game.run (H := example_math) example_session (Game.init false))
    as [g' | e] eqn:E; [| vm_compute in E; discriminate].
  exists g'. split; [reflexivity |].
  split; [vm_compute in E; injection E as <-; reflexivity |].
  apply (session_keeps_tanks_fit (H := example_math) false example_session g' E).
Defined.

(** X16. In every state that the main loop reaches from a new [Game]
    the scores balance: the deaths of all tanks together are their
    kills plus their suicides. *)
Theorem session_scores_balance `{Math} (snd : bool) (inps : list Game.Inputs)
    (g' : Game.t) :
  Game.run inps (Game.init snd) = Ok g' ->
  ledger (Game.tanks g') = 0.
Proof.
  intros Hrun. apply run_sound in Hrun; [| apply init_sound].
  destruct Hrun as (_ & _ & Hled & _). exact Hled.
Qed.

Lemma session_scores_balance_witness :
  exists g', Game.run (H := example_math) example_session (Game.init false) = Ok g' /\
    ledger (Game.tanks g') = 0.
Proof.
  destruct (Game.run (H := example_math) example_session (Game.init false))
    as [g' | e] eqn:E; [| vm_compute in E; discriminate].
  exists g'. split; [reflexivity |].
  apply (session_scores_balance (H := example_math) false example_session g' E).
Defined.

(** *** Leaving the loop *)

Lemma handle_running (o : Game.Occurrence) (g g' : Game.t) :
  Game.handle o g = Ok g' ->
  Game.running g' = (match Game.event o with Game.QUIT => false | _ => Game.running g end).
Proof.
  assert (Hstart : forall md, Game.start_game md (Game.generated o) (Game.ticks o) g = Ok g' ->
            Game.running g' = Game.running g).
  { intros md. unfold Game.start_game.
    destruct (Game.create_grid_map _ _); cbn [and_then]; [| discriminate].
    intros [= <-]. reflexivity. }
  unfold Game.handle. destruct (Game.event o) as [| key | button on_button | w h |].
  - intros [= <-]. reflexivity.
  - destruct (Game.state g); repeat case_decide;
      try (intros [= <-]; reflexivity); apply Hstart.
  - destruct (Game.state g); try (intros [= <-]; reflexivity).
    destruct (button =? 1); [| intros [= <-]; reflexivity].
    destruct on_button; [apply Hstart | intros [= <-]; reflexivity].
  - destruct (Game.state g); try (intros [= <-]; reflexivity).
    destruct (Game.create_grid_map _ _); intros [= <-]; reflexivity.
  - intros [= <-]. reflexivity.
Qed.

Lemma events_running (os : list Game.Occurrence) (g g' : Game.t) :
  for_each os Game.handle g = Ok g' ->
  (Game.running g = false -> Game.running g' = false) /\
  ((exists o, In o os /\ Game.event o = Game.QUIT) -> Game.running g' = false).
Proof.
  revert g. induction os as [|o os IH]; intros g; cbn [for_each].
  - intros [= <-]. split; [auto | intros (o & [] & _)].
  - destruct (Game.handle o g) as [g1 | e] eqn:E; cbn [and_then]; [| discriminate].
    intros Hrest. apply handle_running in E. destruct (IH g1 Hrest) as [Hoff Hquit].
    split.
    + intros Hr. apply Hoff. rewrite E. destruct (Game.event o); auto.
    + intros (o' & [<- | Hin] & Hq); [apply Hoff; rewrite E, Hq; reflexivity |].
      apply Hquit. eauto.
Qed.

(** X17. A [QUIT] event ends the loop at the end of its iteration: the
    other events of that iteration are handled and its tick is played,
    [running] is off afterwards, and no later iteration is run. *)
Theorem quit_ends_loop `{Math} (inp : Game.Inputs) (rest : list Game.Inputs)
    (g g' : Game.t) (o : Game.Occurrence) :
  Game.running g = true -> In o (Game.events inp) -> Game.event o = Game.QUIT ->
  Game.step inp g = Ok g' ->
  Game.running g' = false /\ Game.run (inp :: rest) g = Ok g'.
Proof.
  intros Hrun Hin Hq Hstep.
  assert (Hoff : Game.running g' = false).
  { unfold Game.step in Hstep.
    destruct (for_each (Game.events inp) Game.handle g) as [g1 | e] eqn:E;
      cbn [and_then] in Hstep; [| discriminate].
    apply events_running in E. destruct E as [_ Hquit].
    assert (H1 : Game.running g1 = false) by (apply Hquit; eauto).
    destruct (Game.state g1); try (injection Hstep as <-; exact H1).
    apply play_phase in Hstep. destruct Hstep as (_ & Hr & _). congruence. }
  split; [exact Hoff |].
  cbn [Game.run]. rewrite Hrun, Hstep. cbn [and_then].
  destruct rest; cbn [Game.run]; [reflexivity |]. rewrite Hoff. reflexivity.
Qed.

Lemma quit_ends_loop_witness :
  exists g',
    Game.running g' = false /\
    Game.run (H := example_math) (closing :: example_session) (Game.init false) = Ok g'.
Proof.
  exists (Game.set_running (Game.init false) false).
  apply (quit_ends_loop (H := example_math) closing example_session (Game.init false) _
           {| Game.event := Game.QUIT; Game.generated := []; Game.ticks := 0 |});
    [reflexivity | left; reflexivity | reflexivity | reflexivity].
Defined.

(** *** Resizing *)

(** X18. A resize event during a match, the display taking the new
    size, sets the screen to that size, at least 100 by 100, and
    replaces the grid by the occupancy grid of the tiles for it; nothing
    else of the game changes, so tanks and bullets stay where they
    are. *)
Theorem resize_rebuilds_grid (o : Game.Occurrence) (g : Game.t) (w h : Z) :
  Game.state g = Game.playing -> Game.event o = Game.VIDEORESIZE w h ->
  exists grid,
    Game.handle o g = Ok (Game.set_screen g (resized w h) (Some grid)) /\
    represents (Game.grid_w (resized w h)) (Game.grid_h (resized w h)) grid
      (fun cx cy => on_border (resized w h) cx cy \/
                    collidable_tile_at (Game.tiles g) cx cy) /\
    Game.tanks (Game.set_screen g (resized w h) (Some grid)) = Game.tanks g /\
    Game.bullets (Game.set_screen g (resized w h) (Some grid)) = Game.bullets g /\
    100 <= SCREEN_WIDTH (resized w h) /\ 100 <= SCREEN_HEIGHT (resized w h).
Proof.
  intros Hst Hev.
  destruct (create_grid_map_represents (resized w h) (Game.tiles g)) as (grid & Hgrid & Hrep).
  exists grid. unfold Game.handle. rewrite Hev, Hst. fold (resized w h). rewrite Hgrid.
  split; [reflexivity |]. split; [exact Hrep |]. cbn. repeat split; lia.
Qed.

Lemma resize_rebuilds_grid_witness :
  exists g grid,
    example_match = Ok g /\
    Game.handle {| Game.event := Game.VIDEORESIZE 640 50; Game.generated := [];
                   Game.ticks := 0 |} g
      = Ok (Game.set_screen g (resized 640 50) (Some grid)) /\
    SCREEN_HEIGHT (resized 640 50) = 100 /\ length grid = 9%nat.
Proof.
  destruct example_match as [g | e] eqn:Eg; [| vm_compute in Eg; discriminate].
  assert (Hst : Game.state g = Game.playing).
  { vm_compute in Eg. injection Eg as <-. reflexivity. }
  destruct (resize_rebuilds_grid
              {| Game.event := Game.VIDEORESIZE 640 50; Game.generated := [];
                 Game.ticks := 0 |} g 640 50 Hst eq_refl)
    as (grid & Hh & ((Hlen & _) & _) & _).
  exists g, grid. split; [reflexivity |]. split; [exact Hh |].
  split; [reflexivity |]. change (Game.grid_w (resized 640 50)) with 9 in Hlen. lia.
Defined.

(** *** Patrol points *)

(** X19. On a screen with a side shorter than 200 the computer's tank
    cannot draw a patrol point: when the state selection gives patrol
    and the tank has no patrol point or draws a new one, [update_ai]
    raises [ValueError]. *)
Theorem patrol_needs_room `{Math} (scr : Screen) (me : nat) (tiles : list Tile.t)
    (tg : Tank.t) (grid_map : option Grid) (rnd : Draws) (s : Tank.t) (h : Heap) :
  SCREEN_WIDTH scr < 200 \/ SCREEN_HEIGHT scr < 200 ->
  Tank.select_state s tg tiles = Tank.patrol ->
  Tank.patrol_point s = None \/ repick rnd = true ->
  Tank.update_ai scr me tiles (Some tg) grid_map rnd s h = Raise ValueError.
Proof.
  intros Hsmall Hsel Hpick. unfold Tank.update_ai.
  set (s0 := if negb (Tank.alive tg) then _ else s).
  assert (H0 : Tank.select_state s0 tg tiles = Tank.patrol /\
               Tank.patrol_point s0 = Tank.patrol_point s).
  { subst s0. destruct (negb (Tank.alive tg)); auto. }
  clearbody s0. destruct H0 as [Hsel0 Hpp0].
  set (s1 := Tank.set_ai s0 _ _ _ _).
  assert (H1 : Tank.ai_state s1 = Tank.patrol /\ Tank.patrol_point s1 = Tank.patrol_point s).
  { subst s1. cbn. auto. }
  clearbody s1. destruct H1 as [Hst1 Hpp1]. rewrite Hst1.
  assert (Hroom : (SCREEN_WIDTH scr - 100 <? 100) || (SCREEN_HEIGHT scr - 100 <? 100)
                  = true).
  { apply orb_true_iff. destruct Hsmall; [left | right]; apply Z.ltb_lt; lia. }
  rewrite Hroom, Hpp1.
  destruct (Tank.patrol_point s) as [p |]; [| reflexivity].
  destruct Hpick as [Hp | ->]; [discriminate Hp | reflexivity].
Qed.

Lemma patrol_needs_room_witness :
  Tank.update_ai (H := example_math) (resized 150 600) 1 [] (Some (tank_at 100 500 true))
    None no_draws (tank_at 60 60 true) [] = Raise ValueError.
Proof.
  apply (patrol_needs_room (H := example_math)).
  - left. cbn. lia.
  - reflexivity.
  - left. reflexivity.
Defined.

(** ** The path of the pathfinder *)

Lemma direction_adjacent (current d : Z * Z) :
  In d directions -> adjacent current (current.1 + d.1, current.2 + d.2).
Proof.
  intros Hd. unfold adjacent. destruct current as [cx cy]. cbn [fst snd].
  unfold directions in Hd. cbn in Hd.
  repeat (destruct Hd as [<- | Hd]; [cbn; split; [intros [=]; lia | lia] |]).
  destruct Hd.
Qed.

Lemma relax_adjacent (grid_map : option Grid) (goal current d : Z * Z) (s s' : Search) :
  In d directions -> parents_adjacent (came_from s) ->
  relax grid_map goal current d s = Ok s' -> parents_adjacent (came_from s').
Proof.
  intros Hd Hadj. unfold relax.
  destruct (in_grid grid_map _) as [inside | e]; cbn [and_then]; [| discriminate].
  destruct (negb inside); [intros [= <-]; exact Hadj |].
  destruct (the_grid grid_map) as [g | e]; cbn [and_then]; [| discriminate].
  destruct (py_index g _) as [col | e]; cbn [and_then]; [| discriminate].
  destruct (py_index col _) as [occupied | e]; cbn [and_then]; [| discriminate].
  destruct occupied; [intros [= <-]; exact Hadj |].
  destruct (cost_so_far s !! current) as [c0 |]; [| discriminate].
  cbv zeta. destruct (match cost_so_far s !! _ with Some _ => _ | None => _ end);
    intros [= <-]; [| exact Hadj].
  cbn [came_from]. intros c p Hc.
  destruct (decide ((current.1 + d.1, current.2 + d.2) = c)) as [<- | Hne].
  - rewrite lookup_insert_eq in Hc. injection Hc as <-. apply direction_adjacent, Hd.
  - rewrite lookup_insert_ne in Hc by exact Hne. eapply Hadj, Hc.
Qed.

Lemma astar_loop_adjacent (fuel : nat) (grid_map : option Grid) (goal : Z * Z) :
  forall s s', parents_adjacent (came_from s) ->
  astar_loop fuel grid_map goal s = Some (Ok s') -> parents_adjacent (came_from s').
Proof.
  induction fuel as [|fuel IH]; intros s s' Hadj; cbn [astar_loop]; [discriminate |].
  destruct (frontier s) as [|e f']; [intros [= <-]; exact Hadj |].
  destruct (negb _); [intros [= <-]; exact Hadj |].
  destruct (pop_min e f') as [m rest].
  destruct (decide (m.2 = goal)); [intros [= <-]; exact Hadj |].
  destruct (for_each directions _ _) as [s2 | err] eqn:E; [| discriminate].
  apply IH.
  apply (for_each_invariant (fun x => parents_adjacent (came_from x))) in E;
    [exact E | | exact Hadj].
  intros d s1 s3 Hd H1 H3. eapply relax_adjacent; eassumption.
Qed.

Lemma last_cons_default (A : Type) (l : list A) (a d d' : A) :
  List.last (a :: l) d = List.last (a :: l) d'.
Proof.
  revert a. induction l as [|b l IH]; intros a; [reflexivity |].
  change (List.last (b :: l) d = List.last (b :: l) d'). apply IH.
Qed.

Lemma walk_snoc (free : Z * Z -> Prop) (c : Z * Z) (l : list (Z * Z)) :
  forall prev, walk free prev l -> adjacent (List.last l prev) c -> free c ->
  walk free prev (l ++ [c]).
Proof.
  induction l as [|a l IH]; intros prev Hw Ha Hf.
  - cbn in *. auto.
  - destruct Hw as (H1 & H2 & H3). cbn [app walk]. split; [exact H1 |].
    split; [exact H2 |]. apply IH; [exact H3 | | exact Hf].
    destruct l as [|b l]; [exact Ha |].
    rewrite (last_cons_default _ l b a prev). exact Ha.
Qed.

Lemma walk_take (free : Z * Z -> Prop) (n : nat) :
  forall prev l, walk free prev l -> walk free prev (take n l).
Proof.
  induction n as [|n IH]; intros prev l Hw; [exact I |].
  destruct l as [|a l]; [exact I |]. destruct Hw as (H1 & H2 & H3).
  cbn. auto.
Qed.

Lemma last_snoc (A : Type) (l : list A) (a d : A) : List.last (l ++ [a]) d = a.
Proof.
  induction l as [|b l IH]; [reflexivity |].
  cbn [app]. destruct (l ++ [a]) eqn:E; [destruct l; discriminate |].
  cbn [List.last]. exact IH.
Qed.

(** The cells that the reconstruction visits, from the last to the
    first, make a walk when they are read backwards. *)
Lemma walk_back_walk (w h : Z) (g : Grid) (start : Z * Z) (st : Search) (fuel : nat) :
  search_inv w h g start st -> parents_adjacent (came_from st) ->
  forall c path, walk_back fuel (came_from st) start c = Some (Ok path) ->
  exists cs, path = map waypoint cs /\
    walk (free_cell w h g) start (reverse cs) /\
    List.last (reverse cs) start = c.
Proof.
  intros Hinv Hadj. induction fuel as [|fuel IH]; intros c path; cbn [walk_back].
  - destruct (decide (c = start)) as [-> | Hne]; [| discriminate].
    intros [= <-]. exists []. cbn. auto.
  - destruct (decide (c = start)) as [-> | Hne].
    { intros [= <-]. exists []. cbn. auto. }
    destruct (came_from st !! c) as [[p |] |] eqn:Ecf; try discriminate.
    destruct (walk_back fuel (came_from st) start p) as [[path' | e] |] eqn:Ew;
      try discriminate.
    intros [= <-]. destruct (IH p path' Ew) as (cs & -> & Hw & Hlast).
    exists (c :: cs). split; [reflexivity |]. rewrite reverse_cons.
    split; [| apply last_snoc].
    apply walk_snoc; [exact Hw | rewrite Hlast; eapply Hadj, Ecf |].
    destruct (inv_parent _ _ _ _ _ Hinv c Hne)
      as [[Hnone _] | (p' & vp & vc & _ & _ & _ & _ & Hfree)]; [congruence | exact Hfree].
Qed.

Lemma map_reverse {A B : Type} (f : A -> B) (l : list A) :
  map f (reverse l) = reverse (map f l).
Proof.
  induction l as [|a l IH]; [reflexivity |].
  cbn [map]. rewrite !reverse_cons, map_app, IH. reflexivity.
Qed.

(** X20. The waypoints that [astar_pathfind] returns on a rectangular
    grid are the centres of a walk: at most ten cells, each free and
    inside the grid, each one of the eight neighbours of the cell before
    it, the first a neighbour of the cell of the tank; a path of fewer
    than ten waypoints that is not empty ends in the cell of the
    target. *)
Theorem path_is_walk (w h : Z) (g : Grid) (s target : Tank.t) (path : list (Z * Z)) :
  shaped w h g ->
  Tank.astar_pathfind s target (Some g) = Ok path ->
  exists cs, path = map waypoint cs /\
    walk (free_cell w h g) (cell_of s) cs /\
    (length cs <= 10)%nat /\
    (cs <> [] -> (length cs < 10)%nat -> List.last cs (cell_of s) = cell_of target).
Proof.
  intros Hshape. unfold Tank.astar_pathfind. fold (cell_of s) (cell_of target).
  set (start := cell_of s). set (goal := cell_of target).
  set (fuel := Tank.astar_fuel (Some g)).
  assert (Hempty : Ok [] = Ok path ->
            exists cs, path = map waypoint cs /\ walk (free_cell w h g) start cs /\
              (length cs <= 10)%nat /\
              (cs <> [] -> (length cs < 10)%nat -> List.last cs start = goal)).
  { intros [= <-]. exists []. split; [reflexivity |]. split; [exact I |].
    split; [cbn; lia | congruence]. }
  unfold astar_cells. destruct (decide (start = goal)) as [Heq | Hne]; [exact Hempty |].
  pose proof (astar_fuel_above w h g Hshape) as Hfuel. fold fuel in Hfuel.
  pose proof (initial_potential w h g start Hshape) as Hp0.
  destruct (astar_loop_total w h g start goal Hshape fuel (initial_search start) Hne
              (initial_search_inv w h g start) ltac:(lia)) as (st & Hloop & Hinv & _).
  rewrite Hloop.
  assert (Hadj : parents_adjacent (came_from st)).
  { apply (astar_loop_adjacent fuel (Some g) goal (initial_search start) st); [| exact Hloop].
    intros c p Hc. cbn in Hc. apply lookup_singleton_Some in Hc.
    destruct Hc as [_ Hc]. discriminate Hc. }
  destruct (came_from st !! goal); [| exact Hempty].
  destruct (walk_back fuel (came_from st) start goal) as [[path0 | e] |] eqn:Ew;
    try discriminate; [| exact Hempty].
  destruct (walk_back_walk w h g start st fuel Hinv Hadj goal path0 Ew)
    as (cs & -> & Hw & Hlast).
  intros [= <-]. exists (take 10 (reverse cs)).
  split; [rewrite <- map_reverse; apply firstn_map |].
  split; [apply walk_take, Hw |]. split; [rewrite length_take; lia |].
  intros _ Hlen. rewrite length_take in Hlen.
  rewrite take_ge by lia. exact Hlast.
Qed.

Lemma path_is_walk_witness :
  exists path cs,
    Tank.astar_pathfind (tank_at 105 67 true) (tank_at 175 157 true) (Some small_grid)
      = Ok path /\
    path = map waypoint cs /\ walk (free_cell 4 5 small_grid) (1, 1) cs /\
    List.last cs (1, 1) = (2, 3).
Proof.
  destruct (Tank.astar_pathfind (tank_at 105 67 true) (tank_at 175 157 true)
              (Some small_grid)) as [path | e] eqn:E; [| vm_compute in E; discriminate].
  destruct (path_is_walk 4 5 small_grid (tank_at 105 67 true) (tank_at 175 157 true)
              path small_grid_shaped E) as (cs & Hpath & Hwalk & Hlen & Hlast).
  exists path, cs. split; [reflexivity |]. split; [exact Hpath |].
  split; [exact Hwalk |].
  assert (Hcs : length cs = 2%nat).
  { vm_compute in E. injection E as <-. apply (f_equal (@length _)) in Hpath.
    rewrite length_map in Hpath. cbn in Hpath. lia. }
  apply Hlast; [destruct cs; [discriminate | congruence] | lia].
Defined.

(** ** The attack state *)

(** X21. A tank of the computer that attacks stays where it is: when
    the state selection gives attack, [update_ai] changes neither
    abscissa nor ordinate of the tank, whatever it does to its heading
    and whether it fires or not; it leaves path and patrol point
    alone. *)
Theorem attack_holds_position `{Math} (scr : Screen) (me : nat) (tiles : list Tile.t)
    (tg : Tank.t) (grid_map : option Grid) (rnd : Draws) (s s' : Tank.t) (h h' : Heap) :
  Tank.select_state s tg tiles = Tank.attack ->
  Tank.update_ai scr me tiles (Some tg) grid_map rnd s h = Ok (s', h') ->
  Tank.x s' = Tank.x s /\ Tank.y s' = Tank.y s /\
  Tank.ai_path s' = Tank.ai_path s /\ Tank.patrol_point s' = Tank.patrol_point s.
Proof.
  intros Hsel. unfold Tank.update_ai.
  set (s0 := if negb (Tank.alive tg) then _ else s).
  assert (H0 : Tank.select_state s0 tg tiles = Tank.attack /\
               Tank.x s0 = Tank.x s /\ Tank.y s0 = Tank.y s /\
               Tank.ai_path s0 = Tank.ai_path s /\
               Tank.patrol_point s0 = Tank.patrol_point s).
  { subst s0. destruct (negb (Tank.alive tg)); auto. }
  clearbody s0. destruct H0 as (Hsel0 & Hx0 & Hy0 & Hp0 & Hpp0).
  set (s1 := Tank.set_ai s0 _ _ _ _).
  assert (H1 : Tank.ai_state s1 = Tank.attack /\
               Tank.x s1 = Tank.x s /\ Tank.y s1 = Tank.y s /\
               Tank.ai_path s1 = Tank.ai_path s /\
               Tank.patrol_point s1 = Tank.patrol_point s).
  { subst s1. cbn. auto. }
  clearbody s1. destruct H1 as (Hst1 & Hx1 & Hy1 & Hp1 & Hpp1). rewrite Hst1.
  set (s2 := if Qltb 5 _ then _ else s1).
  assert (H2 : Tank.x s2 = Tank.x s /\ Tank.y s2 = Tank.y s /\
               Tank.ai_path s2 = Tank.ai_path s /\
               Tank.patrol_point s2 = Tank.patrol_point s).
  { subst s2. destruct (Qltb 5 _); cbn; auto. }
  clearbody s2. destruct H2 as (Hx2 & Hy2 & Hp2 & Hpp2).
  destruct (Qltb (Qabs _) 15); [| intros [= <- <-]; auto].
  destruct (Qltb 30 _); [| intros [= <- <-]; cbn; auto].
  unfold Tank.shoot. destruct (_ && _); cbn; intros [= <- <-]; cbn; auto.
Qed.

Lemma attack_holds_position_witness :
  exists s' h',
    Tank.update_ai (H := example_math) default_screen 1 [] (Some (tank_at 200 100 true))
      None no_draws (tank_at 100 100 true) [] = Ok (s', h') /\
    Tank.x s' = 100%Q /\ Tank.y s' = 100%Q.
Proof.
  destruct (Tank.update_ai (H := example_math) default_screen 1 []
              (Some (tank_at 200 100 true)) None no_draws (tank_at 100 100 true) [])
    as [[s' h'] | e] eqn:E; [| vm_compute in E; discriminate].
  exists s', h'. split; [reflexivity |].
  destruct (attack_holds_position (H := example_math) default_screen 1 []
              (tank_at 200 100 true) None no_draws (tank_at 100 100 true) s' [] h'
              eq_refl E) as (Hx & Hy & _).
  split; assumption.
Defined.
